(** * Matrix square root (scipy/linalg/_matfuncs_sqrtm.py)

    A shallow embedding of [_sqrtm_triu] (the blocked triangular
    square-root engine) and of [sqrtm] (the driver), together with the
    properties of the block partition, of the two recurrence phases and of
    the driver's validation and outputs.

    Python integers are [Z]; a 2-D array is the list of its rows; the
    floating-point element type and the external collaborators (LAPACK's
    [ztrsyl], [schur], [rsf2csf], [norm], matrix products) are parameters,
    so that every statement holds for any arithmetic. *)

From Stdlib Require Import ZArith String Lia.
From stdpp Require Import base list list_numbers strings.

Local Open Scope Z_scope.

(** ** Exceptions and fallible computations *)

Inductive exn : Type :=
| ValueError (msg : string)
| NameError (name : string)
| IndexError
| ZeroDivisionError
| Exception (msg : string).

Inductive result (A : Type) : Type :=
| Ok (a : A)
| Raise (e : exn).
Arguments Ok {A} a.
Arguments Raise {A} e.

Definition rbind {A B : Type} (m : result A) (k : A -> result B) : result B :=
  match m with
  | Ok a => k a
  | Raise e => Raise e
  end.

Notation "x <- m ;; k" := (rbind m (fun x => k))
  (at level 100, m at next level, right associativity).

(** [for x in xs: body], threading the loop state and stopping at the first
    exception. *)
Fixpoint for_in {A S : Type} (xs : list A) (body : A -> S -> result S) (s : S)
  : result S :=
  match xs with
  | [] => Ok s
  | x :: xs' =>
      match body x s with
      | Ok s' => for_in xs' body s'
      | Raise e => Raise e
      end
  end.

(** ** Python ranges, indices and slices *)

(** [range(a, b)] *)
Definition range_up (a b : Z) : list Z := seqZ a (b - a).

(** [range(a, b, -1)]: a, a-1, ..., b+1 *)
Definition range_down (a b : Z) : list Z := reverse (seqZ (b + 1) (a - b)).

(** An integer index into a sequence of length [len]: negative indices count
    from the end, anything else out of range raises IndexError.  The result
    is the normalised index in [0, len). *)
Definition py_index (len : nat) (i : Z) : result Z :=
  if bool_decide (0 <= i < Z.of_nat len) then Ok i
  else if bool_decide (- Z.of_nat len <= i < 0) then Ok (i + Z.of_nat len)
  else Raise IndexError.

(** A slice bound is clipped, never an error. *)
Definition slice_bound (len : nat) (i : Z) : nat :=
  if bool_decide (i < 0) then Z.to_nat (Z.max 0 (i + Z.of_nat len))
  else Z.to_nat (Z.min i (Z.of_nat len)).

(** [l[a:b]] *)
Definition py_slice {A : Type} (a b : Z) (l : list A) : list A :=
  let lo := slice_bound (length l) a in
  let hi := slice_bound (length l) b in
  take (hi - lo)%nat (drop lo l).

(** [l[i]] on a Python list *)
Definition list_getitem {A : Type} (l : list A) (i : Z) : result A :=
  k <- py_index (length l) i ;;
  match l !! Z.to_nat k with
  | Some x => Ok x
  | None => Raise IndexError
  end.

(** ** Element types *)

(** The element type of the arrays ([T.dtype], complex double in [sqrtm])
    with numpy's arithmetic on it, and the real floating-point type of
    norms and scale factors.  [vdot] is [ndarray.dot] on two 1-D arrays;
    [mdot] is the inner product that yields one entry of [ndarray.dot] on
    two 2-D arrays. *)
Class Dtype : Type := {
  C : Type;
  F : Type;
  czero : C;
  cadd : C -> C -> C;
  csub : C -> C -> C;
  cdiv : C -> C -> C;
  csqrt : C -> C;
  cscale : C -> F -> C;
  ceq0 : C -> bool;
  vdot : list C -> list C -> C;
  mdot : list C -> list C -> C;
  fpow : F -> Z -> F;
  fdiv : F -> F -> F
}.

(** A 2-D ndarray: the list of its rows, all of one length. *)
Abbreviation matrix := (list (list C)) (only parsing).

Section Arrays.
Context `{DT : Dtype}.

Definition nrows (M : matrix) : nat := length M.
Definition ncols (M : matrix) : nat :=
  match M with
  | [] => 0%nat
  | r :: _ => length r
  end.

(** The entry at a normalised position. *)
Definition ent (M : matrix) (i j : Z) : C :=
  default czero (M !! Z.to_nat i ≫= fun row => row !! Z.to_nat j).

Definition row_of (M : matrix) (i : Z) : list C :=
  default [] (M !! Z.to_nat i).

(** [M[i, j]] *)
Definition getitem (M : matrix) (i j : Z) : result C :=
  r <- py_index (nrows M) i ;;
  c <- py_index (ncols M) j ;;
  Ok (ent M r c).

(** [M[i, a:b]] *)
Definition getrow (M : matrix) (i a b : Z) : result (list C) :=
  r <- py_index (nrows M) i ;;
  Ok (py_slice a b (row_of M r)).

(** [M[a:b, j]] *)
Definition getcol (M : matrix) (a b j : Z) : result (list C) :=
  c <- py_index (ncols M) j ;;
  Ok ((fun row => default czero (row !! Z.to_nat c)) <$> py_slice a b M).

(** [M[a:b, c:d]] *)
Definition getblock (M : matrix) (a b c d : Z) : matrix :=
  py_slice c d <$> py_slice a b M.

(** [np.zeros((n, m))] *)
Definition np_zeros (n m : Z) : matrix :=
  replicate (Z.to_nat n) (replicate (Z.to_nat m) czero).

(** [np.diag(M)] of a 2-D array: its main diagonal. *)
Definition np_diag (M : matrix) : list C :=
  (fun k => ent M k k) <$> seqZ 0 (Z.of_nat (min (nrows M) (ncols M))).

(** [A.dot(B)] on 2-D arrays: rows of [A] against columns of [B]. *)
Definition column (M : matrix) (c : Z) : list C :=
  (fun row => default czero (row !! Z.to_nat c)) <$> M.
Definition mat_dot (A B : matrix) : matrix :=
  (fun row => (fun c => mdot row (column B c)) <$> seqZ 0 (Z.of_nat (ncols B)))
    <$> A.

(** [A - B], elementwise, on arrays of one shape. *)
Definition mat_sub (A B : matrix) : matrix := zip_with (zip_with csub) A B.

(** [x * scale] with a real scalar. *)
Definition mat_scale (x : matrix) (scale : F) : matrix :=
  fmap (M := list) (fun e => cscale e scale) <$> x.

(** *** The accumulator [R] with the trace of its item assignments *)

(** [arr] is the array; [writes] lists, in order, the normalised positions
    that an assignment into the array has stored to. *)
Record traced : Type := Traced { arr : matrix; writes : list (Z * Z) }.

Definition write_cell (st : traced) (rc : Z * Z) (v : C) : traced :=
  Traced (alter (fun row => <[Z.to_nat rc.2 := v]> row) (Z.to_nat rc.1) (arr st))
         (writes st ++ [rc]).

(** [R[i, j] = v] *)
Definition setitem (st : traced) (i j : Z) (v : C) : result traced :=
  r <- py_index (nrows (arr st)) i ;;
  c <- py_index (ncols (arr st)) j ;;
  Ok (write_cell st (r, c) v).

(** The positions of the block of rows [r0, r0+h) and columns [c0, c0+w),
    row by row. *)
Definition block_cells (r0 h c0 w : Z) : list (Z * Z) :=
  r ← seqZ r0 h; (fun c => (r, c)) <$> seqZ c0 w.

(** [R[a:b, c:d] = V] for a 2-D value [V] of the shape of the target: the
    only assignment of this kind in the module stores the solver's
    solution, which has the shape of its right-hand side.  A value of
    another shape is reported as numpy's ValueError (numpy's repetition of
    a value along a dimension of size 1 is not modelled). *)
Definition setblock (st : traced) (a b c d : Z) (V : matrix) : result traced :=
  let rlo := slice_bound (nrows (arr st)) a in
  let rhi := slice_bound (nrows (arr st)) b in
  let clo := slice_bound (ncols (arr st)) c in
  let chi := slice_bound (ncols (arr st)) d in
  let h := (rhi - rlo)%nat in
  let w := (chi - clo)%nat in
  if bool_decide (length <$> V = replicate h w) then
    Ok (foldl (fun s rc =>
                 write_cell s rc (ent V (rc.1 - Z.of_nat rlo) (rc.2 - Z.of_nat clo)))
              st
              (block_cells (Z.of_nat rlo) (Z.of_nat h) (Z.of_nat clo) (Z.of_nat w)))
  else Raise (ValueError "could not broadcast input array").

(** [R[np.diag_indices(n)] = vals] for a 1-D value of length [n]; a value
    of another length is reported as numpy's ValueError. *)
Definition set_diag (st : traced) (n : Z) (vals : list C) : result traced :=
  if bool_decide (Z.of_nat (length vals) = n) then
    for_in (seqZ 0 n)
           (fun k s =>
              r <- py_index (nrows (arr s)) k ;;
              c <- py_index (ncols (arr s)) k ;;
              Ok (write_cell s (r, c) (default czero (vals !! Z.to_nat k))))
           st
  else Raise (ValueError "shape mismatch").
End Arrays.

(** ** The triangular engine, [_sqrtm_triu] *)

(** LAPACK's triangular Sylvester solver, [ztrsyl(Rii, Rjj, S)], returning
    [(x, scale, info)]. *)
Class Lapack `{DT : Dtype} : Type := {
  ztrsyl : matrix -> matrix -> matrix -> matrix * F * Z
}.

(** Lines 54-60: the number of blocks and the two block sizes. *)
Record blocking : Type := Blocking {
  nblocks : Z;
  bsmall : Z;
  nlarge : Z;
  blarge : Z;
  nsmall : Z
}.

Definition blocking_of (n blocksize : Z) : result blocking :=
  if bool_decide (blocksize = 0) then Raise ZeroDivisionError
  else
    let nblocks := Z.max (n / blocksize) 1 in
    let bsmall := n / nblocks in
    let nlarge := n mod nblocks in
    let blarge := bsmall + 1 in
    let nsmall := nblocks - nlarge in
    Ok (Blocking nblocks bsmall nlarge blarge nsmall).

(** Lines 65-70: the index range covered by each block.  The state of the
    loop is the list built so far and the running [start]. *)
Definition append_blocks (count size : Z) (acc : list (Z * Z) * Z)
  : list (Z * Z) * Z :=
  foldl (fun acc _ => (acc.1 ++ [(acc.2, acc.2 + size)], acc.2 + size))
        acc (range_up 0 count).

Definition start_stop_pairs (b : blocking) : list (Z * Z) :=
  (append_blocks (nlarge b) (blarge b)
     (append_blocks (nsmall b) (bsmall b) ([], 0))).1.

(** Lines 54-70, with the consistency check of lines 61-62. *)
Definition block_partition (n blocksize : Z) : result (Z * list (Z * Z)) :=
  b <- blocking_of n blocksize ;;
  if bool_decide (nsmall b * bsmall b + nlarge b * blarge b ≠ n)
  then Raise (Exception "internal inconsistency")
  else Ok (nblocks b, start_stop_pairs b).

Section Engine.
Context `{DT : Dtype} `{LP : !Lapack}.

(** Lines 76-79: one entry of a diagonal block.  The integer [0] that [s]
    starts from enters the arithmetic of the element type as [czero]. *)
Definition within_entry (T : matrix) (j i : Z) (st : traced) : result traced :=
  s <- (if bool_decide (j - i > 1) then
          row <- getrow (arr st) i (i + 1) j ;;
          col <- getcol (arr st) (i + 1) j j ;;
          Ok (vdot row col)
        else Ok czero) ;;
  t <- getitem T i j ;;
  rii <- getitem (arr st) i i ;;
  rjj <- getitem (arr st) j j ;;
  setitem st i j (cdiv (csub t s) (cadd rii rjj)).

(** Lines 73-79: within-block interactions. *)
Definition within_blocks (T : matrix) (pairs : list (Z * Z)) (st : traced)
  : result traced :=
  for_in pairs
    (fun p =>
       for_in (range_up p.1 p.2)
         (fun j => for_in (range_down (j - 1) (p.1 - 1)) (within_entry T j)))
    st.

(** The right-hand side of the Sylvester equation of the block pair
    [(i, j)] (lines 86-89), read from [R]. *)
Definition sylvester_rhs (T R : matrix) (j i istart istop jstart jstop : Z)
  : matrix :=
  let S := getblock T istart istop jstart jstop in
  if bool_decide (j - i > 1) then
    mat_sub S (mat_dot (getblock R istart istop istop jstart)
                       (getblock R istop jstart jstart jstop))
  else S.

(** The value stored for the block pair (lines 94-97): [x * scale]. *)
Definition sylvester_block (T R : matrix) (j i istart istop jstart jstop : Z)
  : matrix :=
  let S := sylvester_rhs T R j i istart istop jstart jstop in
  let Rii := getblock R istart istop istart istop in
  let Rjj := getblock R jstart jstop jstart jstop in
  let xsi := ztrsyl Rii Rjj S in
  mat_scale xsi.1.1 xsi.1.2.

(** Lines 85-97: one pair of blocks. *)
Definition between_pair (T : matrix) (pairs : list (Z * Z))
           (j jstart jstop i : Z) (st : traced) : result traced :=
  ii <- list_getitem pairs i ;;
  let istart := ii.1 in
  let istop := ii.2 in
  setblock st istart istop jstart jstop
           (sylvester_block T (arr st) j i istart istop jstart jstop).

(** Lines 82-97: between-block interactions. *)
Definition between_blocks (T : matrix) (pairs : list (Z * Z)) (nblocks : Z)
           (st : traced) : result traced :=
  for_in (range_up 0 nblocks)
    (fun j st =>
       jj <- list_getitem pairs j ;;
       for_in (range_down (j - 1) (-1)) (between_pair T pairs j jj.1 jj.2) st)
    st.

(** Lines 47-51: [R] zero-filled, then the square roots of the diagonal. *)
Definition seed_diagonal (T : matrix) : result traced :=
  let n := Z.of_nat (ncols T) in
  set_diag (Traced (np_zeros n n) []) n (csqrt <$> np_diag T).

(** The state after the within-block phase (lines 47-79). *)
Definition sqrtm_triu_within (T : matrix) (blocksize : Z) : result traced :=
  R <- seed_diagonal T ;;
  p <- block_partition (Z.of_nat (ncols T)) blocksize ;;
  within_blocks T p.2 R.

(** [_sqrtm_triu], with the trace of the assignments into [R]. *)
Definition sqrtm_triu_traced (T : matrix) (blocksize : Z) : result traced :=
  R <- seed_diagonal T ;;
  p <- block_partition (Z.of_nat (ncols T)) blocksize ;;
  R <- within_blocks T p.2 R ;;
  between_blocks T p.2 p.1 R.

Definition _sqrtm_triu (T : matrix) (blocksize : Z) : result matrix :=
  st <- sqrtm_triu_traced T blocksize ;;
  Ok (arr st).
End Engine.

(** ** The engine with a record of the loop bodies it runs *)

(** One execution of the body of a loop of [_sqrtm_triu]: of line 67
    ([for count, size in ...]), of line 68 ([for i in range(count)], with
    the range it appends), of line 73 ([for start, stop in ...]), of line 74
    ([for j in range(start, stop)]), of line 75
    ([for i in range(j-1, start-1, -1)], lines 76-79), of line 82
    ([for j in range(nblocks)], lines 83-97) and of line 84
    ([for i in range(j-1, -1, -1)], lines 85-97, with the call of the
    solver). *)
Inductive loop_body : Type :=
| SizesBody (count size : Z)
| AppendBody (start stop : Z)
| WithinBlockBody (start stop : Z)
| WithinColumnBody (j : Z)
| WithinEntryBody (j i : Z)
| BetweenColumnBody (j : Z)
| BetweenPairBody (j i : Z).

(** A loop state with the bodies run so far, in order; a body is recorded
    when it is entered. *)
Definition enter {St : Type} (b : loop_body) (s : St * list loop_body)
  : St * list loop_body :=
  (s.1, s.2 ++ [b]).

(** A step on the loop state that contains no loop of its own. *)
Definition on_state {St : Type} (f : St -> result St) (s : St * list loop_body)
  : result (St * list loop_body) :=
  st <- f s.1 ;; Ok (st, s.2).

Definition rmap {A B : Type} (f : A -> B) (m : result A) : result B :=
  a <- m ;; Ok (f a).

(** Lines 68-70 for one [(count, size)] of line 67. *)
Definition append_blocks_logged (count size : Z)
           (acc : (list (Z * Z) * Z) * list loop_body)
  : (list (Z * Z) * Z) * list loop_body :=
  foldl (fun acc _ =>
           let acc := enter (AppendBody acc.1.2 (acc.1.2 + size)) acc in
           ((acc.1.1 ++ [(acc.1.2, acc.1.2 + size)], acc.1.2 + size), acc.2))
        (enter (SizesBody count size) acc) (range_up 0 count).

(** Lines 54-70. *)
Definition block_partition_logged (n blocksize : Z) (log : list loop_body)
  : result ((Z * list (Z * Z)) * list loop_body) :=
  b <- blocking_of n blocksize ;;
  if bool_decide (nsmall b * bsmall b + nlarge b * blarge b ≠ n)
  then Raise (Exception "internal inconsistency")
  else
    let acc := append_blocks_logged (nlarge b) (blarge b)
                 (append_blocks_logged (nsmall b) (bsmall b) (([], 0), log)) in
    Ok ((nblocks b, acc.1.1), acc.2).

Section LoggedEngine.
Context `{DT : Dtype} `{LP : !Lapack}.

(** Lines 73-79. *)
Definition within_blocks_logged (T : matrix) (pairs : list (Z * Z))
           (s : traced * list loop_body) : result (traced * list loop_body) :=
  for_in pairs
    (fun p s =>
       for_in (range_up p.1 p.2)
         (fun j s =>
            for_in (range_down (j - 1) (p.1 - 1))
              (fun i s => on_state (within_entry T j i)
                                   (enter (WithinEntryBody j i) s))
              (enter (WithinColumnBody j) s))
         (enter (WithinBlockBody p.1 p.2) s))
    s.

(** Lines 82-97. *)
Definition between_blocks_logged (T : matrix) (pairs : list (Z * Z))
           (nblocks : Z) (s : traced * list loop_body)
  : result (traced * list loop_body) :=
  for_in (range_up 0 nblocks)
    (fun j s =>
       let s := enter (BetweenColumnBody j) s in
       jj <- list_getitem pairs j ;;
       for_in (range_down (j - 1) (-1))
         (fun i s => on_state (between_pair T pairs j jj.1 jj.2 i)
                              (enter (BetweenPairBody j i) s))
         s)
    s.

(** [_sqrtm_triu], with the trace of the assignments and the record of the
    loop bodies.  The assignment of line 51 is a single numpy statement,
    not a loop of the module. *)
Definition sqrtm_triu_logged (T : matrix) (blocksize : Z)
  : result (traced * list loop_body) :=
  R <- seed_diagonal T ;;
  p <- block_partition_logged (Z.of_nat (ncols T)) blocksize [] ;;
  s <- within_blocks_logged T p.1.2 (R, p.2) ;;
  between_blocks_logged T p.1.2 p.1.1 s.
End LoggedEngine.

(** ** The driver, [sqrtm] *)

(** The argument after [np.asarray]: an array of any number of dimensions,
    its shape and its entries in row-major order. *)
Record ndarray `{DT : Dtype} : Type := Ndarray {
  nd_shape : list Z;
  nd_data : list C
}.
Arguments Ndarray {DT} nd_shape nd_data.

(** A 2-D array seen as an [ndarray]. *)
Definition to_ndarray `{DT : Dtype} (M : matrix) : ndarray :=
  Ndarray [Z.of_nat (nrows M); Z.of_nat (ncols M)] (concat M).

(** The collaborators imported by the module: [schur], [rsf2csf], [norm],
    and the arithmetic of [np.matrix] objects ([*], [.H], [-]). *)
Class Collaborators `{DT : Dtype} : Type := {
  schur : ndarray -> result (matrix * matrix);
  rsf2csf : matrix -> matrix -> result (matrix * matrix);
  mat_mul : matrix -> matrix -> matrix;
  mat_H : matrix -> matrix;
  mat_sub_array : matrix -> ndarray -> matrix;
  norm_fro : ndarray -> result F
}.

(** The names bound in the module's global namespace: the imports of lines
    7-18 and the definitions of lines 9, 21 and 103.  No builtin is called
    [diag]. *)
Definition module_globals : list string :=
  ["division"; "print_function"; "absolute_import"; "__all__"; "np"; "norm";
   "ztrsyl"; "all_mat"; "schur"; "rsf2csf"; "_sqrtm_triu"; "sqrtm"]%string.

(** Evaluating a global name that is not bound raises NameError. *)
Definition lookup_global (name : string) : result unit :=
  if bool_decide (name ∈ module_globals) then Ok tt else Raise (NameError name).

(** What a call returns: [X.A], or the pair [(X.A, arg2)]. *)
Inductive retval `{DT : Dtype} : Type :=
| RetArray (X : matrix)
| RetPair (X : matrix) (errest : F).
Arguments RetArray {DT} X.
Arguments RetPair {DT} X errest.

(** A completed call: the lines printed and the value returned. *)
Record outcome `{DT : Dtype} : Type := Outcome {
  printed : list string;
  value : retval
}.
Arguments Outcome {DT} printed value.

Section Driver.
Context `{DT : Dtype} `{LP : !Lapack} `{CO : !Collaborators}.

(** Lines 136-139: the checks made before anything is computed. *)
Definition sqrtm_check (shape : list Z) (blocksize : Z) : result unit :=
  if bool_decide (length shape ≠ 2%nat) then
    Raise (ValueError "Non-matrix input to matrix function.")
  else if bool_decide (blocksize < 1) then
    Raise (ValueError "The blocksize should be at least 1.")
  else Ok tt.

(** Lines 146-150: the branch taken when [disp] is true. *)
Definition sqrtm_display (T X : matrix) : result outcome :=
  _ <- lookup_global "diag" ;;
  let nzeig := existsb ceq0 (np_diag T) in
  Ok (Outcome
        (if nzeig then ["Matrix is singular and may not have a square root."%string]
         else [])
        (RetArray X)).

(** Lines 151-153: the branch taken when [disp] is false. *)
Definition sqrtm_errest (A : ndarray) (X : matrix) : result outcome :=
  num <- norm_fro (to_ndarray (mat_sub_array (mat_mul X X) A)) ;;
  den <- norm_fro A ;;
  let arg2 := fdiv (fpow num 2) den in
  Ok (Outcome [] (RetPair X arg2)).

(** Lines 140-153: the computation that follows the checks.  [all_mat]
    and [.A] only change the Python type of the arrays. *)
Definition sqrtm_compute (A : ndarray) (disp : bool) (blocksize : Z)
  : result outcome :=
  TZ <- schur A ;;
  TZ <- rsf2csf TZ.1 TZ.2 ;;
  let T := TZ.1 in
  let Z := TZ.2 in
  R <- _sqrtm_triu T blocksize ;;
  let X := mat_mul (mat_mul Z R) (mat_H Z) in
  if disp then sqrtm_display T X else sqrtm_errest A X.

Definition sqrtm (A : ndarray) (disp : bool) (blocksize : Z) : result outcome :=
  _ <- sqrtm_check (nd_shape A) blocksize ;;
  sqrtm_compute A disp blocksize.

(** The residual of the documentation: [||X*X - A||_F / ||A||_F]. *)
Definition relative_residual (A : ndarray) (X : matrix) : result F :=
  num <- norm_fro (to_ndarray (mat_sub_array (mat_mul X X) A)) ;;
  den <- norm_fro A ;;
  Ok (fdiv num den).
End Driver.

(** ** The validation made by [schur] *)

(** Modelled from the spec: [schur] is scipy.linalg.schur
    (scipy/linalg/decomp_schur.py), code of the repository that is not
    under src/; line 140 calls it on the argument itself, before anything
    else is computed.  The spec has the input validated as 2-D and
    square-shaped, a 2-D input that is not square being reported to the
    caller with the invalid-argument condition before any computation.
    This is the check of the shape that the factorisation makes first. *)
Definition schur_shape_check (shape : list Z) : result unit :=
  match shape with
  | [r; c] =>
      if bool_decide (r = c) then Ok tt
      else Raise (ValueError "expected square matrix")
  | _ => Raise (ValueError "expected square matrix")
  end.

(** Modelled from the spec: [schur] as a routine that makes the check
    above and then factorises with [factor], the part of
    scipy/linalg/decomp_schur.py that the spec leaves to its contract. *)
Definition checked_schur `{DT : Dtype}
           (factor : ndarray -> result (matrix * matrix)) (A : ndarray)
  : result (matrix * matrix) :=
  _ <- schur_shape_check (nd_shape A) ;;
  factor A.

(** Modelled from the spec: the collaborators of the module, [schur]
    being the routine above around the factorisation of [CO]. *)
Definition with_checked_schur `{DT : Dtype} (CO : Collaborators)
  : Collaborators := {|
  schur := checked_schur (@schur DT CO);
  rsf2csf := @rsf2csf DT CO;
  mat_mul := @mat_mul DT CO;
  mat_H := @mat_H DT CO;
  mat_sub_array := @mat_sub_array DT CO;
  norm_fro := @norm_fro DT CO
|}.

(** ** An instance with exact integer arithmetic

    The definitions above run on any element type.  This instance takes the
    integers, with floor division and the integer square root, so that the
    engine and the driver can be evaluated on concrete arrays. *)
Module IntModel.

Definition sum_products (u v : list Z) : Z :=
  foldr Z.add 0 (zip_with Z.mul u v).

#[export] Instance int_dtype : Dtype := {|
  C := Z;
  F := Z;
  czero := 0;
  cadd := Z.add;
  csub := Z.sub;
  cdiv := Z.div;
  csqrt := Z.sqrt;
  cscale := Z.mul;
  ceq0 := Z.eqb 0;
  vdot := sum_products;
  mdot := sum_products;
  fpow := Z.pow;
  fdiv := Z.div
|}.

(** A solver for the equation [Rii X + X Rjj = S] that uses the diagonals
    of [Rii] and [Rjj] only, with scale 1. *)
Definition diag_solver (Rii Rjj S : matrix) : matrix * F * Z :=
  (imap (fun r row =>
           imap (fun c s =>
                   s / (ent Rii (Z.of_nat r) (Z.of_nat r)
                        + ent Rjj (Z.of_nat c) (Z.of_nat c)))
                row)
        S,
   1, 0).

#[export] Instance int_lapack : Lapack := {| ztrsyl := diag_solver |}.

(** [rows] rows of [k] entries each from a flat list. *)
Fixpoint chunks (k rows : nat) (l : list Z) : list (list Z) :=
  match rows with
  | O => []
  | S rows' => take k l :: chunks k rows' (drop k l)
  end.

Definition as_matrix (A : ndarray) : matrix :=
  match nd_shape A with
  | [r; c] => chunks (Z.to_nat c) (Z.to_nat r) (nd_data A)
  | _ => []
  end.

Definition identity (n : nat) : matrix :=
  (fun r => (fun c => if bool_decide (r = c) then 1 else 0) <$> seq 0 n)
    <$> seq 0 n.

(** A Schur factorisation for arrays that are upper triangular already:
    [T = A], [Z = I]; like [scipy.linalg.schur], it refuses an array that
    is not square. *)
Definition trivial_schur (A : ndarray) : result (matrix * matrix) :=
  match nd_shape A with
  | [r; c] =>
      if bool_decide (r = c) then Ok (as_matrix A, identity (Z.to_nat r))
      else Raise (ValueError "expected square matrix")
  | _ => Raise (ValueError "expected square matrix")
  end.

Definition transpose (M : matrix) : matrix :=
  (fun c => column M c) <$> seqZ 0 (Z.of_nat (ncols M)).

Definition frobenius (A : ndarray) : result F :=
  Ok (Z.sqrt (foldr Z.add 0 ((fun x => x * x) <$> nd_data A))).

#[export] Instance int_collaborators : Collaborators := {|
  schur := trivial_schur;
  rsf2csf := fun T Z => Ok (T, Z);
  mat_mul := mat_dot;
  mat_H := transpose;
  mat_sub_array := fun M A => mat_sub M (as_matrix A);
  norm_fro := frobenius
|}.

Definition T4 : matrix :=
  [[4; 6; 2; 8];
   [0; 9; 5; 1];
   [0; 0; 16; 7];
   [0; 0; 0; 25]].

(** [[4, 0], [0, 9]], the nilpotent [[0, 1], [0, 0]], and [[8]]. *)
Definition A_diag : ndarray := Ndarray [2; 2] [4; 0; 0; 9].
Definition A_nilpotent : ndarray := Ndarray [2; 2] [0; 1; 0; 0].
Definition A_eight : ndarray := Ndarray [1; 1] [8].

(** The square root found for [[8]] and what the driver returns for it
    when [disp] is false. *)
Definition X_eight : matrix := [[2]].
Definition out_eight : outcome := Outcome [] (RetPair X_eight 2).

(** The Schur factors and the square root of [[4, 0], [0, 9]]. *)
Definition TZ_diag : matrix * matrix := ([[4; 0]; [0; 9]], [[1; 0]; [0; 1]]).
Definition R_diag : matrix := [[2; 0]; [0; 3]].

(** A 1-D array of three entries. *)
Definition A_vector : ndarray := Ndarray [3] [1; 2; 3].
End IntModel.

(** ** Further inputs for the integer instance *)
Module IntExamples.
Import IntModel.

(** [T4] with entries below the diagonal that the engine should not read. *)
Definition T4_lower : matrix :=
  [[4; 6; 2; 8];
   [7; 9; 5; 1];
   [3; 1; 16; 7];
   [5; 2; 4; 25]].

(** An upper triangular input on which every division of the recurrence is
    exact. *)
Definition T_exact : matrix :=
  [[4; 10; 28];
   [0; 9; 14];
   [0; 0; 16]].

(** A diagonal input. *)
Definition T_diagonal : matrix :=
  [[4; 0; 0];
   [0; 9; 0];
   [0; 0; 16]].

(** The solver of [IntModel] reporting a failure through [info]. *)
Definition failing_info_solver (Rii Rjj S : matrix) : matrix * F * Z :=
  ((diag_solver Rii Rjj S).1, 1).

Definition failing_info_lapack : Lapack := {| ztrsyl := failing_info_solver |}.

(** The Schur factors of [[8]]. *)
Definition TZ_eight : matrix * matrix := ([[8]], [[1]]).

(** A 1 x 1 input. *)
Definition T_single : matrix := [[9]].

(** A 2-D array of two rows and three columns. *)
Definition A_wide : ndarray := Ndarray [2; 3] [1; 2; 3; 4; 5; 6].
End IntExamples.


(** ** Vocabulary of the statements *)

(** The length of a half-open range. *)
Definition block_size (p : Z * Z) : Z := p.2 - p.1.

(** [chain a l b]: the ranges of [l] follow one another from [a] to [b],
    each starting where the previous one stops. *)
Fixpoint chain (a : Z) (l : list (Z * Z)) (b : Z) : Prop :=
  match l with
  | [] => a = b
  | p :: l' => p.1 = a ∧ a <= p.2 ∧ chain p.2 l' b
  end.

(** The arguments that the spec has rejected: an input that is not 2-D, a
    2-D input that is not square, a blocksize below 1. *)
Definition invalid_argument (shape : list Z) (blocksize : Z) : Prop :=
  length shape ≠ 2%nat ∨ (∃ r c, shape = [r; c] ∧ r ≠ c) ∨ blocksize < 1.

(** The loop bodies run by the within-block phase on a partition and by
    the between-block phase on [nblocks] blocks, in order. *)
Definition within_bodies (pairs : list (Z * Z)) : list loop_body :=
  p ← pairs;
  WithinBlockBody p.1 p.2
    :: (j ← range_up p.1 p.2;
        WithinColumnBody j
          :: (WithinEntryBody j <$> range_down (j - 1) (p.1 - 1))).

Definition between_bodies (nblocks : Z) : list loop_body :=
  j ← range_up 0 nblocks;
  BetweenColumnBody j :: (BetweenPairBody j <$> range_down (j - 1) (-1)).

(** The exceptions that indexing and assignment can raise. *)
Definition index_or_value_error (e : exn) : Prop :=
  e = IndexError ∨ ∃ msg, e = ValueError msg.

(** The ranges produced by [count] passes of the loop of lines 68-70. *)
Definition blocks_from (start size count : Z) : list (Z * Z) :=
  (fun k => (start + k * size, start + (k + 1) * size)) <$> seqZ 0 count.

Section Vocabulary.
Context `{DT : Dtype} `{LP : !Lapack}.

(** An [n] by [n] array. *)
Definition square (n : Z) (M : matrix) : Prop :=
  Z.of_nat (length M) = n ∧ Forall (fun row => Z.of_nat (length row) = n) M.

(** The array of the entries [f r c] for [h] rows from [r0] and [w]
    columns from [c0]. *)
Definition table (f : Z -> Z -> C) (r0 h c0 w : Z) : matrix :=
  (fun r => (fun c => f r c) <$> seqZ c0 w) <$> seqZ r0 h.

(** The entries [M[i, a], ..., M[i, b-1]] and [M[a, j], ..., M[b-1, j]]. *)
Definition row_segment (M : matrix) (i a b : Z) : list C :=
  (fun k => ent M i k) <$> seqZ a (b - a).
Definition col_segment (M : matrix) (a b j : Z) : list C :=
  (fun k => ent M k j) <$> seqZ a (b - a).

(** The value of the within-block recurrence at [(i, j)], read from [R]:
    [(T[i,j] - s) / (R[i,i] + R[j,j])] with [s] the inner product of
    [R[i, i+1:j]] and [R[i+1:j, j]], or zero when [j - i <= 1]. *)
Definition within_value (T R : matrix) (i j : Z) : C :=
  let s := if bool_decide (j - i > 1)
           then vdot (row_segment R i (i + 1) j) (col_segment R (i + 1) j j)
           else czero in
  cdiv (csub (ent T i j) s) (cadd (ent R i i) (ent R j j)).

(** What the within-block phase establishes on [R]: the diagonal holds
    the square roots of the diagonal of [T], and every entry [(i, j)] with
    [start <= i < j < stop] of a block [[start, stop)] satisfies
    [R[i,j] = (T[i,j] - s) / (R[i,i] + R[j,j])], where [s] is the inner
    product of [R[i, i+1:j]] and [R[i+1:j, j]], and zero when
    [j - i <= 1]. *)
Definition within_recurrence (T : matrix) (n : Z) (pairs : list (Z * Z))
           (R : matrix) : Prop :=
  (∀ k, 0 <= k < n → ent R k k = csqrt (ent T k k))
  ∧ (∀ start stop i j,
       (start, stop) ∈ pairs → start <= i → i < j → j < stop →
       ent R i j =
         cdiv (csub (ent T i j)
                    (if bool_decide (j - i > 1)
                     then vdot (row_segment R i (i + 1) j)
                               (col_segment R (i + 1) j j)
                     else czero))
              (cadd (ent R i i) (ent R j j))).

(** Position [i] lies in the block of index [p]. *)
Definition in_block (pairs : list (Z * Z)) (p : nat) (i : Z) : Prop :=
  ∃ r, pairs !! p = Some r ∧ r.1 <= i < r.2.

(** The positions already assigned at some point of the engine: the
    diagonal, the entries [W] inside diagonal blocks and the blocks of the
    pairs [B] of block indices. *)
Definition done_cell (n : Z) (pairs : list (Z * Z))
           (W : Z -> Z -> Prop) (B : nat -> nat -> Prop) (i j : Z) : Prop :=
  (i = j ∧ 0 <= i < n) ∨ W i j
  ∨ ∃ p q, B p q ∧ in_block pairs p i ∧ in_block pairs q j.

(** [M] has the entries of the accumulator wherever it has been assigned
    and below the diagonal. *)
Definition agrees (n : Z) (st : traced) (M : matrix) : Prop :=
  ∀ i j, 0 <= i < n → 0 <= j < n → (i, j) ∈ writes st ∨ j < i →
         ent M i j = ent (arr st) i j.

(** What the assigned entries of [M] satisfy. *)
Definition facts (T : matrix) (n : Z) (pairs : list (Z * Z))
           (W : Z -> Z -> Prop) (B : nat -> nat -> Prop) (M : matrix) : Prop :=
  (∀ k, 0 <= k < n → ent M k k = csqrt (ent T k k)) ∧
  (∀ i j, W i j → ent M i j = within_value T M i j) ∧
  (∀ p q r r', B p q → pairs !! p = Some r → pairs !! q = Some r' →
     getblock M r.1 r.2 r'.1 r'.2 =
       sylvester_block T M (Z.of_nat q) (Z.of_nat p) r.1 r.2 r'.1 r'.2).

(** The invariant of the two recurrence phases. *)
Definition engine_inv (T : matrix) (n : Z) (pairs : list (Z * Z))
           (W : Z -> Z -> Prop) (B : nat -> nat -> Prop) (st : traced) : Prop :=
  square n (arr st) ∧
  NoDup (writes st) ∧
  (∀ i j, W i j → i < j ∧ ∃ p, in_block pairs p i ∧ in_block pairs p j) ∧
  (∀ p q, B p q → (p < q)%nat) ∧
  (∀ i j, (i, j) ∈ writes st ↔ done_cell n pairs W B i j) ∧
  (∀ i j, 0 <= i < n → 0 <= j < n → (i, j) ∉ writes st →
          ent (arr st) i j = czero) ∧
  (∀ M, square n M → agrees n st M → facts T n pairs W B M).

(** The contract of the Sylvester solver that the engine relies on: the
    solution has the shape of the right-hand side. *)
Definition solver_keeps_shape : Prop :=
  ∀ Rii Rjj S : matrix, length <$> (ztrsyl Rii Rjj S).1.1 = length <$> S.

(** The entries inside diagonal blocks assigned once the blocks before
    [P] are complete and, in block [P], the columns before [jcur] and the
    rows below [icur] of column [jcur]. *)
Definition within_done (pairs : list (Z * Z)) (P : nat) (jcur icur : Z)
           (i j : Z) : Prop :=
  i < j ∧ ∃ p, in_block pairs p i ∧ in_block pairs p j
               ∧ ((p < P)%nat ∨ (p = P ∧ (j < jcur ∨ (j = jcur ∧ icur < i)))).

(** The pairs of blocks assigned once the block columns before [Q] are
    complete and, in block column [Q], the block rows below [icur]. *)
Definition between_done (Q : nat) (icur : Z) (p q : nat) : Prop :=
  (p < q)%nat ∧ ((q < Q)%nat ∨ (q = Q ∧ icur < Z.of_nat p)).

(** The range of the block of index [k], as [start_stop_pairs[k]]. *)
Definition block_range (pairs : list (Z * Z)) (k : Z) : Z * Z :=
  default (0, 0) (pairs !! Z.to_nat k).

(** The positions assigned by each phase, in the order of the loops. *)
Definition diag_trace (n : Z) : list (Z * Z) := (fun k => (k, k)) <$> seqZ 0 n.

Definition within_trace (pairs : list (Z * Z)) : list (Z * Z) :=
  p ← pairs; j ← range_up p.1 p.2;
  (fun i => (i, j)) <$> range_down (j - 1) (p.1 - 1).

Definition pair_cells (pairs : list (Z * Z)) (j i : Z) : list (Z * Z) :=
  let ri := block_range pairs i in
  let rj := block_range pairs j in
  block_cells ri.1 (ri.2 - ri.1) rj.1 (rj.2 - rj.1).

(** The pairs of block indices [(j, i)] in the order of lines 82-84. *)
Definition between_order (nblocks : Z) : list (Z * Z) :=
  j ← range_up 0 nblocks; (fun i => (j, i)) <$> range_down (j - 1) (-1).

Definition between_trace (pairs : list (Z * Z)) (nblocks : Z) : list (Z * Z) :=
  j ← range_up 0 nblocks; i ← range_down (j - 1) (-1); pair_cells pairs j i.
End Vocabulary.

(** ** Loops, ranges and slices *)

Lemma rbind_Ok {A B : Type} (m : result A) (k : A -> result B) (b : B) :
  rbind m k = Ok b ↔ ∃ a, m = Ok a ∧ k a = Ok b.
Proof.
  destruct m as [a|e]; simpl; split.
  - eauto.
  - intros (a' & Ha & Hk). by simplify_eq.
  - done.
  - intros (a' & Ha & _). done.
Qed.

Lemma rbind_Raise {A B : Type} (m : result A) (k : A -> result B) (e : exn) :
  rbind m k = Raise e ↔ m = Raise e ∨ ∃ a, m = Ok a ∧ k a = Raise e.
Proof.
  destruct m as [a|e']; simpl; split.
  - eauto.
  - intros [?|(a' & Ha & Hk)]; [done|by simplify_eq].
  - intros [= ->]. by left.
  - intros [[= ->]|(a' & Ha & _)]; done.
Qed.

(** An invariant indexed by the number of elements already processed. *)
Lemma for_in_invariant {A St : Type} (I : nat -> St -> Prop) (xs : list A)
      (body : A -> St -> result St) (s0 : St) :
  I 0%nat s0 →
  (∀ k x s, xs !! k = Some x → I k s → ∃ s', body x s = Ok s' ∧ I (S k) s') →
  ∃ sf, for_in xs body s0 = Ok sf ∧ I (length xs) sf.
Proof.
  revert I s0. induction xs as [|x xs IH]; intros I s0 H0 Hstep; simpl.
  - eauto.
  - destruct (Hstep 0%nat x s0) as (s1 & -> & H1); [done..|].
    apply (IH (fun k => I (S k))); [done|].
    intros k y s Hk HI. apply (Hstep (S k)); done.
Qed.

(** A failure of a loop is a failure of one of its iterations. *)
Lemma for_in_Raise {A St : Type} (xs : list A) (body : A -> St -> result St)
      (s : St) (e : exn) :
  for_in xs body s = Raise e → ∃ x s', x ∈ xs ∧ body x s' = Raise e.
Proof.
  revert s. induction xs as [|x xs IH]; intros s; simpl; [done|].
  destruct (body x s) as [s1|e1] eqn:Hb.
  - intros H. destruct (IH _ H) as (y & s' & Hy & Hr).
    exists y, s'. split; [by right|done].
  - intros [= ->]. exists x, s. split; [by left|done].
Qed.

Lemma length_range_up (a b : Z) : length (range_up a b) = Z.to_nat (b - a).
Proof. unfold range_up. by rewrite length_seqZ. Qed.

Lemma lookup_range_up (a b : Z) (k : nat) (x : Z) :
  range_up a b !! k = Some x ↔ x = a + Z.of_nat k ∧ a + Z.of_nat k < b.
Proof. unfold range_up. rewrite lookup_seqZ. lia. Qed.

Lemma elem_of_range_up (a b x : Z) : x ∈ range_up a b ↔ a <= x < b.
Proof. unfold range_up. rewrite elem_of_seqZ. lia. Qed.

Lemma length_range_down (a b : Z) : length (range_down a b) = Z.to_nat (a - b).
Proof. unfold range_down. by rewrite length_reverse, length_seqZ. Qed.

Lemma lookup_range_down (a b : Z) (k : nat) (x : Z) :
  range_down a b !! k = Some x ↔ x = a - Z.of_nat k ∧ b < a - Z.of_nat k.
Proof.
  unfold range_down. rewrite reverse_lookup_Some, length_seqZ, lookup_seqZ. lia.
Qed.

Lemma elem_of_range_down (a b x : Z) : x ∈ range_down a b ↔ b < x <= a.
Proof. unfold range_down. rewrite elem_of_reverse, elem_of_seqZ. lia. Qed.

Lemma py_index_in_range (len : nat) (i : Z) :
  0 <= i < Z.of_nat len → py_index len i = Ok i.
Proof. intros H. unfold py_index. by rewrite bool_decide_eq_true_2. Qed.

Lemma py_index_Raise (len : nat) (i : Z) (e : exn) :
  py_index len i = Raise e → e = IndexError.
Proof. unfold py_index. repeat case_bool_decide; congruence. Qed.

Lemma slice_bound_in_range (len : nat) (i : Z) :
  0 <= i <= Z.of_nat len → slice_bound len i = Z.to_nat i.
Proof.
  intros H. unfold slice_bound. rewrite bool_decide_eq_false_2 by lia.
  f_equal. lia.
Qed.

(** A slice with bounds inside the list, as the table of its entries. *)
Lemma py_slice_lookup {A : Type} (a b : Z) (l : list A) (k : nat) :
  0 <= a <= Z.of_nat (length l) → 0 <= b <= Z.of_nat (length l) →
  py_slice a b l !! k =
    if bool_decide (a + Z.of_nat k < b) then l !! Z.to_nat (a + Z.of_nat k) else None.
Proof.
  intros Ha Hb. unfold py_slice.
  rewrite !slice_bound_in_range by done.
  case_bool_decide as Hk.
  - rewrite lookup_take_lt by lia. rewrite lookup_drop. f_equal. lia.
  - apply lookup_ge_None. rewrite length_take, length_drop. lia.
Qed.

Lemma py_slice_table {A : Type} (d : A) (a b : Z) (l : list A) :
  0 <= a <= Z.of_nat (length l) → 0 <= b <= Z.of_nat (length l) →
  py_slice a b l = (fun k => default d (l !! Z.to_nat k)) <$> seqZ a (b - a).
Proof.
  intros Ha Hb. apply list_eq. intros k.
  rewrite py_slice_lookup, list_lookup_fmap by done.
  case_bool_decide as Hk.
  - rewrite lookup_seqZ_lt by lia. simpl.
    destruct (lookup_lt_is_Some_2 l (Z.to_nat (a + Z.of_nat k))) as [x Hx]; [lia|].
    by rewrite Hx.
  - by rewrite lookup_seqZ_ge by lia.
Qed.

Lemma list_getitem_in_range {A : Type} (l : list A) (i : Z) (x : A) :
  0 <= i → l !! Z.to_nat i = Some x → list_getitem l i = Ok x.
Proof.
  intros Hi Hx. unfold list_getitem.
  rewrite py_index_in_range; [simpl; by rewrite Hx|].
  apply lookup_lt_Some in Hx. lia.
Qed.

Lemma list_getitem_Raise {A : Type} (l : list A) (i : Z) (e : exn) :
  list_getitem l i = Raise e → e = IndexError.
Proof.
  unfold list_getitem. intros [H|(k & _ & H)]%rbind_Raise.
  - by apply py_index_Raise in H.
  - destruct (l !! Z.to_nat k); congruence.
Qed.

(** ** Chains of ranges *)

Lemma chain_app (a m b : Z) (l1 l2 : list (Z * Z)) :
  chain a l1 m → chain m l2 b → chain a (l1 ++ l2) b.
Proof.
  revert a. induction l1 as [|p l1 IH]; intros a; simpl.
  - by intros ->.
  - intros (? & ? & ?) ?. eauto.
Qed.

Lemma chain_bounds (a b : Z) (l : list (Z * Z)) (k : nat) (p : Z * Z) :
  chain a l b → l !! k = Some p → a <= p.1 ∧ p.1 <= p.2 ∧ p.2 <= b.
Proof.
  revert a k. induction l as [|q l IH]; intros a k; simpl; [done|].
  intros (Hq & Hle & Hc) Hk. destruct k as [|k]; simpl in Hk.
  - simplify_eq. split; [lia|]. split; [lia|].
    clear IH. revert Hc. generalize (p.2). clear.
    induction l as [|q l IH]; simpl; intros c; [lia|].
    intros (? & ? & Hc). specialize (IH _ Hc). lia.
  - destruct (IH _ _ Hc Hk). lia.
Qed.

Lemma chain_ordered (a b : Z) (l : list (Z * Z)) (k k' : nat) (p p' : Z * Z) :
  chain a l b → (k < k')%nat → l !! k = Some p → l !! k' = Some p' →
  p.2 <= p'.1.
Proof.
  revert a k k'. induction l as [|q l IH]; intros a k k'; simpl; [done|].
  intros (Hq & Hle & Hc) Hlt Hk Hk'.
  destruct k' as [|k']; [lia|]. destruct k as [|k]; simpl in *.
  - simplify_eq. by destruct (chain_bounds _ _ _ _ _ Hc Hk').
  - apply (IH _ k k' Hc); [lia|done..].
Qed.

Lemma chain_next (a b : Z) (l : list (Z * Z)) (k : nat) (p p' : Z * Z) :
  chain a l b → l !! k = Some p → l !! S k = Some p' → p'.1 = p.2.
Proof.
  revert a k. induction l as [|q l IH]; intros a k; simpl; [done|].
  intros (Hq & Hle & Hc) Hk Hk'. destruct k as [|k]; simpl in *.
  - simplify_eq. destruct l as [|q' l]; simpl in *; [done|].
    simplify_eq. by destruct Hc.
  - by apply (IH _ k Hc).
Qed.

Lemma chain_last (a b : Z) (l : list (Z * Z)) (p : Z * Z) :
  chain a l b → last l = Some p → p.2 = b.
Proof.
  revert a. induction l as [|q l IH]; intros a; simpl; [done|].
  intros (Hq & Hle & Hc). destruct l as [|q' l].
  - simpl in *. intros [= ->]. done.
  - intros Hl. by apply (IH _ Hc).
Qed.

Lemma chain_cover (a b x : Z) (l : list (Z * Z)) :
  chain a l b → a <= x < b → ∃ k p, l !! k = Some p ∧ p.1 <= x < p.2.
Proof.
  revert a. induction l as [|q l IH]; intros a; simpl; [lia|].
  intros (Hq & Hle & Hc) Hx.
  destruct (decide (x < q.2)) as [Hlt|Hge].
  - exists 0%nat, q. split; [done|lia].
  - destruct (IH _ Hc) as (k & p & Hk & Hp); [lia|].
    exists (S k), p. done.
Qed.

(** A position lies in at most one range of a chain. *)
Lemma chain_unique (a b x : Z) (l : list (Z * Z)) (k k' : nat) (p p' : Z * Z) :
  chain a l b → l !! k = Some p → l !! k' = Some p' →
  p.1 <= x < p.2 → p'.1 <= x < p'.2 → k = k'.
Proof.
  intros Hc Hk Hk' Hx Hx'.
  destruct (Nat.lt_trichotomy k k') as [Hlt|[->|Hlt]]; [|done|].
  - pose proof (chain_ordered _ _ _ _ _ _ _ Hc Hlt Hk Hk'). lia.
  - pose proof (chain_ordered _ _ _ _ _ _ _ Hc Hlt Hk' Hk). lia.
Qed.

Lemma chain_sum (a b : Z) (l : list (Z * Z)) :
  chain a l b → foldr Z.add 0 (block_size <$> l) = b - a.
Proof.
  revert a. induction l as [|q l IH]; intros a; [simpl; lia|].
  intros (Hq & Hle & Hc). rewrite fmap_cons. cbn [foldr].
  rewrite (IH _ Hc). unfold block_size. lia.
Qed.

(** ** The block partition *)

Lemma blocks_from_S (start size : Z) (m : nat) :
  blocks_from start size (Z.of_nat (S m)) =
    blocks_from start size (Z.of_nat m)
      ++ [(start + Z.of_nat m * size, start + (Z.of_nat m + 1) * size)].
Proof. unfold blocks_from. by rewrite seqZ_S, fmap_app. Qed.

Lemma length_blocks_from (start size count : Z) :
  length (blocks_from start size count) = Z.to_nat count.
Proof. unfold blocks_from. by rewrite length_fmap, length_seqZ. Qed.

Lemma append_blocks_closed (count size : Z) (acc : list (Z * Z)) (start : Z) :
  append_blocks count size (acc, start) =
    (acc ++ blocks_from start size count, start + Z.max 0 count * size).
Proof.
  unfold append_blocks, range_up. rewrite Z.sub_0_r.
  destruct (decide (count <= 0)) as [Hle|Hgt].
  { unfold blocks_from. rewrite seqZ_nil by done. simpl.
    rewrite app_nil_r. f_equal. lia. }
  replace (Z.max 0 count) with count by lia.
  rewrite <- (Z2Nat.id count) by lia. generalize (Z.to_nat count). clear.
  intros m. induction m as [|m IH].
  - unfold blocks_from. rewrite seqZ_nil by done. simpl.
    rewrite app_nil_r. f_equal. lia.
  - rewrite seqZ_S, foldl_app, IH, blocks_from_S. cbn [foldl fst snd].
    rewrite <- app_assoc.
    replace (start + Z.of_nat m * size + size)
      with (start + (Z.of_nat m + 1) * size) by lia.
    replace (Z.of_nat (S m)) with (Z.of_nat m + 1) by lia. done.
Qed.

Lemma chain_blocks_from (start size count : Z) :
  0 <= size →
  chain start (blocks_from start size count) (start + Z.max 0 count * size).
Proof.
  intros Hs. destruct (decide (count <= 0)) as [Hle|Hgt].
  { unfold blocks_from. rewrite seqZ_nil by done. simpl. lia. }
  replace (Z.max 0 count) with count by lia.
  rewrite <- (Z2Nat.id count) by lia. generalize (Z.to_nat count). clear Hgt.
  intros m. induction m as [|m IH].
  - unfold blocks_from. rewrite seqZ_nil by done. simpl. lia.
  - rewrite blocks_from_S. eapply chain_app; [exact IH|].
    simpl. split; [done|]. split; [nia|lia].
Qed.

Lemma Forall_blocks_from_size (start size count : Z) :
  Forall (fun p => block_size p = size) (blocks_from start size count).
Proof.
  unfold blocks_from. apply Forall_fmap, Forall_forall. intros k _.
  unfold block_size. simpl. lia.
Qed.

Lemma start_stop_pairs_closed (b : blocking) :
  start_stop_pairs b =
    blocks_from 0 (bsmall b) (nsmall b)
    ++ blocks_from (Z.max 0 (nsmall b) * bsmall b) (blarge b) (nlarge b).
Proof.
  unfold start_stop_pairs. rewrite !append_blocks_closed. simpl.
  by rewrite Z.add_0_l.
Qed.

(** The arithmetic of lines 54-60 for a nonnegative [n]. *)
Lemma blocking_of_facts (n blocksize : Z) :
  0 <= n → blocksize ≠ 0 →
  ∃ b, blocking_of n blocksize = Ok b ∧
       nblocks b = Z.max (n / blocksize) 1 ∧
       bsmall b = n / nblocks b ∧ nlarge b = n mod nblocks b ∧
       blarge b = bsmall b + 1 ∧ nsmall b = nblocks b - nlarge b ∧
       1 <= nblocks b ∧ 0 <= bsmall b ∧ 0 <= nlarge b < nblocks b ∧
       nsmall b * bsmall b + nlarge b * blarge b = n.
Proof.
  intros Hn Hb. unfold blocking_of. rewrite bool_decide_eq_false_2 by done.
  eexists. split; [done|]. simpl.
  set (nb := Z.max (n / blocksize) 1).
  assert (1 <= nb) by lia.
  pose proof (Z.div_mod n nb ltac:(lia)) as Hdm.
  pose proof (Z.mod_pos_bound n nb ltac:(lia)) as Hmod.
  pose proof (Z.div_pos n nb Hn ltac:(lia)) as Hdiv.
  repeat split; try done; try lia.
Qed.

Lemma block_partition_chain (n blocksize : Z) :
  0 <= n → blocksize ≠ 0 →
  ∃ pairs, block_partition n blocksize = Ok (Z.max (n / blocksize) 1, pairs) ∧
           Z.of_nat (length pairs) = Z.max (n / blocksize) 1 ∧
           chain 0 pairs n.
Proof.
  intros Hn Hb.
  destruct (blocking_of_facts n blocksize Hn Hb)
    as (b & Hbl & Hnb & Hbs & Hnl & Hbl' & Hns & H1 & Hbs0 & Hnl0 & Hsum).
  unfold block_partition. rewrite Hbl. simpl.
  rewrite bool_decide_eq_false_2 by (intros Hne; apply Hne, Hsum).
  rewrite Hnb. eexists. split; [done|].
  rewrite start_stop_pairs_closed. split.
  - rewrite length_app, !length_blocks_from. lia.
  - eapply chain_app; [apply chain_blocks_from; lia|].
    assert (n = Z.max 0 (nsmall b) * bsmall b + Z.max 0 (nlarge b) * blarge b)
      as Hn' by (rewrite !Z.max_r by lia; lia).
    rewrite Hn' at 1. apply chain_blocks_from. lia.
Qed.

(** ** Square arrays: reads, slices and writes *)

Section ArrayFacts.
Context `{DT : Dtype}.
Implicit Types (M : matrix) (st : traced).

Lemma square_nrows n M : square n M → Z.of_nat (nrows M) = n.
Proof. by intros [? _]. Qed.

Lemma square_ncols n M : square n M → Z.of_nat (ncols M) = n.
Proof.
  intros [Hl Hr]. destruct M as [|r M]; simpl in *; [done|].
  by inversion Hr.
Qed.

Lemma square_nonneg n M : square n M → 0 <= n.
Proof. intros [<- _]. lia. Qed.

Lemma square_lookup n M i :
  square n M → 0 <= i < n →
  ∃ row, M !! Z.to_nat i = Some row ∧ Z.of_nat (length row) = n.
Proof.
  intros [Hl Hr] Hi.
  destruct (lookup_lt_is_Some_2 M (Z.to_nat i)) as [row Hrow]; [lia|].
  exists row. split; [done|].
  by apply (proj1 (Forall_lookup _ _) Hr (Z.to_nat i)).
Qed.

Lemma ent_lookup M i j row :
  M !! Z.to_nat i = Some row → ent M i j = default czero (row !! Z.to_nat j).
Proof. intros H. unfold ent. by rewrite H. Qed.

Lemma row_of_lookup M i row : M !! Z.to_nat i = Some row → row_of M i = row.
Proof. intros H. unfold row_of. by rewrite H. Qed.

Lemma getitem_square n M i j :
  square n M → 0 <= i < n → 0 <= j < n → getitem M i j = Ok (ent M i j).
Proof.
  intros Hsq Hi Hj. unfold getitem.
  rewrite py_index_in_range by (rewrite (square_nrows n); done). simpl.
  rewrite py_index_in_range by (rewrite (square_ncols n); done). done.
Qed.

Lemma getrow_square n M i a b :
  square n M → 0 <= i < n → 0 <= a <= n → 0 <= b <= n →
  getrow M i a b = Ok (row_segment M i a b).
Proof.
  intros Hsq Hi Ha Hb. unfold getrow.
  rewrite py_index_in_range by (rewrite (square_nrows n); done). simpl.
  destruct (square_lookup n M i Hsq Hi) as (row & Hrow & Hlen).
  rewrite (row_of_lookup _ _ _ Hrow).
  rewrite (py_slice_table czero) by lia.
  unfold row_segment. f_equal. apply list_fmap_ext. intros _ k _.
  by rewrite (ent_lookup _ _ _ _ Hrow).
Qed.

Lemma getcol_square n M a b j :
  square n M → 0 <= j < n → 0 <= a <= n → 0 <= b <= n →
  getcol M a b j = Ok (col_segment M a b j).
Proof.
  intros Hsq Hj Ha Hb. unfold getcol.
  rewrite py_index_in_range by (rewrite (square_ncols n); done). simpl.
  f_equal. apply list_eq. intros k.
  rewrite list_lookup_fmap, py_slice_lookup by (destruct Hsq; lia).
  unfold col_segment. rewrite list_lookup_fmap.
  case_bool_decide as Hk.
  - rewrite lookup_seqZ_lt by lia. simpl.
    destruct (square_lookup n M (a + Z.of_nat k) Hsq) as (row & Hrow & _); [lia|].
    rewrite Hrow. simpl. by rewrite (ent_lookup _ _ _ _ Hrow).
  - by rewrite lookup_seqZ_ge by lia.
Qed.

Lemma getblock_square n M a b c d :
  square n M → 0 <= a <= n → 0 <= b <= n → 0 <= c <= n → 0 <= d <= n →
  getblock M a b c d = table (ent M) a (b - a) c (d - c).
Proof.
  intros Hsq Ha Hb Hc Hd. unfold getblock, table. apply list_eq. intros k.
  rewrite !list_lookup_fmap, py_slice_lookup by (destruct Hsq; lia).
  case_bool_decide as Hk.
  - rewrite lookup_seqZ_lt by lia. simpl.
    destruct (square_lookup n M (a + Z.of_nat k) Hsq) as (row & Hrow & Hlen); [lia|].
    rewrite Hrow. simpl. f_equal.
    rewrite (py_slice_table czero) by lia.
    apply list_fmap_ext. intros _ x _. by rewrite (ent_lookup _ _ _ _ Hrow).
  - by rewrite lookup_seqZ_ge by lia.
Qed.

(** Two square arrays with the same entries on a rectangle have the same
    slice there. *)
Lemma table_ext (f g : Z -> Z -> C) r0 h c0 w :
  (∀ r c, r0 <= r < r0 + h → c0 <= c < c0 + w → f r c = g r c) →
  table f r0 h c0 w = table g r0 h c0 w.
Proof.
  intros H. unfold table. apply list_eq. intros k.
  rewrite !list_lookup_fmap.
  destruct (seqZ r0 h !! k) as [r|] eqn:Hr; simpl; [|done].
  apply lookup_seqZ in Hr as [-> Hk]. f_equal.
  apply list_eq. intros k'. rewrite !list_lookup_fmap.
  destruct (seqZ c0 w !! k') as [c|] eqn:Hc; simpl; [|done].
  apply lookup_seqZ in Hc as [-> Hk']. f_equal. apply H; lia.
Qed.

Lemma square_np_zeros n : 0 <= n → square n (np_zeros n n).
Proof.
  intros Hn. unfold np_zeros. split.
  - rewrite length_replicate. lia.
  - apply Forall_replicate. rewrite length_replicate. lia.
Qed.

Lemma ent_np_zeros n m i j : ent (np_zeros n m) i j = czero.
Proof.
  unfold ent, np_zeros.
  destruct (replicate (Z.to_nat n) (replicate (Z.to_nat m) czero) !! Z.to_nat i)
    as [row|] eqn:Hrow; simpl; [|done].
  apply lookup_replicate in Hrow as [-> _].
  destruct (replicate (Z.to_nat m) czero !! Z.to_nat j) as [x|] eqn:Hx;
    simpl; [|done].
  by apply lookup_replicate in Hx as [-> _].
Qed.

Lemma square_write_cell n st rc v :
  square n (arr st) → square n (arr (write_cell st rc v)).
Proof.
  intros [Hl Hr]. unfold write_cell. simpl. split.
  - by rewrite length_alter.
  - apply Forall_alter; [done|]. intros row Hrow. by rewrite length_insert.
Qed.

Lemma writes_write_cell st rc v : writes (write_cell st rc v) = writes st ++ [rc].
Proof. done. Qed.

Lemma ent_write_cell_eq n st i j v :
  square n (arr st) → 0 <= i < n → 0 <= j < n →
  ent (arr (write_cell st (i, j) v)) i j = v.
Proof.
  intros Hsq Hi Hj. unfold write_cell, ent. simpl.
  destruct (square_lookup n _ i Hsq Hi) as (row & Hrow & Hlen).
  rewrite list_lookup_alter_eq, Hrow. simpl.
  rewrite list_lookup_insert_eq by lia. done.
Qed.

Lemma ent_write_cell_ne st i j i' j' v :
  0 <= i → 0 <= j → 0 <= i' → 0 <= j' → (i, j) ≠ (i', j') →
  ent (arr (write_cell st (i, j) v)) i' j' = ent (arr st) i' j'.
Proof.
  intros Hi Hj Hi' Hj' Hne. unfold write_cell, ent. simpl.
  destruct (decide (Z.to_nat i = Z.to_nat i')) as [Heq|Hneq].
  - rewrite Heq, list_lookup_alter_eq.
    destruct (arr st !! Z.to_nat i') as [row|]; simpl; [|done].
    rewrite list_lookup_insert_ne; [done|].
    intros Hj''. apply Hne. f_equal; lia.
  - by rewrite list_lookup_alter_ne.
Qed.
End ArrayFacts.

(** ** The recurrence phases on a square input *)

Section EngineFacts.
Context `{DT : Dtype} `{LP : !Lapack}.
Variables (T : matrix) (n : Z) (pairs : list (Z * Z)).
Hypothesis HT : square n T.
Hypothesis Hchain : chain 0 pairs n.
Implicit Types (M : matrix) (st : traced) (W : Z -> Z -> Prop)
         (B : nat -> nat -> Prop).

Lemma in_block_range p i : in_block pairs p i → 0 <= i < n.
Proof.
  intros (r & Hr & Hi). destruct (chain_bounds _ _ _ _ _ Hchain Hr). lia.
Qed.

Lemma in_block_unique p p' i : in_block pairs p i → in_block pairs p' i → p = p'.
Proof.
  intros (r & Hr & Hi) (r' & Hr' & Hi').
  by apply (chain_unique _ _ i _ _ _ _ _ Hchain Hr Hr').
Qed.

Lemma in_block_lt p q i j :
  in_block pairs p i → in_block pairs q j → (p < q)%nat → i < j.
Proof.
  intros (r & Hr & Hi) (r' & Hr' & Hj) Hlt.
  pose proof (chain_ordered _ _ _ _ _ _ _ Hchain Hlt Hr Hr'). lia.
Qed.

Lemma in_block_cover i : 0 <= i < n → ∃ p, in_block pairs p i.
Proof.
  intros Hi. destruct (chain_cover 0 n i pairs Hchain Hi) as (k & r & Hk & Hr).
  exists k, r. done.
Qed.

(** Assigned positions lie on or above the diagonal, inside the array. *)
Lemma done_cell_upper W B i j :
  (∀ i j, W i j → i < j ∧ ∃ p, in_block pairs p i ∧ in_block pairs p j) →
  (∀ p q, B p q → (p < q)%nat) →
  done_cell n pairs W B i j → 0 <= i ∧ i <= j ∧ j < n.
Proof.
  intros HW HB [[-> ?]|[Hw|(p & q & Hb & Hi & Hj)]].
  - lia.
  - destruct (HW _ _ Hw) as (Hlt & p & Hi & Hj).
    apply in_block_range in Hi, Hj. lia.
  - pose proof (in_block_lt _ _ _ _ Hi Hj (HB _ _ Hb)).
    apply in_block_range in Hi, Hj. lia.
Qed.

Lemma engine_inv_upper W B st i j :
  engine_inv T n pairs W B st → (i, j) ∈ writes st → 0 <= i ∧ i <= j ∧ j < n.
Proof.
  intros (_ & _ & HW & HB & Hmem & _) Hin.
  apply (done_cell_upper W B); [done..|]. by apply Hmem.
Qed.

Lemma engine_inv_equiv W W' B B' st :
  (∀ i j, W i j ↔ W' i j) → (∀ p q, B p q ↔ B' p q) →
  engine_inv T n pairs W B st → engine_inv T n pairs W' B' st.
Proof.
  intros HWW HBB (Hsq & Hnd & HW & HB & Hmem & Hzero & Hfacts).
  split; [done|]. split; [done|].
  split; [intros i j Hw; by apply HW, HWW|].
  split; [intros p q Hb; by apply HB, HBB|].
  split.
  { intros i j. rewrite Hmem. unfold done_cell.
    rewrite HWW. by setoid_rewrite HBB. }
  split; [done|].
  intros M HM Hag. destruct (Hfacts M HM Hag) as (F1 & F2 & F3).
  split; [done|]. split.
  - intros i j Hw. by apply F2, HWW.
  - intros p q r r' Hb. by apply F3, HBB.
Qed.

(** Assigning a position that has not been assigned yet, on or above the
    diagonal, keeps every agreement with the earlier state. *)
Lemma agrees_write_fresh st i j v M :
  0 <= i → i <= j → (i, j) ∉ writes st →
  agrees n (write_cell st (i, j) v) M → agrees n st M.
Proof.
  intros Hi Hij Hfresh Hag i' j' Hi' Hj' Hc.
  rewrite (Hag i' j' Hi' Hj').
  - apply ent_write_cell_ne; try lia.
    intros [= -> ->]. destruct Hc as [Hc|Hc]; [done|lia].
  - destruct Hc as [Hc|Hc]; [left|by right].
    rewrite writes_write_cell. apply elem_of_app. by left.
Qed.

Lemma within_entry_square st i j :
  square n (arr st) → 0 <= i → i < j → j < n →
  within_entry T j i st = Ok (write_cell st (i, j) (within_value T (arr st) i j)).
Proof.
  intros Hsq Hi Hij Hj. unfold within_entry, within_value.
  rewrite (getitem_square n T), !(getitem_square n (arr st)) by (done || lia).
  case_bool_decide.
  - rewrite (getrow_square n), (getcol_square n) by (done || lia). simpl.
    unfold setitem.
    rewrite !py_index_in_range
      by (rewrite ?(square_nrows n), ?(square_ncols n); done || lia).
    done.
  - simpl. unfold setitem.
    rewrite !py_index_in_range
      by (rewrite ?(square_nrows n), ?(square_ncols n); done || lia).
    done.
Qed.

(** The recurrence value only reads the diagonal and the entries strictly
    between [i] and [j] of row [i] and of column [j]. *)
Lemma within_value_ext M M' i j :
  ent M i i = ent M' i i → ent M j j = ent M' j j →
  (∀ k, i < k < j → ent M i k = ent M' i k ∧ ent M k j = ent M' k j) →
  within_value T M i j = within_value T M' i j.
Proof.
  intros Hii Hjj Hk. unfold within_value. rewrite Hii, Hjj.
  do 2 f_equal. case_bool_decide; [|done].
  unfold row_segment, col_segment. f_equal.
  - apply list_fmap_ext. intros _ k Hin%list_elem_of_lookup_2.
    apply elem_of_seqZ in Hin. apply Hk. lia.
  - apply list_fmap_ext. intros _ k Hin%list_elem_of_lookup_2.
    apply elem_of_seqZ in Hin. apply Hk. lia.
Qed.

(** One entry of the within-block phase. *)
Lemma within_entry_step W B st p i j :
  engine_inv T n pairs W B st →
  in_block pairs p i → in_block pairs p j → i < j → ¬ W i j →
  (∀ k, i < k < j → W i k ∧ W k j) →
  ∃ st', within_entry T j i st = Ok st'
         ∧ writes st' = writes st ++ [(i, j)]
         ∧ engine_inv T n pairs (fun i' j' => W i' j' ∨ (i' = i ∧ j' = j)) B st'.
Proof.
  intros Hinv Hpi Hpj Hij HnW Hsup.
  pose proof Hinv as (Hsq & Hnd & HW & HB & Hmem & Hzero & Hfacts).
  pose proof (in_block_range _ _ Hpi) as Hi.
  pose proof (in_block_range _ _ Hpj) as Hj.
  assert ((i, j) ∉ writes st) as Hfresh.
  { rewrite Hmem. intros [[-> ?]|[Hw|(p' & q' & Hb & Hi' & Hj')]]; [lia|done|].
    rewrite <- (in_block_unique _ _ _ Hpi Hi') in Hb.
    rewrite <- (in_block_unique _ _ _ Hpj Hj') in Hb.
    apply HB in Hb. lia. }
  eexists. split; [apply within_entry_square; done || lia|].
  split; [done|].
  set (v := within_value T (arr st) i j).
  split; [by apply square_write_cell|].
  split.
  { rewrite writes_write_cell. apply NoDup_app. split; [done|].
    split; [|apply NoDup_singleton].
    intros c Hc ->%list_elem_of_singleton. done. }
  split.
  { intros i' j' [Hw|[-> ->]]; [by apply HW|]. split; [done|]. by exists p. }
  split; [done|].
  split.
  { intros i' j'. rewrite writes_write_cell, elem_of_app, Hmem.
    rewrite list_elem_of_singleton. unfold done_cell.
    split.
    - intros [[?|[?|?]]|[= -> ->]]; auto.
    - intros [?|[[?|[-> ->]]|?]]; auto. }
  split.
  { intros i' j' Hi' Hj' Hnot. rewrite writes_write_cell in Hnot.
    rewrite ent_write_cell_ne; try lia.
    - apply Hzero; try done. intros Hin. apply Hnot, elem_of_app. by left.
    - intros [= -> ->]. apply Hnot, elem_of_app. right. by left. }
  intros M HM Hag.
  assert (agrees n st M) as Hag0
    by (eapply agrees_write_fresh; [| |exact Hfresh|exact Hag]; lia).
  destruct (Hfacts M HM Hag0) as (F1 & F2 & F3).
  split; [done|]. split; [|done].
  intros i' j' [Hw|[-> ->]]; [by apply F2|].
  rewrite (Hag i j) by (done || left; rewrite writes_write_cell;
                        apply elem_of_app; right; by left).
  rewrite (ent_write_cell_eq n) by done.
  subst v. symmetry. apply within_value_ext.
  - apply Hag0; [done..|]. left. apply Hmem. left. done.
  - apply Hag0; [done..|]. left. apply Hmem. left. done.
  - intros k Hk. destruct (Hsup k Hk) as [Hik Hkj].
    split; apply Hag0; try lia; left; apply Hmem; right; by left.
Qed.

(** A loop over the accumulator with the positions it assigns. *)
Lemma for_in_traced {A : Type} (I : nat -> traced -> Prop)
      (cells : A -> list (Z * Z)) (xs : list A)
      (body : A -> traced -> result traced) (s0 : traced) :
  I 0%nat s0 →
  (∀ k x s, xs !! k = Some x → I k s →
     ∃ s', body x s = Ok s' ∧ writes s' = writes s ++ cells x ∧ I (S k) s') →
  ∃ sf, for_in xs body s0 = Ok sf
        ∧ writes sf = writes s0 ++ (xs ≫= cells)
        ∧ I (length xs) sf.
Proof.
  intros H0 Hstep.
  destruct (for_in_invariant
              (fun k s => I k s ∧ writes s = writes s0 ++ (take k xs ≫= cells))
              xs body s0) as (sf & Hsf & HI & Hw).
  - split; [done|]. simpl. by rewrite app_nil_r.
  - intros k x s Hx [HI Hw].
    destruct (Hstep k x s Hx HI) as (s' & Hb & Hw' & HI').
    exists s'. split; [done|]. split; [done|].
    rewrite Hw', Hw, (take_S_r _ _ _ Hx), bind_app, <- app_assoc.
    simpl. by rewrite app_nil_r.
  - exists sf. split; [done|]. split; [|done].
    by rewrite Hw, firstn_all.
Qed.

Lemma bind_singleton_fmap {A X : Type} (f : A -> X) (l : list A) :
  (l ≫= fun x => [f x]) = f <$> l.
Proof.
  induction l as [|x l IH]; [done|]. by rewrite bind_cons, fmap_cons, IH.
Qed.

Lemma in_block_inv P r x :
  pairs !! P = Some r → in_block pairs P x → r.1 <= x < r.2.
Proof. intros Hr (r' & Hr' & Hx). by simplify_eq. Qed.

Lemma in_block_intro P r x :
  pairs !! P = Some r → r.1 <= x < r.2 → in_block pairs P x.
Proof. intros Hr Hx. by exists r. Qed.

Lemma within_done_start P r i j :
  pairs !! P = Some r →
  within_done pairs P 0 0 i j ↔ within_done pairs P r.1 (r.1 - 1) i j.
Proof.
  intros Hr. unfold within_done.
  split; intros (Hlt & p & Hi & Hj & Hc); (split; [done|]); exists p;
    (split; [done|]); (split; [done|]);
    (destruct Hc as [Hc|[-> Hc]]; [by left|]);
    pose proof (in_block_inv _ _ _ Hr Hi); pose proof (in_block_inv _ _ _ Hr Hj);
    pose proof (in_block_range _ _ Hi); lia.
Qed.

Lemma within_done_next_col P r j i' j' :
  pairs !! P = Some r →
  within_done pairs P j (r.1 - 1) i' j' ↔ within_done pairs P (j + 1) j i' j'.
Proof.
  intros Hr. unfold within_done.
  split; intros (Hlt & p & Hi & Hj & Hc); (split; [done|]); exists p;
    (split; [done|]); (split; [done|]);
    (destruct Hc as [Hc|[-> Hc]]; [by left|]); right; (split; [done|]);
    pose proof (in_block_inv _ _ _ Hr Hi); lia.
Qed.

Lemma within_done_next_block P r i j :
  pairs !! P = Some r →
  within_done pairs P r.2 (r.2 - 1) i j ↔ within_done pairs (S P) 0 0 i j.
Proof.
  intros Hr. unfold within_done.
  split; intros (Hlt & p & Hi & Hj & Hc); (split; [done|]); exists p;
    (split; [done|]); (split; [done|]).
  - left. destruct Hc as [Hc|[-> Hc]]; lia.
  - destruct Hc as [Hc|[-> Hc]].
    + destruct (decide (p = P)) as [->|Hne]; [|left; lia].
      right. split; [done|]. pose proof (in_block_inv _ _ _ Hr Hj). lia.
    + pose proof (in_block_range _ _ Hi). lia.
Qed.

Lemma within_done_next_row P i j i' j' :
  in_block pairs P i → in_block pairs P j → i < j →
  (within_done pairs P j i i' j' ∨ (i' = i ∧ j' = j))
  ↔ within_done pairs P j (i - 1) i' j'.
Proof.
  intros HPi HPj Hij. unfold within_done. split.
  - intros [(Hlt & p & Hi & Hj & Hc)|[-> ->]].
    + split; [done|]. exists p. split; [done|]. split; [done|].
      destruct Hc as [Hc|[-> Hc]]; [by left|]. right. split; [done|]. lia.
    + split; [done|]. exists P. split; [done|]. split; [done|].
      right. split; [done|]. lia.
  - intros (Hlt & p & Hi & Hj & Hc).
    destruct (decide (i' = i ∧ j' = j)) as [|Hne]; [by right|]. left.
    split; [done|]. exists p. split; [done|]. split; [done|].
    destruct Hc as [Hc|[-> Hc]]; [by left|]. right. split; [done|]. lia.
Qed.

(** One column of a diagonal block: lines 75-79. *)
Lemma within_column_ok B st P r j :
  pairs !! P = Some r → r.1 <= j < r.2 →
  engine_inv T n pairs (within_done pairs P j (j - 1)) B st →
  ∃ st', for_in (range_down (j - 1) (r.1 - 1)) (within_entry T j) st = Ok st'
         ∧ writes st' = writes st
                        ++ ((fun i => (i, j)) <$> range_down (j - 1) (r.1 - 1))
         ∧ engine_inv T n pairs (within_done pairs P j (r.1 - 1)) B st'.
Proof.
  intros Hr Hj Hinv.
  destruct (for_in_traced
              (fun k s => engine_inv T n pairs
                            (within_done pairs P j (j - 1 - Z.of_nat k)) B s)
              (fun i => [(i, j)]) (range_down (j - 1) (r.1 - 1))
              (within_entry T j) st) as (st' & Hrun & Hw & Hend).
  - by rewrite Z.sub_0_r.
  - intros k i s [-> Hk]%lookup_range_down Hs.
    set (i := j - 1 - Z.of_nat k) in *.
    assert (in_block pairs P i) as HPi by (apply (in_block_intro P r); [done|lia]).
    assert (in_block pairs P j) as HPj by (by apply (in_block_intro P r)).
    destruct (within_entry_step _ B s P i j Hs HPi HPj) as (s' & Hb & Hw' & Hs').
    + lia.
    + intros (_ & p & Hi' & _ & [Hc|[_ Hc]]); [|lia].
      rewrite (in_block_unique _ _ _ Hi' HPi) in Hc. lia.
    + intros k' Hk'.
      assert (in_block pairs P k') by (apply (in_block_intro P r); [done|lia]).
      split; (split; [lia|]); exists P; (split; [done|]); (split; [done|]);
        right; (split; [done|]); lia.
    + exists s'. split; [done|]. split; [done|].
      eapply engine_inv_equiv; [| |exact Hs']; [|done].
      intros i' j'. rewrite within_done_next_row by (done || lia).
      replace (j - 1 - Z.of_nat (S k)) with (i - 1) by lia. done.
  - exists st'. split; [done|]. split; [by rewrite Hw, bind_singleton_fmap|].
    rewrite length_range_down in Hend.
    replace (j - 1 - Z.of_nat (Z.to_nat (j - 1 - (r.1 - 1)))) with (r.1 - 1)
      in Hend by lia.
    done.
Qed.

(** One diagonal block: lines 74-79. *)
Lemma within_block_ok B st P r :
  pairs !! P = Some r →
  engine_inv T n pairs (within_done pairs P r.1 (r.1 - 1)) B st →
  ∃ st', for_in (range_up r.1 r.2)
           (fun j => for_in (range_down (j - 1) (r.1 - 1)) (within_entry T j)) st
         = Ok st'
         ∧ writes st' = writes st
                        ++ (j ← range_up r.1 r.2;
                            (fun i => (i, j)) <$> range_down (j - 1) (r.1 - 1))
         ∧ engine_inv T n pairs (within_done pairs P r.2 (r.2 - 1)) B st'.
Proof.
  intros Hr Hinv.
  destruct (chain_bounds _ _ _ _ _ Hchain Hr) as (_ & Hle & _).
  destruct (for_in_traced
              (fun k s => engine_inv T n pairs
                            (within_done pairs P (r.1 + Z.of_nat k)
                                         (r.1 + Z.of_nat k - 1)) B s)
              (fun j => (fun i => (i, j)) <$> range_down (j - 1) (r.1 - 1))
              (range_up r.1 r.2)
              (fun j => for_in (range_down (j - 1) (r.1 - 1)) (within_entry T j))
              st) as (st' & Hrun & Hw & Hend).
  - by rewrite Z.add_0_r.
  - intros k j s [-> Hk]%lookup_range_up Hs.
    destruct (within_column_ok B s P r (r.1 + Z.of_nat k) Hr ltac:(lia) Hs)
      as (s' & Hb & Hw' & Hs').
    exists s'. split; [done|]. split; [done|].
    eapply engine_inv_equiv; [| |exact Hs']; [|done].
    intros i' j'. rewrite (within_done_next_col P r) by done.
    replace (r.1 + Z.of_nat (S k)) with (r.1 + Z.of_nat k + 1) by lia.
    replace (r.1 + Z.of_nat k + 1 - 1) with (r.1 + Z.of_nat k) by lia. done.
  - exists st'. split; [done|]. split; [done|].
    rewrite length_range_up in Hend.
    replace (r.1 + Z.of_nat (Z.to_nat (r.2 - r.1))) with (r.2) in Hend by lia.
    done.
Qed.

(** The within-block phase: lines 73-79. *)
Lemma within_blocks_ok B st :
  engine_inv T n pairs (fun _ _ => False) B st →
  ∃ st', within_blocks T pairs st = Ok st'
         ∧ writes st' = writes st ++ within_trace pairs
         ∧ engine_inv T n pairs
             (fun i j => i < j ∧ ∃ p, in_block pairs p i ∧ in_block pairs p j)
             B st'.
Proof.
  intros Hinv. unfold within_blocks, within_trace.
  destruct (for_in_traced
              (fun k s => engine_inv T n pairs (within_done pairs k 0 0) B s)
              (fun p => j ← range_up p.1 p.2;
                        (fun i => (i, j)) <$> range_down (j - 1) (p.1 - 1))
              pairs
              (fun p => for_in (range_up p.1 p.2)
                          (fun j => for_in (range_down (j - 1) (p.1 - 1))
                                           (within_entry T j)))
              st) as (st' & Hrun & Hw & Hend).
  - eapply engine_inv_equiv; [| |exact Hinv]; [|done].
    intros i j. split; [done|].
    intros (Hlt & p & Hi & Hj & [Hc|[-> Hc]]); [lia|].
    pose proof (in_block_range _ _ Hi). lia.
  - intros k r s Hr Hs.
    destruct (within_block_ok B s k r Hr) as (s' & Hb & Hw' & Hs').
    + eapply engine_inv_equiv; [| |exact Hs]; [|done].
      intros i j. by apply within_done_start.
    + exists s'. split; [done|]. split; [done|].
      eapply engine_inv_equiv; [| |exact Hs']; [|done].
      intros i j. by apply within_done_next_block.
  - exists st'. split; [done|]. split; [done|].
    eapply engine_inv_equiv; [| |exact Hend]; [|done].
    intros i j. unfold within_done. split.
    + intros (Hlt & p & Hi & Hj & _). eauto.
    + intros (Hlt & p & Hi & Hj). split; [done|]. exists p.
      split; [done|]. split; [done|]. left.
      destruct Hi as (r & Hr & _). by apply lookup_lt_Some in Hr.
Qed.

Lemma elem_of_diag_trace m i j : (i, j) ∈ diag_trace m ↔ i = j ∧ 0 <= i < m.
Proof.
  unfold diag_trace. rewrite list_elem_of_fmap. setoid_rewrite elem_of_seqZ.
  split.
  - intros (k & [= -> ->] & Hk). lia.
  - intros [-> Hi]. exists j. split; [done|lia].
Qed.

Lemma NoDup_diag_trace m : NoDup (diag_trace m).
Proof.
  unfold diag_trace. apply NoDup_fmap_2_strong; [|apply NoDup_seqZ].
  by intros x y _ _ [= ->].
Qed.

Lemma lookup_np_diag k :
  0 <= k < n → np_diag T !! Z.to_nat k = Some (ent T k k).
Proof.
  intros Hk. unfold np_diag. rewrite list_lookup_fmap.
  rewrite (lookup_seqZ_lt 0 _ (Z.to_nat k)).
  - simpl. do 3 f_equal; lia.
  - pose proof (square_nrows _ _ HT). pose proof (square_ncols _ _ HT). lia.
Qed.

Lemma length_np_diag : Z.of_nat (length (np_diag T)) = n.
Proof.
  unfold np_diag. rewrite length_fmap, length_seqZ.
  pose proof (square_nrows _ _ HT). pose proof (square_ncols _ _ HT). lia.
Qed.

(** Diagonal seeding: lines 47-51. *)
Lemma seed_diagonal_ok :
  ∃ st, seed_diagonal T = Ok st
        ∧ writes st = diag_trace n
        ∧ engine_inv T n pairs (fun _ _ => False) (fun _ _ => False) st.
Proof.
  unfold seed_diagonal. rewrite (square_ncols _ _ HT).
  pose proof (square_nonneg _ _ HT) as Hn.
  unfold set_diag.
  rewrite bool_decide_eq_true_2 by (rewrite length_fmap; apply length_np_diag).
  destruct (for_in_traced
              (fun k s =>
                 square n (arr s) ∧
                 ∀ i j, 0 <= i < n → 0 <= j < n →
                        ent (arr s) i j =
                          if bool_decide (i = j ∧ i < Z.of_nat k)
                          then csqrt (ent T i i) else czero)
              (fun k => [(k, k)]) (seqZ 0 n)
              (fun k s =>
                 r <- py_index (nrows (arr s)) k ;;
                 c <- py_index (ncols (arr s)) k ;;
                 Ok (write_cell s (r, c)
                                (default czero ((csqrt <$> np_diag T) !! Z.to_nat k))))
              (Traced (np_zeros n n) [])) as (st & Hrun & Hw & Hsq & Hent).
  - split; [by apply square_np_zeros|]. intros i j Hi Hj. simpl.
    rewrite ent_np_zeros, bool_decide_eq_false_2 by lia. done.
  - intros k x s [-> Hk]%lookup_seqZ [Hsq Hent]. rewrite Z.add_0_l in *.
    rewrite !py_index_in_range
      by (rewrite ?(square_nrows n), ?(square_ncols n); done || lia).
    simpl. eexists. split; [done|]. split; [done|].
    split; [by apply square_write_cell|].
    intros i j Hi Hj.
    assert (default czero ((csqrt <$> np_diag T) !! Z.to_nat (Z.of_nat k))
            = csqrt (ent T (Z.of_nat k) (Z.of_nat k))) as ->
      by (by rewrite list_lookup_fmap, (lookup_np_diag (Z.of_nat k)) by lia).
    destruct (decide ((Z.of_nat k, Z.of_nat k) = (i, j))) as [[= <- <-]|Hne].
    + rewrite (ent_write_cell_eq n) by (done || lia).
      rewrite bool_decide_eq_true_2 by lia. done.
    + rewrite ent_write_cell_ne by (done || lia). rewrite Hent by done.
      rewrite (bool_decide_ext (i = j ∧ i < Z.of_nat k)
                               (i = j ∧ i < Z.of_nat (S k))); [done|].
      split; [lia|]. intros [-> Hlt]. split; [done|].
      assert (j ≠ Z.of_nat k) by congruence. lia.
  - simpl in Hw. rewrite bind_singleton_fmap in Hw. fold (diag_trace n) in Hw.
    exists st. split; [done|]. split; [done|].
    rewrite length_seqZ, Z2Nat.id in Hent by done.
    split; [done|]. split; [rewrite Hw; apply NoDup_diag_trace|].
    split; [done|]. split; [done|].
    split.
    { intros i j. rewrite Hw, elem_of_diag_trace. unfold done_cell.
      split; [auto|]. intros [?|[[]|(? & ? & [] & _)]]. done. }
    split.
    { intros i j Hi Hj Hnot. rewrite Hent by done.
      rewrite bool_decide_eq_false_2; [done|].
      intros [-> _]. apply Hnot. rewrite Hw. by apply elem_of_diag_trace. }
    intros M HM Hag. split; [|split; [done|by intros ? ? ? ? []]].
    intros k Hk. rewrite (Hag k k Hk Hk).
    + rewrite Hent by done. by rewrite bool_decide_eq_true_2 by lia.
    + left. rewrite Hw. by apply elem_of_diag_trace.
Qed.

(** *** Shapes *)

Lemma shape_iff (V : matrix) (h w : nat) :
  length <$> V = replicate h w
  ↔ length V = h ∧ Forall (fun row => length row = w) V.
Proof.
  split.
  - intros H. symmetry in H. apply replicate_as_Forall in H as [Hl HF].
    rewrite length_fmap in Hl. split; [done|].
    rewrite Forall_fmap in HF. eapply Forall_impl; [exact HF|].
    intros row Hrow. simpl in Hrow. done.
  - intros [Hl HF]. symmetry. apply replicate_as_Forall.
    rewrite length_fmap. split; [done|].
    rewrite Forall_fmap. eapply Forall_impl; [exact HF|].
    intros row Hrow. simpl. done.
Qed.

Lemma shape_table (f : Z -> Z -> C) r0 h c0 w :
  length <$> table f r0 h c0 w = replicate (Z.to_nat h) (Z.to_nat w).
Proof.
  apply shape_iff. unfold table. rewrite length_fmap, length_seqZ.
  split; [done|]. apply Forall_fmap, Forall_forall. intros r _. simpl.
  by rewrite length_fmap, length_seqZ.
Qed.

Lemma shape_mat_sub (A1 A2 : matrix) (h w : nat) :
  length <$> A1 = replicate h w → length <$> A2 = replicate h w →
  length <$> mat_sub A1 A2 = replicate h w.
Proof.
  rewrite !shape_iff. intros [Hl1 HF1] [Hl2 HF2]. unfold mat_sub. split.
  - rewrite length_zip_with. lia.
  - apply Forall_lookup. intros k row Hk.
    apply lookup_zip_with_Some in Hk as (r1 & r2 & -> & Hr1 & Hr2).
    rewrite length_zip_with.
    rewrite (proj1 (Forall_lookup _ _) HF1 _ _ Hr1).
    rewrite (proj1 (Forall_lookup _ _) HF2 _ _ Hr2). lia.
Qed.

Lemma shape_mat_dot (A1 A2 : matrix) :
  length <$> mat_dot A1 A2 = replicate (length A1) (ncols A2).
Proof.
  apply shape_iff. unfold mat_dot. rewrite length_fmap. split; [done|].
  apply Forall_fmap, Forall_forall. intros r _. simpl.
  rewrite length_fmap, length_seqZ. lia.
Qed.

Lemma shape_mat_scale (x : matrix) (scale : F) :
  length <$> mat_scale x scale = length <$> x.
Proof.
  unfold mat_scale. rewrite <- list_fmap_compose. apply list_fmap_ext.
  intros _ row _. simpl. by rewrite length_fmap.
Qed.

Lemma ncols_table (f : Z -> Z -> C) r0 h c0 w :
  0 < h → ncols (table f r0 h c0 w) = Z.to_nat w.
Proof.
  intros Hh. unfold table. rewrite (seqZ_cons r0 h) by done.
  rewrite fmap_cons. simpl. by rewrite length_fmap, length_seqZ.
Qed.

Lemma length_table (f : Z -> Z -> C) r0 h c0 w :
  length (table f r0 h c0 w) = Z.to_nat h.
Proof. unfold table. by rewrite length_fmap, length_seqZ. Qed.

(** An array of the shape of a block is the table of its own entries. *)
Lemma table_of_entries (V : matrix) r0 h c0 w :
  length <$> V = replicate (Z.to_nat h) (Z.to_nat w) →
  table (fun r c => ent V (r - r0) (c - c0)) r0 h c0 w = V.
Proof.
  intros [Hl HF]%shape_iff. unfold table. apply list_eq. intros k.
  rewrite list_lookup_fmap.
  destruct (decide (Z.of_nat k < h)) as [Hk|Hk].
  - rewrite lookup_seqZ_lt by done. simpl.
    destruct (lookup_lt_is_Some_2 V k) as [row Hrow]; [lia|].
    rewrite Hrow. f_equal.
    pose proof (proj1 (Forall_lookup _ _) HF _ _ Hrow) as Hlen.
    simpl in Hlen.
    apply list_eq. intros k'. rewrite list_lookup_fmap.
    destruct (decide (Z.of_nat k' < w)) as [Hk'|Hk'].
    + rewrite lookup_seqZ_lt by done. simpl.
      replace (r0 + Z.of_nat k - r0) with (Z.of_nat k) by lia.
      replace (c0 + Z.of_nat k' - c0) with (Z.of_nat k') by lia.
      unfold ent. rewrite !Nat2Z.id, Hrow. simpl.
      destruct (lookup_lt_is_Some_2 row k') as [x Hx]; [lia|].
      by rewrite Hx.
    + rewrite lookup_seqZ_ge by lia. simpl. symmetry.
      apply lookup_ge_None. lia.
  - rewrite lookup_seqZ_ge by lia. simpl. symmetry.
    apply lookup_ge_None. lia.
Qed.

(** *** Block assignment *)

Lemma elem_of_block_cells r0 h c0 w i j :
  (i, j) ∈ block_cells r0 h c0 w ↔ r0 <= i < r0 + h ∧ c0 <= j < c0 + w.
Proof.
  unfold block_cells. rewrite list_elem_of_bind. split.
  - intros (r & Hin & Hr). apply list_elem_of_fmap in Hin as (c & [= -> ->] & Hc).
    apply elem_of_seqZ in Hr, Hc. done.
  - intros [Hi Hj]. exists i. split; [|by apply elem_of_seqZ].
    apply list_elem_of_fmap. exists j. split; [done|]. by apply elem_of_seqZ.
Qed.

Lemma NoDup_block_cells r0 h c0 w : NoDup (block_cells r0 h c0 w).
Proof.
  unfold block_cells. apply NoDup_bind; [| |apply NoDup_seqZ].
  - intros r1 r2 [i j] _ _ (c1 & [= -> ->] & _)%list_elem_of_fmap
           (c2 & [= -> _] & _)%list_elem_of_fmap. done.
  - intros r _. apply NoDup_fmap_2_strong; [|apply NoDup_seqZ].
    by intros x y _ _ [= ->].
Qed.

Lemma write_cells_spec (f : Z * Z -> C) (cells : list (Z * Z)) st :
  square n (arr st) → NoDup cells →
  (∀ i j, (i, j) ∈ cells → 0 <= i < n ∧ 0 <= j < n) →
  let st' := foldl (fun s rc => write_cell s rc (f rc)) st cells in
  square n (arr st')
  ∧ writes st' = writes st ++ cells
  ∧ (∀ i j, (i, j) ∈ cells → ent (arr st') i j = f (i, j))
  ∧ (∀ i j, 0 <= i → 0 <= j → (i, j) ∉ cells →
            ent (arr st') i j = ent (arr st) i j).
Proof.
  intros Hsq. induction cells as [|c cells IH] using rev_ind; intros Hnd Hin.
  - simpl. split; [done|]. split; [by rewrite app_nil_r|].
    split; [|done]. intros i j Hc. by apply elem_of_nil in Hc.
  - apply NoDup_app in Hnd as (Hnd & Hdisj & _).
    destruct IH as (IH1 & IH2 & IH3 & IH4); [done| |].
    { intros i j Hc. apply Hin, elem_of_app. by left. }
    destruct c as [ci cj].
    destruct (Hin ci cj) as [Hci Hcj]; [apply elem_of_app; right; by left|].
    cbn zeta. rewrite foldl_app. cbn [foldl].
    split; [by apply square_write_cell|].
    split; [by rewrite writes_write_cell, IH2, app_assoc|].
    split.
    + intros i j [Hc|Hc%list_elem_of_singleton]%elem_of_app.
      * rewrite ent_write_cell_ne.
        -- by apply IH3.
        -- lia.
        -- lia.
        -- destruct (Hin i j); [apply elem_of_app; by left|lia].
        -- destruct (Hin i j); [apply elem_of_app; by left|lia].
        -- intros Heq. apply (Hdisj _ Hc). rewrite Heq. by left.
      * simplify_eq. by rewrite (ent_write_cell_eq n).
    + intros i j Hi Hj Hnot. rewrite ent_write_cell_ne; try lia.
      * apply IH4; try done. intros Hc. apply Hnot, elem_of_app. by left.
      * intros [= -> ->]. apply Hnot, elem_of_app. right. by left.
Qed.

Lemma setblock_square st a b c d (V : matrix) :
  square n (arr st) → 0 <= a → a <= b → b <= n → 0 <= c → c <= d → d <= n →
  length <$> V = replicate (Z.to_nat (b - a)) (Z.to_nat (d - c)) →
  setblock st a b c d V
  = Ok (foldl (fun s rc => write_cell s rc (ent V (rc.1 - a) (rc.2 - c)))
              st (block_cells a (b - a) c (d - c))).
Proof.
  intros Hsq Ha Hab Hb Hc Hcd Hd HV. unfold setblock.
  pose proof (square_nrows _ _ Hsq). pose proof (square_ncols _ _ Hsq).
  rewrite !slice_bound_in_range by lia.
  replace (Z.to_nat b - Z.to_nat a)%nat with (Z.to_nat (b - a)) by lia.
  replace (Z.to_nat d - Z.to_nat c)%nat with (Z.to_nat (d - c)) by lia.
  rewrite bool_decide_eq_true_2 by done.
  rewrite !Z2Nat.id by lia. done.
Qed.

(** *** One pair of blocks *)

Hypothesis Hsolver : solver_keeps_shape.
Hypothesis Hnonempty :
  (2 <= length pairs)%nat → ∀ k r, pairs !! k = Some r → r.1 < r.2.

Lemma block_pair_bounds p q r r' :
  (p < q)%nat → pairs !! p = Some r → pairs !! q = Some r' →
  0 <= r.1 ∧ r.1 < r.2 ∧ r.2 <= r'.1 ∧ r'.1 < r'.2 ∧ r'.2 <= n.
Proof.
  intros Hlt Hr Hr'.
  destruct (chain_bounds _ _ _ _ _ Hchain Hr) as (? & _ & _).
  destruct (chain_bounds _ _ _ _ _ Hchain Hr') as (_ & _ & ?).
  pose proof (chain_ordered _ _ _ _ _ _ _ Hchain Hlt Hr Hr').
  assert (2 <= length pairs)%nat as Hlen by (apply lookup_lt_Some in Hr'; lia).
  pose proof (Hnonempty Hlen _ _ Hr). pose proof (Hnonempty Hlen _ _ Hr'). lia.
Qed.

(** Blocks that are not adjacent are separated by at least one position. *)
Lemma block_pair_gap p q r r' :
  (S p < q)%nat → pairs !! p = Some r → pairs !! q = Some r' → r.2 < r'.1.
Proof.
  intros Hlt Hr Hr'.
  destruct (lookup_lt_is_Some_2 pairs (S p)) as [rk Hrk].
  { apply lookup_lt_Some in Hr'. lia. }
  pose proof (chain_ordered _ _ _ _ _ _ _ Hchain (Nat.lt_succ_diag_r p) Hr Hrk).
  pose proof (chain_ordered _ _ _ _ _ _ _ Hchain Hlt Hrk Hr').
  assert (2 <= length pairs)%nat as Hlen by (apply lookup_lt_Some in Hr'; lia).
  pose proof (Hnonempty Hlen _ _ Hrk). lia.
Qed.

(** A position between two blocks lies in a block between them. *)
Lemma in_block_between p q r r' x :
  pairs !! p = Some r → pairs !! q = Some r' → r.2 <= x < r'.1 →
  ∃ k, (p < k < q)%nat ∧ in_block pairs k x.
Proof.
  intros Hr Hr' Hx.
  destruct (chain_bounds _ _ _ _ _ Hchain Hr) as (? & ? & _).
  destruct (chain_bounds _ _ _ _ _ Hchain Hr') as (_ & ? & ?).
  destruct (in_block_cover x) as (k & rk & Hrk & Hk); [lia|].
  exists k. split; [|by exists rk].
  split.
  - destruct (Nat.lt_trichotomy p k) as [?|[->|Hlt]]; [done|simplify_eq; lia|].
    pose proof (chain_ordered _ _ _ _ _ _ _ Hchain Hlt Hrk Hr). lia.
  - destruct (Nat.lt_trichotomy k q) as [?|[->|Hlt]]; [done|simplify_eq; lia|].
    pose proof (chain_ordered _ _ _ _ _ _ _ Hchain Hlt Hr' Hrk). lia.
Qed.

Lemma shape_sylvester_block (R : matrix) j i a b c d :
  square n R → 0 <= a → a <= b → b <= c → c <= d → d <= n →
  (j - i > 1 → b < c) →
  length <$> sylvester_block T R j i a b c d
  = replicate (Z.to_nat (b - a)) (Z.to_nat (d - c)).
Proof.
  intros HR Ha Hab Hbc Hcd Hd Hgap. unfold sylvester_block.
  rewrite shape_mat_scale, Hsolver. unfold sylvester_rhs.
  rewrite (getblock_square n T) by (done || lia).
  case_bool_decide as Hji; [|apply shape_table].
  apply shape_mat_sub; [apply shape_table|].
  rewrite shape_mat_dot, !(getblock_square n R) by (done || lia).
  rewrite length_table, ncols_table by lia. done.
Qed.

Lemma sylvester_block_ext (M M' : matrix) j i a b c d :
  square n M → square n M' → 0 <= a → a <= b → b <= c → c <= d → d <= n →
  (∀ x y, a <= x < b → a <= y < b → ent M x y = ent M' x y) →
  (∀ x y, c <= x < d → c <= y < d → ent M x y = ent M' x y) →
  (∀ x y, a <= x < b → b <= y < c → ent M x y = ent M' x y) →
  (∀ x y, b <= x < c → c <= y < d → ent M x y = ent M' x y) →
  sylvester_block T M j i a b c d = sylvester_block T M' j i a b c d.
Proof.
  intros HM HM' Ha Hab Hbc Hcd Hd H1 H2 H3 H4.
  unfold sylvester_block, sylvester_rhs.
  rewrite !(getblock_square n M), !(getblock_square n M') by (done || lia).
  rewrite (table_ext (ent M) (ent M') a (b - a) a (b - a))
    by (intros; apply H1; lia).
  rewrite (table_ext (ent M) (ent M') c (d - c) c (d - c))
    by (intros; apply H2; lia).
  rewrite (table_ext (ent M) (ent M') a (b - a) b (c - b))
    by (intros; apply H3; lia).
  rewrite (table_ext (ent M) (ent M') b (c - b) c (d - c))
    by (intros; apply H4; lia).
  done.
Qed.

Lemma pair_cells_lookup p q r r' :
  pairs !! p = Some r → pairs !! q = Some r' →
  pair_cells pairs (Z.of_nat q) (Z.of_nat p)
  = block_cells r.1 (r.2 - r.1) r'.1 (r'.2 - r'.1).
Proof.
  intros Hr Hr'. unfold pair_cells, block_range.
  by rewrite !Nat2Z.id, Hr, Hr'.
Qed.

Lemma between_pair_step W B st p q r r' :
  engine_inv T n pairs W B st →
  (p < q)%nat → pairs !! p = Some r → pairs !! q = Some r' → ¬ B p q →
  (∀ i j, r.1 <= i → i < j → j < r.2 → W i j) →
  (∀ i j, r'.1 <= i → i < j → j < r'.2 → W i j) →
  (∀ k, (p < k < q)%nat → B p k ∧ B k q) →
  ∃ st', between_pair T pairs (Z.of_nat q) r'.1 r'.2 (Z.of_nat p) st = Ok st'
         ∧ writes st' = writes st ++ pair_cells pairs (Z.of_nat q) (Z.of_nat p)
         ∧ engine_inv T n pairs W (fun p' q' => B p' q' ∨ (p' = p ∧ q' = q)) st'.
Proof.
  intros Hinv Hpq Hr Hr' HnB HWp HWq Hsup.
  pose proof Hinv as (Hsq & Hnd & HW & HB & Hmem & Hzero & Hfacts).
  destruct (block_pair_bounds _ _ _ _ Hpq Hr Hr') as (Ha & Hab & Hbc & Hcd & Hd).
  set (V := sylvester_block T (arr st) (Z.of_nat q) (Z.of_nat p) r.1 r.2 r'.1 r'.2).
  assert (length <$> V = replicate (Z.to_nat (r.2 - r.1)) (Z.to_nat (r'.2 - r'.1)))
    as HV.
  { apply shape_sylvester_block; try (done || lia).
    intros Hgap. apply (block_pair_gap p q); [lia|done..]. }
  set (cells := block_cells r.1 (r.2 - r.1) r'.1 (r'.2 - r'.1)).
  assert (∀ i j, (i, j) ∈ cells ↔ in_block pairs p i ∧ in_block pairs q j)
    as Hcells.
  { intros i j. unfold cells. rewrite elem_of_block_cells. split.
    - intros [Hi Hj]. split; [exists r|exists r']; (split; [done|lia]).
    - intros [Hi Hj]. apply (in_block_inv _ _ _ Hr) in Hi.
      apply (in_block_inv _ _ _ Hr') in Hj. lia. }
  assert (∀ i j, (i, j) ∈ cells → (i, j) ∉ writes st) as Hfresh.
  { intros i j [Hi Hj]%Hcells.
    rewrite Hmem. intros [[-> ?]|[Hw|(p' & q' & Hb & Hi' & Hj')]].
    - pose proof (in_block_lt _ _ _ _ Hi Hj Hpq). lia.
    - destruct (HW _ _ Hw) as (_ & p0 & Hi0 & Hj0).
      pose proof (in_block_unique _ _ _ Hi Hi0).
      pose proof (in_block_unique _ _ _ Hj Hj0). lia.
    - rewrite <- (in_block_unique _ _ _ Hi Hi') in Hb.
      rewrite <- (in_block_unique _ _ _ Hj Hj') in Hb. done. }
  assert (∀ i j, (i, j) ∈ cells → 0 <= i < n ∧ i < j ∧ 0 <= j < n) as Hrange.
  { intros i j [Hi Hj]%Hcells.
    pose proof (in_block_lt _ _ _ _ Hi Hj Hpq).
    apply in_block_range in Hi, Hj. lia. }
  destruct (write_cells_spec (fun rc => ent V (rc.1 - r.1) (rc.2 - r'.1)) cells st)
    as (Hsq' & Hw' & Heq' & Hne'); [done|apply NoDup_block_cells| |].
  { intros i j Hc. destruct (Hrange i j Hc). lia. }
  set (st' := foldl (fun s rc => write_cell s rc (ent V (rc.1 - r.1) (rc.2 - r'.1)))
                    st cells) in *.
  exists st'. split.
  { unfold between_pair.
    rewrite (list_getitem_in_range pairs (Z.of_nat p) r)
      by (lia || by rewrite Nat2Z.id).
    simpl. rewrite setblock_square by (done || lia). done. }
  split; [by rewrite Hw', (pair_cells_lookup p q r r')|].
  split; [done|].
  split.
  { rewrite Hw'. apply NoDup_app. split; [done|].
    split; [|apply NoDup_block_cells].
    intros [i j] Hin Hc. by apply (Hfresh i j). }
  split; [done|].
  split; [intros p' q' [Hb|[-> ->]]; [by apply HB|done]|].
  split.
  { intros i j. rewrite Hw', elem_of_app, Hmem, Hcells. unfold done_cell. split.
    - intros [[?|[?|(p' & q' & ? & ? & ?)]]|[? ?]]; [auto|auto| |].
      + right; right. exists p', q'. auto.
      + right; right. exists p, q. auto.
    - intros [?|[?|(p' & q' & [?|[-> ->]] & ? & ?)]]; [auto|auto| |].
      + left. right; right. exists p', q'. auto.
      + by right. }
  split.
  { intros i j Hi Hj Hnot. rewrite Hw' in Hnot.
    rewrite Hne' by (lia || intros Hc; apply Hnot, elem_of_app; by right).
    apply Hzero; try done. intros Hc. apply Hnot, elem_of_app. by left. }
  intros M HM Hag.
  assert (agrees n st M) as Hag0.
  { intros i j Hi Hj Hc. rewrite (Hag i j Hi Hj).
    - apply Hne'; try lia. intros Hin.
      destruct Hc as [Hc|Hc]; [by apply (Hfresh i j)|].
      destruct (Hrange i j Hin). lia.
    - destruct Hc as [Hc|Hc]; [left|by right].
      rewrite Hw'. apply elem_of_app. by left. }
  destruct (Hfacts M HM Hag0) as (F1 & F2 & F3).
  split; [done|]. split; [done|].
  intros p0 q0 r0 r0' [Hb|[-> ->]] Hr0 Hr0'; [by apply F3|].
  simplify_eq.
  rewrite (getblock_square n M) by (done || lia).
  rewrite (table_ext (ent M) (fun x y => ent V (x - r.1) (y - r'.1))).
  2:{ intros x y Hx Hy.
      assert ((x, y) ∈ cells) as Hc
        by (unfold cells; apply elem_of_block_cells; lia).
      destruct (Hrange x y Hc) as (? & ? & ?).
      rewrite (Hag x y) by (done || left; rewrite Hw'; apply elem_of_app; by right).
      by rewrite (Heq' x y Hc). }
  rewrite table_of_entries by done.
  subst V. symmetry.
  assert (∀ x y, 0 <= x < n → 0 <= y < n →
                 done_cell n pairs W B x y ∨ y < x →
                 ent M x y = ent (arr st) x y) as Hread.
  { intros x y Hx Hy [Hc|Hc]; apply Hag0; try done; [left|by right].
    by apply Hmem. }
  apply (sylvester_block_ext M (arr st)); try (done || lia).
  - intros x y Hx Hy. apply Hread; try lia.
    destruct (Z.lt_trichotomy x y) as [Hlt|[->|Hgt]]; [|left; left; lia|by right].
    left. right. left. apply HWp; lia.
  - intros x y Hx Hy. apply Hread; try lia.
    destruct (Z.lt_trichotomy x y) as [Hlt|[->|Hgt]]; [|left; left; lia|by right].
    left. right. left. apply HWq; lia.
  - intros x y Hx Hy. apply Hread; try lia. left. right. right.
    destruct (in_block_between p q r r' y Hr Hr' Hy) as (k & Hk & Hky).
    exists p, k. split; [by apply Hsup|]. split; [|done].
    exists r. split; [done|lia].
  - intros x y Hx Hy. apply Hread; try lia. left. right. right.
    destruct (in_block_between p q r r' x Hr Hr' Hx) as (k & Hk & Hkx).
    exists k, q. split; [by apply Hsup|]. split; [done|].
    exists r'. split; [done|lia].
Qed.

(** *** The between-block phase *)

Lemma between_done_next_row Q p p' q' :
  (p < Q)%nat →
  (between_done Q (Z.of_nat p) p' q' ∨ (p' = p ∧ q' = Q))
  ↔ between_done Q (Z.of_nat p - 1) p' q'.
Proof. unfold between_done. lia. Qed.

Lemma between_done_next_col Q p' q' :
  between_done Q (-1) p' q' ↔ between_done (S Q) (Z.of_nat (S Q) - 1) p' q'.
Proof. unfold between_done. lia. Qed.

(** One block column: lines 84-97. *)
Lemma between_column_ok W st Q r' :
  pairs !! Q = Some r' →
  (∀ p r i j, pairs !! p = Some r → r.1 <= i → i < j → j < r.2 → W i j) →
  engine_inv T n pairs W (between_done Q (Z.of_nat Q - 1)) st →
  ∃ st', for_in (range_down (Z.of_nat Q - 1) (-1))
                (between_pair T pairs (Z.of_nat Q) r'.1 r'.2) st = Ok st'
         ∧ writes st' = writes st
                        ++ (i ← range_down (Z.of_nat Q - 1) (-1);
                            pair_cells pairs (Z.of_nat Q) i)
         ∧ engine_inv T n pairs W (between_done Q (-1)) st'.
Proof.
  intros Hr' HWall Hinv.
  destruct (for_in_traced
              (fun k s => engine_inv T n pairs W
                            (between_done Q (Z.of_nat Q - 1 - Z.of_nat k)) s)
              (fun i => pair_cells pairs (Z.of_nat Q) i)
              (range_down (Z.of_nat Q - 1) (-1))
              (between_pair T pairs (Z.of_nat Q) r'.1 r'.2) st)
    as (st' & Hrun & Hw & Hend).
  - by rewrite Z.sub_0_r.
  - intros k i s [-> Hk]%lookup_range_down Hs.
    assert (∃ p, Z.of_nat Q - 1 - Z.of_nat k = Z.of_nat p ∧ (p < Q)%nat)
      as (p & Hp & HpQ) by (exists (Q - 1 - k)%nat; lia).
    rewrite Hp in *.
    destruct (lookup_lt_is_Some_2 pairs p) as [r Hr].
    { apply lookup_lt_Some in Hr'. lia. }
    destruct (between_pair_step W _ s p Q r r' Hs HpQ Hr Hr')
      as (s' & Hb & Hw' & Hs').
    + unfold between_done. lia.
    + intros i j. by apply (HWall p r).
    + intros i j. by apply (HWall Q r').
    + intros k' Hk'. unfold between_done. lia.
    + exists s'. split; [done|]. split; [done|].
      eapply engine_inv_equiv; [done| |exact Hs'].
      intros p' q'. rewrite between_done_next_row by done.
      replace (Z.of_nat Q - 1 - Z.of_nat (S k)) with (Z.of_nat p - 1) by lia.
      done.
  - exists st'. split; [done|]. split; [done|].
    rewrite length_range_down in Hend.
    replace (Z.of_nat Q - 1 - Z.of_nat (Z.to_nat (Z.of_nat Q - 1 - -1)))
      with (-1) in Hend by lia.
    done.
Qed.

(** The between-block phase: lines 82-97. *)
Lemma between_blocks_ok W st :
  (∀ p r i j, pairs !! p = Some r → r.1 <= i → i < j → j < r.2 → W i j) →
  engine_inv T n pairs W (fun _ _ => False) st →
  ∃ st', between_blocks T pairs (Z.of_nat (length pairs)) st = Ok st'
         ∧ writes st' = writes st ++ between_trace pairs (Z.of_nat (length pairs))
         ∧ engine_inv T n pairs W
             (fun p q => (p < q)%nat ∧ (q < length pairs)%nat) st'.
Proof.
  intros HWall Hinv. unfold between_blocks, between_trace.
  destruct (for_in_traced
              (fun k s => engine_inv T n pairs W
                            (between_done k (Z.of_nat k - 1)) s)
              (fun j => i ← range_down (j - 1) (-1); pair_cells pairs j i)
              (range_up 0 (Z.of_nat (length pairs)))
              (fun j st =>
                 jj <- list_getitem pairs j ;;
                 for_in (range_down (j - 1) (-1))
                        (between_pair T pairs j jj.1 jj.2) st)
              st) as (st' & Hrun & Hw & Hend).
  - eapply engine_inv_equiv; [done| |exact Hinv].
    intros p q. unfold between_done. lia.
  - intros k j s [-> Hk]%lookup_range_up Hs. rewrite Z.add_0_l in *.
    destruct (lookup_lt_is_Some_2 pairs k) as [r' Hr']; [lia|].
    rewrite (list_getitem_in_range pairs (Z.of_nat k) r')
      by (lia || by rewrite Nat2Z.id).
    simpl.
    destruct (between_column_ok W s k r' Hr' HWall Hs) as (s' & Hb & Hw' & Hs').
    exists s'. split; [done|]. split; [done|].
    eapply engine_inv_equiv; [done| |exact Hs'].
    intros p q. apply between_done_next_col.
  - exists st'. split; [done|]. split; [done|].
    rewrite length_range_up in Hend.
    eapply engine_inv_equiv; [done| |exact Hend].
    intros p q. unfold between_done. lia.
Qed.
End EngineFacts.

(** ** The partition computed by the engine *)

Lemma block_partition_spec (n blocksize : Z) :
  0 <= n → blocksize ≠ 0 →
  let nb := Z.max (n / blocksize) 1 in
  block_partition n blocksize
  = Ok (nb, blocks_from 0 (n / nb) (nb - n mod nb)
            ++ blocks_from ((nb - n mod nb) * (n / nb)) (n / nb + 1) (n mod nb)).
Proof.
  intros Hn Hb nb.
  destruct (blocking_of_facts n blocksize Hn Hb)
    as (b & Hbl & Hnb & Hbs & Hnl & Hbl' & Hns & H1 & Hbs0 & Hnl0 & Hsum).
  unfold block_partition. rewrite Hbl. simpl.
  rewrite bool_decide_eq_false_2 by (intros Hne; apply Hne, Hsum).
  rewrite start_stop_pairs_closed.
  rewrite Z.max_r by lia. fold nb in Hnb.
  rewrite Hbl', Hns, Hnl, Hbs, Hnb. done.
Qed.

(** With two blocks or more, no block is empty. *)
Lemma block_partition_nonempty (n blocksize nb : Z) (pairs : list (Z * Z)) :
  0 <= n → blocksize ≠ 0 → block_partition n blocksize = Ok (nb, pairs) →
  (2 <= length pairs)%nat → ∀ k r, pairs !! k = Some r → r.1 < r.2.
Proof.
  intros Hn Hb Hp Hlen k r Hr.
  rewrite (block_partition_spec n blocksize Hn Hb) in Hp. simplify_eq.
  set (nb := Z.max (n / blocksize) 1) in *.
  pose proof (Z.mod_pos_bound n nb ltac:(lia)) as Hmod.
  rewrite length_app, !length_blocks_from in Hlen.
  assert (2 <= nb) as Hnb by lia.
  assert (0 < blocksize) as Hbpos.
  { destruct (decide (0 < blocksize)); [done|].
    assert (n / blocksize <= 0); [|lia].
    pose proof (Z.div_mod n blocksize Hb).
    pose proof (Z.mod_neg_bound n blocksize ltac:(lia)). nia. }
  assert (nb <= n) as Hle.
  { unfold nb in *. assert (n / blocksize <= n); [|lia].
    apply Z.div_le_upper_bound; [done|]. nia. }
  assert (1 <= n / nb) as Hsz.
  { apply Z.div_le_lower_bound; lia. }
  assert (block_size r = n / nb ∨ block_size r = n / nb + 1) as Hsize.
  { apply list_elem_of_lookup_2, elem_of_app in Hr as [Hr|Hr].
    - left. by apply (proj1 (Forall_forall _ _)
                             (Forall_blocks_from_size _ _ _) _ Hr).
    - right. by apply (proj1 (Forall_forall _ _)
                              (Forall_blocks_from_size _ _ _) _ Hr). }
  unfold block_size in Hsize. lia.
Qed.

(** ** The engine on a square input *)

Section EngineRuns.
Context `{DT : Dtype} `{LP : !Lapack}.
Variables (T : matrix) (n blocksize : Z).
Hypothesis HT : square n T.
Hypothesis Hblocksize : blocksize ≠ 0.

(** The state after the within-block phase. *)
Lemma sqrtm_triu_within_ok :
  ∃ nb pairs stw,
    block_partition n blocksize = Ok (nb, pairs)
    ∧ chain 0 pairs n
    ∧ Z.of_nat (length pairs) = nb
    ∧ sqrtm_triu_within T blocksize = Ok stw
    ∧ writes stw = diag_trace n ++ within_trace pairs
    ∧ engine_inv T n pairs
        (fun i j => i < j ∧ ∃ p, in_block pairs p i ∧ in_block pairs p j)
        (fun _ _ => False) stw.
Proof.
  pose proof (square_nonneg _ _ HT) as Hn.
  destruct (block_partition_chain n blocksize Hn Hblocksize)
    as (pairs & Hp & Hlen & Hch).
  destruct (seed_diagonal_ok T n pairs HT) as (st0 & Hseed & Hw0 & Hinv0).
  destruct (within_blocks_ok T n pairs HT Hch _ st0 Hinv0)
    as (stw & Hwithin & Hww & Hinvw).
  exists (Z.max (n / blocksize) 1), pairs, stw.
  split; [done|]. split; [done|]. split; [done|].
  split; [|split; [by rewrite Hww, Hw0|done]].
  unfold sqrtm_triu_within. rewrite Hseed. simpl.
  rewrite (square_ncols _ _ HT), Hp. done.
Qed.

(** The state returned by the engine. *)
Lemma sqrtm_triu_traced_ok :
  solver_keeps_shape →
  ∃ nb pairs stw stf,
    block_partition n blocksize = Ok (nb, pairs)
    ∧ chain 0 pairs n
    ∧ Z.of_nat (length pairs) = nb
    ∧ sqrtm_triu_within T blocksize = Ok stw
    ∧ sqrtm_triu_traced T blocksize = Ok stf
    ∧ writes stf = diag_trace n ++ within_trace pairs ++ between_trace pairs nb
    ∧ engine_inv T n pairs
        (fun i j => i < j ∧ ∃ p, in_block pairs p i ∧ in_block pairs p j)
        (fun p q => (p < q)%nat ∧ (q < length pairs)%nat) stf.
Proof.
  intros Hsolver.
  pose proof (square_nonneg _ _ HT) as Hn.
  destruct sqrtm_triu_within_ok as (nb & pairs & stw & Hp & Hch & Hlen & Hw & Hww & Hinvw).
  destruct (between_blocks_ok T n pairs HT Hch Hsolver
              (block_partition_nonempty n blocksize nb pairs Hn Hblocksize Hp)
              (fun i j => i < j ∧ ∃ p, in_block pairs p i ∧ in_block pairs p j)
              stw) as (stf & Hb & Hwf & Hinvf); [|exact Hinvw|].
  { intros p r i j Hr Hi Hij Hj. split; [done|]. exists p.
    split; exists r; (split; [done|lia]). }
  exists nb, pairs, stw, stf.
  split; [done|]. split; [done|]. split; [done|]. split; [done|].
  split; [|split; [by rewrite Hwf, Hww, Hlen, <- app_assoc|done]].
  revert Hw. unfold sqrtm_triu_within, sqrtm_triu_traced.
  destruct (seed_diagonal T) as [st0|]; simpl; [|done].
  rewrite (square_ncols _ _ HT), Hp. simpl. intros ->. simpl.
  by rewrite <- Hlen.
Qed.
End EngineRuns.

(** What the invariant says of a state: its own entries satisfy the facts. *)
Lemma engine_inv_facts `{DT : Dtype} `{LP : !Lapack} (T : matrix) (n : Z)
      (pairs : list (Z * Z)) (W : Z -> Z -> Prop) (B : nat -> nat -> Prop)
      (st : traced) :
  engine_inv T n pairs W B st → facts T n pairs W B (arr st).
Proof.
  intros (Hsq & _ & _ & _ & _ & _ & Hfacts). apply Hfacts; [done|].
  by intros i j _ _ _.
Qed.

(** At the end, the assigned positions are exactly those on or above the
    diagonal. *)
Lemma engine_inv_final_writes `{DT : Dtype} `{LP : !Lapack} (T : matrix) (n : Z)
      (pairs : list (Z * Z)) (st : traced) (i j : Z) :
  chain 0 pairs n →
  engine_inv T n pairs
    (fun i j => i < j ∧ ∃ p, in_block pairs p i ∧ in_block pairs p j)
    (fun p q => (p < q)%nat ∧ (q < length pairs)%nat) st →
  (i, j) ∈ writes st ↔ 0 <= i ∧ i <= j ∧ j < n.
Proof.
  intros Hch Hinv. split; [by eapply (engine_inv_upper T n pairs Hch)|].
  intros (Hi & Hij & Hj).
  destruct Hinv as (_ & _ & _ & _ & Hmem & _). apply Hmem.
  destruct (decide (i = j)) as [->|Hne]; [left; lia|]. right.
  destruct (in_block_cover n pairs Hch i) as (p & Hp); [lia|].
  destruct (in_block_cover n pairs Hch j) as (q & Hq); [lia|].
  destruct (Nat.lt_trichotomy p q) as [Hlt|[->|Hlt]].
  - right. exists p, q. split; [|done]. split; [done|].
    destruct Hq as (r & Hr & _). by apply lookup_lt_Some in Hr.
  - left. split; [lia|]. by exists q.
  - pose proof (in_block_lt n pairs Hch _ _ _ _ Hq Hp Hlt). lia.
Qed.

(** ** The block partition: sizes, order and coverage *)

Lemma chain_head (a b : Z) (l : list (Z * Z)) (p : Z * Z) :
  chain a l b → l !! 0%nat = Some p → p.1 = a.
Proof. destruct l as [|q l]; simpl; [done|]. intros (? & _) [= ->]. done. Qed.

(** C4: for N >= 1 and blocksize >= 1 the partition has
    nblocks = max(N div blocksize, 1) >= 1 contiguous half-open ranges that
    cover [0, N) without overlap; the ranges of size floor(N/nblocks) come
    first and are followed by exactly N mod nblocks ranges of size
    floor(N/nblocks) + 1; the sizes sum to N. *)
Theorem block_partition_two_sizes (n blocksize : Z) :
  1 <= n → 1 <= blocksize →
  let nb := Z.max (n / blocksize) 1 in
  ∃ smalls larges : list (Z * Z),
    let pairs := smalls ++ larges in
    block_partition n blocksize = Ok (nb, pairs)
    ∧ 1 <= nb
    ∧ Z.of_nat (length pairs) = nb
    ∧ Z.of_nat (length larges) = n mod nb
    ∧ Forall (fun p => block_size p = n / nb) smalls
    ∧ Forall (fun p => block_size p = n / nb + 1) larges
    ∧ (∀ p, pairs !! 0%nat = Some p → p.1 = 0)
    ∧ (∀ k p p', pairs !! k = Some p → pairs !! S k = Some p' → p'.1 = p.2)
    ∧ (∀ p, last pairs = Some p → p.2 = n)
    ∧ (∀ p, p ∈ pairs → p.1 < p.2)
    ∧ (∀ x, 0 <= x < n →
         ∃ k p, pairs !! k = Some p ∧ p.1 <= x < p.2
                ∧ ∀ k' p', pairs !! k' = Some p' → p'.1 <= x < p'.2 → k' = k)
    ∧ foldr Z.add 0 (block_size <$> pairs) = n.
Proof.
  intros Hn Hb nb.
  assert (1 <= nb) as Hnb by (unfold nb; lia).
  pose proof (Z.mod_pos_bound n nb ltac:(lia)) as Hmod.
  assert (nb <= n) as Hle.
  { unfold nb. assert (n / blocksize <= n); [|lia].
    apply Z.div_le_upper_bound; [lia|nia]. }
  assert (1 <= n / nb) as Hsz by (apply Z.div_le_lower_bound; lia).
  exists (blocks_from 0 (n / nb) (nb - n mod nb)),
         (blocks_from ((nb - n mod nb) * (n / nb)) (n / nb + 1) (n mod nb)).
  cbn zeta.
  pose proof (block_partition_spec n blocksize ltac:(lia) ltac:(lia)) as Hspec.
  cbn zeta in Hspec. fold nb in Hspec.
  destruct (block_partition_chain n blocksize ltac:(lia) ltac:(lia))
    as (pairs & Hp & Hlen & Hch).
  fold nb in Hp, Hlen. rewrite Hspec in Hp. injection Hp as <-.
  split; [done|]. split; [done|]. split; [done|].
  split; [rewrite length_blocks_from; lia|].
  split; [apply Forall_blocks_from_size|].
  split; [apply Forall_blocks_from_size|].
  split; [intros p; apply (chain_head _ _ _ _ Hch)|].
  split; [intros k p p'; apply (chain_next _ _ _ _ _ _ Hch)|].
  split; [intros p; apply (chain_last _ _ _ _ Hch)|].
  split.
  { intros p [Hp|Hp]%elem_of_app.
    - pose proof (proj1 (Forall_forall _ _) (Forall_blocks_from_size _ _ _) _ Hp)
        as Hs. simpl in Hs. unfold block_size in Hs. lia.
    - pose proof (proj1 (Forall_forall _ _) (Forall_blocks_from_size _ _ _) _ Hp)
        as Hs. simpl in Hs. unfold block_size in Hs. lia. }
  split.
  { intros x Hx. destruct (chain_cover _ _ x _ Hch Hx) as (k & p & Hk & Hp).
    exists k, p. split; [done|]. split; [done|].
    intros k' p' Hk' Hp'. by apply (chain_unique _ _ x _ _ _ _ _ Hch Hk' Hk). }
  rewrite (chain_sum _ _ _ Hch). lia.
Qed.

Lemma block_partition_two_sizes_witness :
  ∃ smalls larges : list (Z * Z),
    block_partition 11 3 = Ok (3, smalls ++ larges)
    ∧ Z.of_nat (length larges) = 2
    ∧ Forall (fun p => block_size p = 3) smalls
    ∧ Forall (fun p => block_size p = 4) larges.
Proof.
  destruct (block_partition_two_sizes 11 3 ltac:(lia) ltac:(lia))
    as (smalls & larges & H1 & _ & _ & H4 & H5 & H6 & _).
  exists smalls, larges. split; [exact H1|]. split; [exact H4|].
  split; [exact H5|exact H6].
Defined.

(** ** The exceptions of the engine *)

(** A failing [rbind] fails in its first or in its second part. *)
Ltac raise_cases H :=
  apply rbind_Raise in H; destruct H as [H|(? & _ & H)].

Section EngineExceptions.
Context `{DT : Dtype} `{LP : !Lapack}.
Implicit Types (M T : matrix) (st : traced) (e : exn).

Lemma getitem_Raise M i j e : getitem M i j = Raise e → e = IndexError.
Proof.
  unfold getitem. intros H.
  raise_cases H; [by apply py_index_Raise in H|].
  raise_cases H; [by apply py_index_Raise in H|done].
Qed.

Lemma getrow_Raise M i a b e : getrow M i a b = Raise e → e = IndexError.
Proof.
  unfold getrow. intros H. raise_cases H; [by apply py_index_Raise in H|done].
Qed.

Lemma getcol_Raise M a b j e : getcol M a b j = Raise e → e = IndexError.
Proof.
  unfold getcol. intros H. raise_cases H; [by apply py_index_Raise in H|done].
Qed.

Lemma setitem_Raise st i j v e : setitem st i j v = Raise e → e = IndexError.
Proof.
  unfold setitem. intros H.
  raise_cases H; [by apply py_index_Raise in H|].
  raise_cases H; [by apply py_index_Raise in H|done].
Qed.

Lemma setblock_Raise st a b c d (V : matrix) e :
  setblock st a b c d V = Raise e → ∃ msg, e = ValueError msg.
Proof. unfold setblock. case_bool_decide; [done|]. intros [= <-]. eauto. Qed.

Lemma within_entry_Raise T j i st e :
  within_entry T j i st = Raise e → e = IndexError.
Proof.
  unfold within_entry. intros H. raise_cases H.
  - case_bool_decide; [|done].
    raise_cases H; [by apply getrow_Raise in H|].
    raise_cases H; [by apply getcol_Raise in H|done].
  - raise_cases H; [by apply getitem_Raise in H|].
    raise_cases H; [by apply getitem_Raise in H|].
    raise_cases H; [by apply getitem_Raise in H|].
    by apply setitem_Raise in H.
Qed.

Lemma within_blocks_Raise T pairs st e :
  within_blocks T pairs st = Raise e → e = IndexError.
Proof.
  unfold within_blocks.
  intros (p & s1 & _ & H)%for_in_Raise.
  apply for_in_Raise in H as (j & s2 & _ & H2).
  apply for_in_Raise in H2 as (i & s3 & _ & H3).
  by apply within_entry_Raise in H3.
Qed.

Lemma between_blocks_Raise T pairs nb st e :
  between_blocks T pairs nb st = Raise e → index_or_value_error e.
Proof.
  unfold between_blocks. intros (j & s1 & _ & H)%for_in_Raise.
  raise_cases H; [left; by apply list_getitem_Raise in H|].
  apply for_in_Raise in H as (i & s2 & _ & H2).
  unfold between_pair in H2.
  raise_cases H2; [left; by apply list_getitem_Raise in H2|].
  right. by apply setblock_Raise in H2.
Qed.

Lemma seed_diagonal_Raise T e :
  seed_diagonal T = Raise e → index_or_value_error e.
Proof.
  unfold seed_diagonal, set_diag. case_bool_decide as Hlen.
  - intros (k & s & _ & H)%for_in_Raise. left.
    raise_cases H; [by apply py_index_Raise in H|].
    raise_cases H; [by apply py_index_Raise in H|done].
  - intros [= <-]. right. eauto.
Qed.

(** With a partition at hand, the engine only fails through indexing or
    assignment. *)
Lemma sqrtm_triu_traced_Raise T blocksize e :
  (∃ p, block_partition (Z.of_nat (ncols T)) blocksize = Ok p) →
  sqrtm_triu_traced T blocksize = Raise e → index_or_value_error e.
Proof.
  intros (p & Hp). unfold sqrtm_triu_traced. intros H.
  raise_cases H; [by apply seed_diagonal_Raise in H|].
  rewrite Hp in H. simpl in H.
  raise_cases H; [left; by apply within_blocks_Raise in H|].
  by apply between_blocks_Raise in H.
Qed.
End EngineExceptions.

(** C7: for N >= 0 and blocksize >= 1 the quantities of lines 58-60 satisfy
    nsmall*bsmall + nlarge*blarge = N, so the partition is produced and the
    engine never raises the 'internal inconsistency' exception: whatever it
    raises comes from indexing or assignment. *)
Theorem consistency_check_never_fires (n blocksize : Z) :
  0 <= n → 1 <= blocksize →
  (∃ b, blocking_of n blocksize = Ok b
        ∧ nsmall b * bsmall b + nlarge b * blarge b = n)
  ∧ (∃ p, block_partition n blocksize = Ok p)
  ∧ (∀ (DT : Dtype) (LP : Lapack) (T : matrix) (e : exn),
       Z.of_nat (ncols T) = n → _sqrtm_triu T blocksize = Raise e →
       index_or_value_error e ∧ e ≠ Exception "internal inconsistency").
Proof.
  intros Hn Hb.
  destruct (blocking_of_facts n blocksize Hn ltac:(lia))
    as (b & Hbl & _ & _ & _ & _ & _ & _ & _ & _ & Hsum).
  split; [by exists b|].
  assert (∃ p, block_partition n blocksize = Ok p) as Hp.
  { rewrite (block_partition_spec n blocksize Hn ltac:(lia)). eauto. }
  split; [done|].
  intros DT LP T e <- Hraise.
  assert (index_or_value_error e) as He.
  { unfold _sqrtm_triu in Hraise.
    raise_cases Hraise; [|done].
    by apply (sqrtm_triu_traced_Raise T blocksize). }
  split; [done|]. by intros ->; destruct He as [?|[? ?]].
Qed.

Lemma consistency_check_never_fires_witness :
  ∃ p, block_partition 11 3 = Ok p.
Proof.
  destruct (consistency_check_never_fires 11 3 ltac:(lia) ltac:(lia))
    as (_ & Hp & _).
  exact Hp.
Defined.

(** ** The order of the block pairs *)

Lemma fmap_bind_list {A X Y : Type} (f : A -> X) (g : X -> list Y) (l : list A) :
  (f <$> l) ≫= g = l ≫= (fun x => g (f x)).
Proof.
  induction l as [|x l IH]; [done|]. by rewrite fmap_cons, !bind_cons, IH.
Qed.

Lemma bind_bind_list {A X Y : Type} (f : A -> list X) (g : X -> list Y)
      (l : list A) :
  (l ≫= f) ≫= g = l ≫= (fun x => f x ≫= g).
Proof.
  induction l as [|x l IH]; [done|]. by rewrite !bind_cons, bind_app, IH.
Qed.

Lemma between_trace_order (pairs : list (Z * Z)) (nb : Z) :
  between_trace pairs nb = (ji ← between_order nb; pair_cells pairs ji.1 ji.2).
Proof.
  unfold between_trace, between_order. rewrite bind_bind_list.
  apply list_bind_ext; [|done]. intros j. by rewrite fmap_bind_list.
Qed.

Lemma between_order_S (m : nat) :
  between_order (Z.of_nat (S m)) =
    between_order (Z.of_nat m)
    ++ ((fun i => (Z.of_nat m, i)) <$> range_down (Z.of_nat m - 1) (-1)).
Proof.
  unfold between_order, range_up. rewrite !Z.sub_0_r, seqZ_S, bind_app.
  by rewrite bind_singleton, Z.add_0_l.
Qed.

Lemma elem_of_between_order (nb j i : Z) :
  (j, i) ∈ between_order nb ↔ 0 <= i ∧ i < j ∧ j < nb.
Proof.
  unfold between_order. rewrite list_elem_of_bind. split.
  - intros (j' & Hin & Hj'). apply list_elem_of_fmap in Hin as (i' & [= -> ->] & Hi').
    apply elem_of_range_up in Hj'. apply elem_of_range_down in Hi'. lia.
  - intros (Hi & Hij & Hj). exists j. split.
    + apply list_elem_of_fmap. exists i. split; [done|].
      apply elem_of_range_down. lia.
    + apply elem_of_range_up. lia.
Qed.

(** Earlier pairs have a smaller [j], or the same [j] and a larger [i]. *)
Lemma between_order_sorted (nb : Z) (a b : nat) (ja ia jb ib : Z) :
  (a < b)%nat →
  between_order nb !! a = Some (ja, ia) → between_order nb !! b = Some (jb, ib) →
  ja < jb ∨ (ja = jb ∧ ib < ia).
Proof.
  destruct (decide (nb <= 0)) as [Hle|Hgt].
  { unfold between_order, range_up. rewrite seqZ_nil by lia. done. }
  rewrite <- (Z2Nat.id nb) by lia. generalize (Z.to_nat nb). clear.
  intros m. revert a b ja ia jb ib.
  induction m as [|m IH]; intros a b ja ia jb ib Hab Ha Hb.
  { unfold between_order, range_up in Ha. by rewrite seqZ_nil in Ha. }
  rewrite between_order_S in Ha, Hb.
  set (old := between_order (Z.of_nat m)) in *.
  set (col := (fun i => (Z.of_nat m, i)) <$> range_down (Z.of_nat m - 1) (-1)) in *.
  destruct (decide (b < length old)%nat) as [Hb'|Hb'].
  - rewrite lookup_app_l in Ha, Hb by lia. by apply (IH a b).
  - rewrite lookup_app_r in Hb by lia.
    unfold col in Hb. rewrite list_lookup_fmap in Hb.
    destruct (range_down (Z.of_nat m - 1) (-1) !! (b - length old)%nat)
      as [ib'|] eqn:Hib; simpl in Hb; [|done].
    injection Hb as <- <-. apply lookup_range_down in Hib as [Hib _].
    destruct (decide (a < length old)%nat) as [Ha'|Ha'].
    + rewrite lookup_app_l in Ha by lia. left.
      apply list_elem_of_lookup_2, elem_of_between_order in Ha. lia.
    + rewrite lookup_app_r in Ha by lia.
      unfold col in Ha. rewrite list_lookup_fmap in Ha.
      destruct (range_down (Z.of_nat m - 1) (-1) !! (a - length old)%nat)
        as [ia'|] eqn:Hia; simpl in Ha; [|done].
      injection Ha as <- <-. apply lookup_range_down in Hia as [Hia _].
      right. split; [done|]. lia.
Qed.

(** ** The integer instance satisfies the assumptions *)

Lemma shape_imap_imap {A X : Type} (f : nat -> nat -> A -> X) (S : list (list A)) :
  length <$> imap (fun r row => imap (f r) row) S = length <$> S.
Proof.
  apply list_eq. intros k. rewrite !list_lookup_fmap, list_lookup_imap.
  destruct (S !! k) as [row|]; simpl; [|done]. by rewrite length_imap.
Qed.

Lemma diag_solver_keeps_shape :
  @solver_keeps_shape IntModel.int_dtype IntModel.int_lapack.
Proof. intros Rii Rjj S. apply shape_imap_imap. Qed.

Lemma T4_square : @square IntModel.int_dtype 4 IntModel.T4.
Proof. split; [done|]. repeat constructor. Qed.

(** ** The within-block phase *)

(** C5: for a square T and blocksize >= 1 the within-block phase runs to
    completion; it assigns the diagonal and then, block by block, column j
    from start to stop-1 and row i from j-1 down to start; afterwards
    R[i,i] = sqrt(T[i,i]) and, inside each block,
    R[i,j] = (T[i,j] - s) / (R[i,i] + R[j,j]) with s the inner product of
    R[i, i+1:j] and R[i+1:j, j], zero when j - i <= 1.  The same holds of
    the array that the engine returns. *)
Theorem within_block_recurrence `{DT : Dtype} `{LP : !Lapack}
        (T : matrix) (n blocksize : Z) :
  square n T → 1 <= blocksize →
  ∃ nb pairs stw,
    block_partition n blocksize = Ok (nb, pairs)
    ∧ sqrtm_triu_within T blocksize = Ok stw
    ∧ writes stw = diag_trace n ++ within_trace pairs
    ∧ within_recurrence T n pairs (arr stw)
    ∧ (solver_keeps_shape →
       ∃ R, _sqrtm_triu T blocksize = Ok R ∧ within_recurrence T n pairs R).
Proof.
  intros HT Hb.
  assert (∀ pairs B st,
            engine_inv T n pairs
              (fun i j => i < j ∧ ∃ p, in_block pairs p i ∧ in_block pairs p j)
              B st →
            within_recurrence T n pairs (arr st)) as Hrec.
  { intros pairs B st Hinv.
    destruct (engine_inv_facts _ _ _ _ _ _ Hinv) as (F1 & F2 & _).
    split; [done|].
    intros start stop i j Hin Hi Hij Hj.
    apply list_elem_of_lookup_1 in Hin as (p & Hp).
    apply (F2 i j). split; [done|]. exists p.
    split; exists (start, stop); (split; [done|simpl; lia]). }
  destruct (sqrtm_triu_within_ok T n blocksize HT ltac:(lia))
    as (nb & pairs & stw & Hp & Hch & Hlen & Hw & Hww & Hinvw).
  exists nb, pairs, stw.
  split; [done|]. split; [done|]. split; [done|].
  split; [by eapply Hrec|].
  intros Hsolver.
  destruct (sqrtm_triu_traced_ok T n blocksize HT ltac:(lia) Hsolver)
    as (nb' & pairs' & stw' & stf & Hp' & _ & _ & _ & Hf & _ & Hinvf).
  rewrite Hp in Hp'. injection Hp' as <- <-.
  exists (arr stf). split; [|by eapply Hrec].
  unfold _sqrtm_triu. by rewrite Hf.
Qed.

Lemma within_block_recurrence_witness :
  ∃ stw, @sqrtm_triu_within IntModel.int_dtype IntModel.T4 2 = Ok stw
         ∧ @ent IntModel.int_dtype (arr stw) 0 1 = 1.
Proof.
  destruct (@within_block_recurrence IntModel.int_dtype IntModel.int_lapack
              IntModel.T4 4 2 T4_square ltac:(lia))
    as (nb & pairs & stw & Hp & Hw & _ & [Hd Hr] & _).
  exists stw. split; [exact Hw|].
  injection Hp as <- <-.
  rewrite (Hr 0 2 0 1); [|by left|lia..].
  rewrite (Hd 0), (Hd 1) by lia. reflexivity.
Defined.

(** ** The between-block phase *)

(** C6: for a square T, blocksize >= 1 and a solver that keeps the shape of
    its right-hand side, the engine returns; after the diagonal and the
    diagonal blocks it assigns the blocks of the pairs (i, j) in increasing
    j and, for fixed j, decreasing i from j-1 to 0; in the result each such
    block is x * scale, where (x, scale, info) is the solver's answer for
    Rii, Rjj and the right-hand side S = T[block_i rows, block_j cols],
    from which R[block_i rows, intermediate cols] . R[intermediate rows,
    block_j cols] is subtracted exactly when j - i > 1. *)
Theorem between_block_solution `{DT : Dtype} `{LP : !Lapack}
        (T : matrix) (n blocksize : Z) :
  square n T → 1 <= blocksize → solver_keeps_shape →
  ∃ nb pairs st,
    block_partition n blocksize = Ok (nb, pairs)
    ∧ sqrtm_triu_traced T blocksize = Ok st
    ∧ writes st = diag_trace n ++ within_trace pairs
                  ++ (ji ← between_order nb; pair_cells pairs ji.1 ji.2)
    ∧ (∀ j i, (j, i) ∈ between_order nb ↔ 0 <= i ∧ i < j ∧ j < nb)
    ∧ (∀ a b ja ia jb ib,
         (a < b)%nat → between_order nb !! a = Some (ja, ia) →
         between_order nb !! b = Some (jb, ib) →
         ja < jb ∨ (ja = jb ∧ ib < ia))
    ∧ (∀ (i j : nat) (ri rj : Z * Z),
         (i < j)%nat → pairs !! i = Some ri → pairs !! j = Some rj →
         let R := arr st in
         let S0 := getblock T ri.1 ri.2 rj.1 rj.2 in
         let S := if bool_decide (Z.of_nat j - Z.of_nat i > 1)
                  then mat_sub S0 (mat_dot (getblock R ri.1 ri.2 ri.2 rj.1)
                                           (getblock R ri.2 rj.1 rj.1 rj.2))
                  else S0 in
         let xsi := ztrsyl (getblock R ri.1 ri.2 ri.1 ri.2)
                           (getblock R rj.1 rj.2 rj.1 rj.2) S in
         getblock R ri.1 ri.2 rj.1 rj.2 = mat_scale xsi.1.1 xsi.1.2).
Proof.
  intros HT Hb Hsolver.
  destruct (sqrtm_triu_traced_ok T n blocksize HT ltac:(lia) Hsolver)
    as (nb & pairs & stw & stf & Hp & Hch & Hlen & _ & Hf & Hwf & Hinvf).
  exists nb, pairs, stf.
  split; [done|]. split; [done|].
  split; [by rewrite Hwf, between_trace_order|].
  split; [intros j i; apply elem_of_between_order|].
  split; [apply between_order_sorted|].
  intros i j ri rj Hij Hri Hrj.
  destruct (engine_inv_facts _ _ _ _ _ _ Hinvf) as (_ & _ & F3).
  apply (F3 i j ri rj); [|done..].
  split; [done|]. by apply lookup_lt_Some in Hrj.
Qed.

Lemma between_block_solution_witness :
  ∃ st, @sqrtm_triu_traced IntModel.int_dtype IntModel.int_lapack IntModel.T4 2
        = Ok st
        ∧ @getblock IntModel.int_dtype (arr st) 0 2 2 4 = [[0; 1]; [0; 0]].
Proof.
  destruct (@between_block_solution IntModel.int_dtype IntModel.int_lapack
              IntModel.T4 4 2 T4_square ltac:(lia) diag_solver_keeps_shape)
    as (nb & pairs & st & Hp & Hst & _ & _ & _ & _).
  exists st. split; [exact Hst|].
  vm_compute in Hst. injection Hst as <-. reflexivity.
Defined.

(** ** The accumulator is upper triangular and assigned once *)

(** C8: for a square T, blocksize >= 1 and a solver that keeps the shape of
    its right-hand side, the engine returns an N x N array R whose entries
    strictly below the diagonal are the initial zero and are never assigned;
    the trace of the assignments made by the three phases has no repeated
    position and contains exactly the positions on or above the diagonal. *)
Theorem accumulator_upper_assigned_once `{DT : Dtype} `{LP : !Lapack}
        (T : matrix) (n blocksize : Z) :
  square n T → 1 <= blocksize → solver_keeps_shape →
  ∃ nb pairs st,
    block_partition n blocksize = Ok (nb, pairs)
    ∧ sqrtm_triu_traced T blocksize = Ok st
    ∧ _sqrtm_triu T blocksize = Ok (arr st)
    ∧ square n (arr st)
    ∧ writes st = diag_trace n ++ within_trace pairs ++ between_trace pairs nb
    ∧ NoDup (writes st)
    ∧ (∀ i j, (i, j) ∈ writes st ↔ 0 <= i ∧ i <= j ∧ j < n)
    ∧ (∀ i j, 0 <= j → j < i → i < n →
              ((i, j) ∉ writes st) ∧ ent (arr st) i j = czero).
Proof.
  intros HT Hb Hsolver.
  destruct (sqrtm_triu_traced_ok T n blocksize HT ltac:(lia) Hsolver)
    as (nb & pairs & stw & stf & Hp & Hch & Hlen & _ & Hf & Hwf & Hinvf).
  exists nb, pairs, stf.
  split; [done|]. split; [done|].
  split; [unfold _sqrtm_triu; by rewrite Hf|].
  pose proof (engine_inv_final_writes T n pairs stf) as Hmem.
  pose proof Hinvf as (Hsq & Hnd & _ & _ & _ & Hzero & _).
  split; [done|]. split; [done|]. split; [done|].
  split; [intros i j; by apply Hmem|].
  intros i j Hj Hji Hi.
  assert ((i, j) ∉ writes stf) as Hnot.
  { intros Hin. apply Hmem in Hin; [lia|done..]. }
  split; [done|]. apply Hzero; [lia..|done].
Qed.

Lemma accumulator_upper_assigned_once_witness :
  ∃ st, @sqrtm_triu_traced IntModel.int_dtype IntModel.int_lapack IntModel.T4 2
        = Ok st
        ∧ NoDup (writes st)
        ∧ @ent IntModel.int_dtype (arr st) 3 0 = 0.
Proof.
  destruct (@accumulator_upper_assigned_once IntModel.int_dtype IntModel.int_lapack
              IntModel.T4 4 2 T4_square ltac:(lia) diag_solver_keeps_shape)
    as (nb & pairs & st & _ & Hst & _ & _ & _ & Hnd & _ & Hlow).
  exists st. split; [exact Hst|]. split; [exact Hnd|].
  apply (Hlow 3 0); lia.
Defined.

(** ** A single block, and the empty input *)

Lemma between_blocks_single `{DT : Dtype} `{LP : !Lapack}
      (T : matrix) (r : Z * Z) (st : traced) :
  between_blocks T [r] 1 st = Ok st.
Proof. reflexivity. Qed.

(** ** The driver *)

(** The checks of lines 136-139 reject with ValueError, before anything is
    computed and whatever the collaborators, exactly when the input is not
    2-D or blocksize < 1 (a 1-D array and blocksize = 0 are rejected); any
    2-D input with blocksize >= 1 passes them and is handed to the Schur
    factorisation. *)
Theorem sqrtm_checks_dimension_and_blocksize `{DT : Dtype} `{LP : !Lapack}
        `{CO : !Collaborators} (A : ndarray) (disp : bool) (blocksize : Z) :
  ((∃ msg, sqrtm_check (nd_shape A) blocksize = Raise (ValueError msg))
   ↔ length (nd_shape A) ≠ 2%nat ∨ blocksize < 1)
  ∧ (length (nd_shape A) ≠ 2%nat ∨ blocksize < 1 →
     ∃ msg, sqrtm A disp blocksize = Raise (ValueError msg))
  ∧ (length (nd_shape A) = 2%nat → 1 <= blocksize →
     sqrtm_check (nd_shape A) blocksize = Ok tt
     ∧ sqrtm A disp blocksize = sqrtm_compute A disp blocksize)
  ∧ (∀ k, ∃ msg, sqrtm_check [k] blocksize = Raise (ValueError msg))
  ∧ (∃ msg, sqrtm_check (nd_shape A) 0 = Raise (ValueError msg)).
Proof.
  assert (∀ shape bs,
            length shape ≠ 2%nat ∨ bs < 1 →
            ∃ msg, sqrtm_check shape bs = Raise (ValueError msg)) as Hrej.
  { intros shape bs Hbad. unfold sqrtm_check.
    case_bool_decide; [eauto|]. case_bool_decide; [eauto|].
    destruct Hbad; [done|lia]. }
  assert (∀ shape bs,
            length shape = 2%nat → 1 <= bs → sqrtm_check shape bs = Ok tt) as Hacc.
  { intros shape bs Hl Hb. unfold sqrtm_check.
    rewrite bool_decide_eq_false_2 by (intros Hne; by apply Hne).
    by rewrite bool_decide_eq_false_2 by lia. }
  split.
  { split; [|apply Hrej]. intros (msg & Hmsg).
    destruct (decide (length (nd_shape A) = 2%nat)) as [Hl|Hl]; [|by left].
    destruct (decide (1 <= blocksize)) as [Hb|Hb]; [|right; lia].
    rewrite (Hacc _ _ Hl Hb) in Hmsg. done. }
  split.
  { intros Hbad. destruct (Hrej _ _ Hbad) as (msg & Hmsg).
    exists msg. unfold sqrtm. by rewrite Hmsg. }
  split.
  { intros Hl Hb. split; [by apply Hacc|].
    unfold sqrtm. by rewrite (Hacc _ _ Hl Hb). }
  split.
  { intros k. apply Hrej. left. simpl. lia. }
  apply Hrej. right. lia.
Qed.

Lemma sqrtm_checks_dimension_and_blocksize_witness :
  ∃ msg, @sqrtm IntModel.int_dtype IntModel.int_lapack IntModel.int_collaborators
           IntModel.A_vector true 64 = Raise (ValueError msg).
Proof.
  destruct (@sqrtm_checks_dimension_and_blocksize
              IntModel.int_dtype IntModel.int_lapack IntModel.int_collaborators
              IntModel.A_vector true 64) as (_ & H & _).
  apply H. left. simpl. lia.
Defined.

(** Whether a 2-D input is square is not among the checks of lines
    136-139: a 2 x 3 input with blocksize 64 passes them, and its rejection
    is left to the validation that schur makes at line 140. *)
Lemma nonsquare_input_passes_checks :
  sqrtm_check [2; 3] 64 = Ok tt
  ∧ ¬ (∃ msg, sqrtm_check [2; 3] 64 = Raise (ValueError msg)).
Proof. split; [reflexivity|]. intros (msg & Hmsg). discriminate Hmsg. Qed.

(** C1 (the code departs from the claim): with disp true the driver never
    returns.  Line 147 evaluates the name [diag], which the module does not
    bind, so the branch raises NameError instead of printing the advisory
    and returning X; this happens for every input that reaches the branch,
    singular or not. *)
Theorem sqrtm_display_raises_NameError `{DT : Dtype} `{LP : !Lapack}
        `{CO : !Collaborators} (A : ndarray) (blocksize : Z) :
  (∀ T X, sqrtm_display T X = Raise (NameError "diag"))
  ∧ (∃ e, sqrtm A true blocksize = Raise e)
  ∧ (∀ TZ TZ' R,
       sqrtm_check (nd_shape A) blocksize = Ok tt →
       schur A = Ok TZ → rsf2csf TZ.1 TZ.2 = Ok TZ' →
       _sqrtm_triu TZ'.1 blocksize = Ok R →
       sqrtm A true blocksize = Raise (NameError "diag")).
Proof.
  assert (∀ T X, sqrtm_display T X = Raise (NameError "diag")) as Hdisp
    by reflexivity.
  split; [done|]. split.
  - unfold sqrtm, sqrtm_compute.
    destruct (sqrtm_check (nd_shape A) blocksize) as [[]|e]; simpl; [|eauto].
    destruct (schur A) as [TZ|e]; simpl; [|eauto].
    destruct (rsf2csf TZ.1 TZ.2) as [TZ'|e]; simpl; [|eauto].
    destruct (_sqrtm_triu TZ'.1 blocksize) as [R|e]; simpl; [|eauto].
    rewrite Hdisp. eauto.
  - intros TZ TZ' R Hc Hs Hr He. unfold sqrtm, sqrtm_compute.
    rewrite Hc. simpl. rewrite Hs. simpl. rewrite Hr. simpl. rewrite He. simpl.
    apply Hdisp.
Qed.

Lemma sqrtm_display_raises_NameError_witness :
  @sqrtm IntModel.int_dtype IntModel.int_lapack IntModel.int_collaborators
    IntModel.A_diag true 64 = Raise (NameError "diag").
Proof.
  destruct (@sqrtm_display_raises_NameError
              IntModel.int_dtype IntModel.int_lapack IntModel.int_collaborators
              IntModel.A_diag 64) as (_ & _ & H).
  apply (H IntModel.TZ_diag IntModel.TZ_diag IntModel.R_diag); reflexivity.
Defined.

(** The singular input of the specification's example meets the same
    exception, where an advisory line and a result were expected. *)
Example sqrtm_display_on_nilpotent_input :
  @sqrtm IntModel.int_dtype IntModel.int_lapack IntModel.int_collaborators
    IntModel.A_nilpotent true 64 = Raise (NameError "diag").
Proof. reflexivity. Qed.

(** C3 (the code departs from the claim): with disp false the second
    component returned is [norm(X*X - A)**2 / norm(A)]: the norm of the
    residual is squared before the division, so it is not the relative
    residual [norm(X*X - A) / norm(A)] of the documentation. *)
Theorem sqrtm_errest_squares_the_residual `{DT : Dtype} `{LP : !Lapack}
        `{CO : !Collaborators} (A : ndarray) (blocksize : Z) (out : outcome) :
  sqrtm A false blocksize = Ok out →
  ∃ X num den,
    norm_fro (to_ndarray (mat_sub_array (mat_mul X X) A)) = Ok num
    ∧ norm_fro A = Ok den
    ∧ relative_residual A X = Ok (fdiv num den)
    ∧ out = Outcome [] (RetPair X (fdiv (fpow num 2) den)).
Proof.
  unfold sqrtm, sqrtm_compute. intros H.
  apply rbind_Ok in H as (_ & _ & H).
  apply rbind_Ok in H as (TZ & _ & H).
  apply rbind_Ok in H as (TZ' & _ & H).
  apply rbind_Ok in H as (R & _ & H).
  cbn zeta in H. unfold sqrtm_errest in H.
  apply rbind_Ok in H as (num & Hnum & H).
  apply rbind_Ok in H as (den & Hden & H).
  injection H as <-.
  eexists _, num, den. split; [exact Hnum|]. split; [exact Hden|].
  split; [|done]. unfold relative_residual. by rewrite Hnum, Hden.
Qed.

Lemma sqrtm_errest_squares_the_residual_witness :
  ∃ X num den,
    @relative_residual IntModel.int_dtype IntModel.int_collaborators
      IntModel.A_eight X = Ok (num / den)
    ∧ @sqrtm IntModel.int_dtype IntModel.int_lapack IntModel.int_collaborators
        IntModel.A_eight false 64
      = Ok (Outcome [] (RetPair X (num ^ 2 / den))).
Proof.
  destruct (@sqrtm_errest_squares_the_residual
              IntModel.int_dtype IntModel.int_lapack IntModel.int_collaborators
              IntModel.A_eight 64 IntModel.out_eight ltac:(reflexivity))
    as (X & num & den & _ & _ & Hres & Hout).
  exists X, num, den. split; [exact Hres|].
  transitivity (Ok IntModel.out_eight); [reflexivity|].
  f_equal. exact Hout.
Defined.

(** On [[8]] with integer arithmetic the square root found is [[2]], the
    residual has norm 4 and the input norm 8: the driver returns
    4**2 / 8 = 2 where the relative residual is 4 / 8 = 0. *)
Example sqrtm_errest_on_eight :
  @sqrtm IntModel.int_dtype IntModel.int_lapack IntModel.int_collaborators
    IntModel.A_eight false 64 = Ok IntModel.out_eight
  ∧ @relative_residual IntModel.int_dtype IntModel.int_collaborators
      IntModel.A_eight IntModel.X_eight = Ok 0.
Proof. split; reflexivity. Qed.

(** * Further properties of the engine and of the driver *)

(** ** Loops with equal bodies *)

Lemma for_in_ext {A St : Type} (xs : list A) (body body' : A -> St -> result St)
      (s : St) :
  (∀ x s', x ∈ xs → body x s' = body' x s') →
  for_in xs body s = for_in xs body' s.
Proof.
  revert s. induction xs as [|x xs IH]; intros s Hext; simpl; [done|].
  rewrite <- (Hext x s) by (by left).
  destruct (body x s) as [s1|e]; [|done].
  apply IH. intros y s' Hy. apply Hext. by right.
Qed.

Lemma list_getitem_Ok {A : Type} (l : list A) (i : Z) (x : A) :
  0 <= i → list_getitem l i = Ok x → l !! Z.to_nat i = Some x.
Proof.
  intros Hi. unfold list_getitem, py_index.
  case_bool_decide as Hin; simpl.
  - destruct (l !! Z.to_nat i); [by intros [= ->]|done].
  - case_bool_decide as Hneg; [lia|done].
Qed.

(** ** One block *)

(** The partition has a single block as soon as [n // blocksize <= 1]. *)
Lemma block_partition_single (n blocksize : Z) :
  0 <= n → blocksize ≠ 0 → n / blocksize <= 1 →
  block_partition n blocksize = Ok (1, [(0, n)]).
Proof.
  intros Hn Hb Hdiv. rewrite (block_partition_spec n blocksize) by done.
  rewrite (Z.max_r (n / blocksize) 1) by done.
  rewrite Z.div_1_r, Z.mod_1_r. unfold blocks_from.
  change (1 - 0) with 1. rewrite (seqZ_cons 0 1) by lia.
  rewrite !seqZ_nil by lia. simpl.
  replace (0 + 0 * n) with 0 by lia.
  replace (0 + (0 + 1) * n) with n by lia. done.
Qed.

Lemma div_le_one_cases (n blocksize : Z) :
  0 <= n → blocksize < 0 ∨ n < 2 * blocksize → n / blocksize <= 1.
Proof.
  intros Hn [Hneg|Hlt].
  - pose proof (Z.div_mod n blocksize ltac:(lia)).
    pose proof (Z.mod_neg_bound n blocksize ltac:(lia)). nia.
  - assert (n / blocksize < 2); [|lia].
    apply Z.div_lt_upper_bound; lia.
Qed.

Lemma engine_inv_within_recurrence `{DT : Dtype} `{LP : !Lapack}
      (T : matrix) (n : Z) (pairs : list (Z * Z)) (B : nat -> nat -> Prop)
      (st : traced) :
  engine_inv T n pairs
    (fun i j => i < j ∧ ∃ p, in_block pairs p i ∧ in_block pairs p j) B st →
  within_recurrence T n pairs (arr st).
Proof.
  intros Hinv. destruct (engine_inv_facts _ _ _ _ _ _ Hinv) as (F1 & F2 & _).
  split; [done|].
  intros start stop i j Hin Hi Hij Hj.
  apply list_elem_of_lookup_1 in Hin as (p & Hp).
  apply (F2 i j). split; [done|]. exists p.
  split; exists (start, stop); (split; [done|simpl; lia]).
Qed.

(** X1: when blocksize is negative or N < 2*blocksize the engine works on
    the single block [0, N) and ignores the solver; on a square T it then
    always returns, and the array returned is upper triangular, holds the
    square roots of the diagonal of T and satisfies the scalar recurrence at
    every entry above the diagonal.  The result is the same for every such
    blocksize. *)
Theorem unblocked_below_twice_blocksize `{DT : Dtype} `{LP : !Lapack}
        (T : matrix) (n blocksize : Z) :
  square n T → blocksize < 0 ∨ n < 2 * blocksize →
  block_partition n blocksize = Ok (1, [(0, n)])
  ∧ sqrtm_triu_traced T blocksize
    = (R <- seed_diagonal T ;; within_blocks T [(0, n)] R)
  ∧ ∃ R, _sqrtm_triu T blocksize = Ok R
         ∧ square n R
         ∧ within_recurrence T n [(0, n)] R
         ∧ (∀ i j, 0 <= j → j < i → i < n → ent R i j = czero).
Proof.
  intros HT Hbs.
  pose proof (square_nonneg _ _ HT) as Hn.
  assert (blocksize ≠ 0) as Hb by lia.
  pose proof (block_partition_single n blocksize Hn Hb
                (div_le_one_cases n blocksize Hn Hbs)) as Hp.
  split; [done|].
  assert (sqrtm_triu_traced T blocksize
          = (R <- seed_diagonal T ;; within_blocks T [(0, n)] R)) as Heq.
  { unfold sqrtm_triu_traced. rewrite (square_ncols _ _ HT), Hp.
    destruct (seed_diagonal T) as [st0|e]; simpl; [|done].
    destruct (within_blocks T [(0, n)] st0) as [st1|e]; simpl; [|done].
    apply between_blocks_single. }
  split; [done|].
  destruct (sqrtm_triu_within_ok T n blocksize HT Hb)
    as (nb & pairs & stw & Hp' & Hch & _ & Hw & _ & Hinv).
  rewrite Hp in Hp'. injection Hp' as <- <-.
  assert (sqrtm_triu_traced T blocksize = Ok stw) as Hrun.
  { rewrite Heq. revert Hw. unfold sqrtm_triu_within.
    rewrite (square_ncols _ _ HT), Hp.
    by destruct (seed_diagonal T). }
  exists (arr stw).
  split; [unfold _sqrtm_triu; by rewrite Hrun|].
  pose proof Hinv as (Hsq & _ & _ & _ & _ & Hzero & _).
  split; [done|].
  split; [by eapply engine_inv_within_recurrence|].
  intros i j Hj Hji Hi. apply Hzero; [lia..|].
  intros Hin. apply (engine_inv_upper T n _ Hch _ _ _ _ _ Hinv) in Hin. lia.
Qed.

Lemma unblocked_below_twice_blocksize_witness :
  @_sqrtm_triu IntModel.int_dtype IntModel.int_lapack IntModel.T4 3
  = @_sqrtm_triu IntModel.int_dtype IntModel.int_lapack IntModel.T4 (-5).
Proof.
  destruct (@unblocked_below_twice_blocksize
              IntModel.int_dtype IntModel.int_lapack IntModel.T4 4 3
              T4_square ltac:(right; lia)) as (_ & H3 & _).
  destruct (@unblocked_below_twice_blocksize
              IntModel.int_dtype IntModel.int_lapack IntModel.T4 4 (-5)
              T4_square ltac:(left; lia)) as (_ & H5 & _).
  unfold _sqrtm_triu. rewrite H3, H5. reflexivity.
Defined.

(** X2: called with blocksize 0 on a square T, the engine seeds the diagonal
    and then fails with ZeroDivisionError at [n // blocksize]. *)
Theorem engine_blocksize_zero `{DT : Dtype} `{LP : !Lapack} (T : matrix) (n : Z) :
  square n T →
  block_partition n 0 = Raise ZeroDivisionError
  ∧ (∃ st, seed_diagonal T = Ok st)
  ∧ _sqrtm_triu T 0 = Raise ZeroDivisionError.
Proof.
  intros HT. split; [reflexivity|].
  destruct (seed_diagonal_ok T n [] HT) as (st & Hseed & _).
  split; [by exists st|].
  unfold _sqrtm_triu, sqrtm_triu_traced. rewrite Hseed. reflexivity.
Qed.

Lemma engine_blocksize_zero_witness :
  @_sqrtm_triu IntModel.int_dtype IntModel.int_lapack IntModel.T4 0
  = Raise ZeroDivisionError.
Proof.
  destruct (@engine_blocksize_zero IntModel.int_dtype IntModel.int_lapack
              IntModel.T4 4 T4_square) as (_ & _ & H).
  exact H.
Defined.

(** ** The sizes of the blocks *)

Lemma elem_of_blocks_from (start size count : Z) (p : Z * Z) :
  p ∈ blocks_from start size count → 0 < count ∧ block_size p = size.
Proof.
  intros Hp. split.
  - unfold blocks_from in Hp. apply list_elem_of_fmap in Hp as (k & _ & Hk).
    apply elem_of_seqZ in Hk. lia.
  - by apply (proj1 (Forall_forall _ _) (Forall_blocks_from_size _ _ _) _ Hp).
Qed.

(** X3: for 1 <= blocksize <= N there are [N // blocksize] blocks and each
    has at least blocksize and at most 2*blocksize - 1 positions. *)
Theorem block_sizes_within_twice_blocksize (n blocksize : Z) :
  1 <= blocksize → blocksize <= n →
  ∃ pairs, block_partition n blocksize = Ok (n / blocksize, pairs)
           ∧ Z.of_nat (length pairs) = n / blocksize
           ∧ ∀ p, p ∈ pairs →
                  blocksize <= block_size p ∧ block_size p <= 2 * blocksize - 1.
Proof.
  intros Hb Hn.
  pose proof (Z.div_mod n blocksize ltac:(lia)) as Hdm.
  pose proof (Z.mod_pos_bound n blocksize ltac:(lia)) as Hmb.
  assert (1 <= n / blocksize) as Hnb by (apply Z.div_le_lower_bound; lia).
  pose proof (block_partition_spec n blocksize ltac:(lia) ltac:(lia)) as Hspec.
  cbn zeta in Hspec. rewrite (Z.max_l (n / blocksize) 1) in Hspec by lia.
  set (nb := n / blocksize) in *.
  pose proof (Z.div_mod n nb ltac:(lia)) as Hdm'.
  pose proof (Z.mod_pos_bound n nb ltac:(lia)) as Hmb'.
  eexists. split; [exact Hspec|]. split.
  { rewrite length_app, !length_blocks_from. lia. }
  intros p [Hp|Hp]%elem_of_app; apply elem_of_blocks_from in Hp as [Hcount ->].
  - split; [apply Z.div_le_lower_bound; lia|]. nia.
  - assert (blocksize <= n / nb) by (apply Z.div_le_lower_bound; lia).
    split; [lia|].
    assert (0 <= (blocksize - 1) * (nb - 1)) by nia. nia.
Qed.

Lemma block_sizes_within_twice_blocksize_witness :
  ∃ pairs, block_partition 11 3 = Ok (3, pairs)
           ∧ ∀ p, p ∈ pairs → 3 <= block_size p ∧ block_size p <= 5.
Proof.
  destruct (block_sizes_within_twice_blocksize 11 3 ltac:(lia) ltac:(lia))
    as (pairs & Hp & _ & Hsz).
  exists pairs. split; [exact Hp|exact Hsz].
Defined.

(** ** What the engine reads *)

Lemma seed_diagonal_upper `{DT : Dtype} (T T' : matrix) (n : Z) :
  square n T → square n T' →
  (∀ k, 0 <= k < n → ent T k k = ent T' k k) →
  seed_diagonal T = seed_diagonal T'.
Proof.
  intros HT HT' Hd. unfold seed_diagonal.
  rewrite (square_ncols _ _ HT), (square_ncols _ _ HT').
  f_equal. f_equal. unfold np_diag.
  pose proof (square_nrows _ _ HT). pose proof (square_nrows _ _ HT').
  pose proof (square_ncols _ _ HT). pose proof (square_ncols _ _ HT').
  replace (Z.of_nat (nrows T `min` ncols T)) with n by lia.
  replace (Z.of_nat (nrows T' `min` ncols T')) with n by lia.
  apply list_fmap_ext. intros _ k Hk%list_elem_of_lookup_2.
  apply elem_of_seqZ in Hk. apply Hd. lia.
Qed.

Lemma within_blocks_upper `{DT : Dtype} (T T' : matrix) (n : Z)
      (pairs : list (Z * Z)) (st : traced) :
  square n T → square n T' → chain 0 pairs n →
  (∀ i j, 0 <= i → i < j → j < n → ent T i j = ent T' i j) →
  within_blocks T pairs st = within_blocks T' pairs st.
Proof.
  intros HT HT' Hch Hup. unfold within_blocks.
  apply for_in_ext. intros p s1 Hp.
  apply list_elem_of_lookup_1 in Hp as (k & Hk).
  destruct (chain_bounds _ _ _ _ _ Hch Hk) as (Hp1 & _ & Hp2).
  apply for_in_ext. intros j s2 Hj%elem_of_range_up.
  apply for_in_ext. intros i s3 Hi%elem_of_range_down.
  unfold within_entry.
  rewrite (getitem_square n T), (getitem_square n T') by (done || lia).
  rewrite (Hup i j) by lia. done.
Qed.

Lemma between_blocks_upper `{DT : Dtype} `{LP : !Lapack} (T T' : matrix) (n : Z)
      (pairs : list (Z * Z)) (nb : Z) (st : traced) :
  square n T → square n T' → chain 0 pairs n →
  (∀ i j, 0 <= i → i < j → j < n → ent T i j = ent T' i j) →
  between_blocks T pairs nb st = between_blocks T' pairs nb st.
Proof.
  intros HT HT' Hch Hup. unfold between_blocks.
  apply for_in_ext. intros j s1 Hj%elem_of_range_up.
  destruct (list_getitem pairs j) as [jj|e] eqn:Hjj; simpl; [|done].
  apply list_getitem_Ok in Hjj; [|lia].
  apply for_in_ext. intros i s2 Hi%elem_of_range_down.
  unfold between_pair.
  destruct (list_getitem pairs i) as [ii|e] eqn:Hii; simpl; [|done].
  apply list_getitem_Ok in Hii; [|lia].
  destruct (chain_bounds _ _ _ _ _ Hch Hii) as (Hi1 & Hi12 & Hi2).
  destruct (chain_bounds _ _ _ _ _ Hch Hjj) as (Hj1 & Hj12 & Hj2).
  assert (ii.2 <= jj.1) as Hord.
  { apply (chain_ordered _ _ _ (Z.to_nat i) (Z.to_nat j) _ _ Hch); [lia|done..]. }
  f_equal. unfold sylvester_block, sylvester_rhs.
  rewrite (getblock_square n T), (getblock_square n T') by (done || lia).
  rewrite (table_ext (ent T) (ent T') ii.1 (ii.2 - ii.1) jj.1 (jj.2 - jj.1));
    [done|].
  intros x y Hx Hy. apply Hup; lia.
Qed.

(** X4: the engine reads T on and above the diagonal only: two square
    inputs with the same entries there give the same outcome, whatever lies
    below the diagonal, for every blocksize and every solver. *)
Theorem engine_reads_upper_triangle `{DT : Dtype} `{LP : !Lapack}
        (T T' : matrix) (n blocksize : Z) :
  square n T → square n T' →
  (∀ i j, 0 <= i → i <= j → j < n → ent T i j = ent T' i j) →
  sqrtm_triu_traced T blocksize = sqrtm_triu_traced T' blocksize
  ∧ _sqrtm_triu T blocksize = _sqrtm_triu T' blocksize.
Proof.
  intros HT HT' Hup.
  assert (sqrtm_triu_traced T blocksize = sqrtm_triu_traced T' blocksize) as Heq.
  { unfold sqrtm_triu_traced.
    rewrite (seed_diagonal_upper T T' n) by (done || intros; apply Hup; lia).
    rewrite (square_ncols _ _ HT), (square_ncols _ _ HT').
    destruct (seed_diagonal T') as [st0|e]; simpl; [|done].
    destruct (decide (blocksize = 0)) as [->|Hb]; [done|].
    destruct (block_partition_chain n blocksize (square_nonneg _ _ HT) Hb)
      as (pairs & Hp & _ & Hch).
    rewrite Hp. simpl.
    rewrite (within_blocks_upper T T' n) by (done || intros; apply Hup; lia).
    destruct (within_blocks T' pairs st0) as [st1|e]; simpl; [|done].
    apply (between_blocks_upper T T' n); try done. intros; apply Hup; lia. }
  split; [done|]. unfold _sqrtm_triu. by rewrite Heq.
Qed.

Lemma T4_lower_square : @square IntModel.int_dtype 4 IntExamples.T4_lower.
Proof. split; [done|]. repeat constructor. Qed.

Lemma engine_reads_upper_triangle_witness :
  @_sqrtm_triu IntModel.int_dtype IntModel.int_lapack IntModel.T4 2
  = @_sqrtm_triu IntModel.int_dtype IntModel.int_lapack IntExamples.T4_lower 2.
Proof.
  apply (@engine_reads_upper_triangle IntModel.int_dtype IntModel.int_lapack
           IntModel.T4 IntExamples.T4_lower 4 2 T4_square T4_lower_square).
  intros i j Hi Hij Hj.
  assert (i = 0 ∨ i = 1 ∨ i = 2 ∨ i = 3) as Hci by lia.
  assert (j = 0 ∨ j = 1 ∨ j = 2 ∨ j = 3) as Hcj by lia.
  destruct Hci as [-> | [-> | [-> | ->]]], Hcj as [-> | [-> | [-> | ->]]];
    try lia; reflexivity.
Defined.

(** X5: the engine uses the solution and the scale returned by the solver
    and never its third result, info: two solvers that agree on solution and
    scale give the same outcome, whatever they report in info. *)
Theorem engine_ignores_solver_info `{DT : Dtype} (LP1 LP2 : Lapack)
        (T : matrix) (blocksize : Z) :
  (∀ Rii Rjj S, (@ztrsyl DT LP1 Rii Rjj S).1 = (@ztrsyl DT LP2 Rii Rjj S).1) →
  @_sqrtm_triu DT LP1 T blocksize = @_sqrtm_triu DT LP2 T blocksize.
Proof.
  intros Hsame. unfold _sqrtm_triu, sqrtm_triu_traced.
  destruct (seed_diagonal T) as [st0|e]; simpl; [|done].
  destruct (block_partition (Z.of_nat (ncols T)) blocksize) as [p|e]; simpl; [|done].
  destruct (within_blocks T p.2 st0) as [st1|e]; simpl; [|done].
  assert (@between_blocks DT LP1 T p.2 p.1 st1 = @between_blocks DT LP2 T p.2 p.1 st1)
    as ->; [|done].
  unfold between_blocks. apply for_in_ext. intros j s1 _.
  destruct (list_getitem p.2 j) as [jj|e]; simpl; [|done].
  apply for_in_ext. intros i s2 _.
  unfold between_pair.
  destruct (list_getitem p.2 i) as [ii|e]; simpl; [|done].
  unfold sylvester_block. cbn zeta. by rewrite Hsame.
Qed.

Lemma engine_ignores_solver_info_witness :
  @_sqrtm_triu IntModel.int_dtype IntModel.int_lapack IntModel.T4 2
  = @_sqrtm_triu IntModel.int_dtype IntExamples.failing_info_lapack IntModel.T4 2.
Proof.
  apply (@engine_ignores_solver_info IntModel.int_dtype IntModel.int_lapack
           IntExamples.failing_info_lapack IntModel.T4 2).
  intros Rii Rjj S. reflexivity.
Defined.

(** ** The driver without display *)

(** X6: with disp false the driver adds no failure of its own: on a 2-D
    input with blocksize >= 1, when schur and rsf2csf return, the triangular
    factor is square, the solver keeps shapes and norm returns, sqrtm prints
    nothing and returns the pair of X = Z R Z^H, R being the engine's
    result, and the error estimate.  Nothing in this path depends on T being
    nonsingular. *)
Theorem sqrtm_without_display_returns `{DT : Dtype} `{LP : !Lapack}
        `{CO : !Collaborators} (A : ndarray) (blocksize n : Z)
        (TZ TZ' : matrix * matrix) :
  length (nd_shape A) = 2%nat → 1 <= blocksize →
  schur A = Ok TZ → rsf2csf TZ.1 TZ.2 = Ok TZ' → square n TZ'.1 →
  solver_keeps_shape → (∀ a, ∃ v, norm_fro a = Ok v) →
  ∃ R errest,
    _sqrtm_triu TZ'.1 blocksize = Ok R
    ∧ square n R
    ∧ sqrtm A false blocksize
      = Ok (Outcome [] (RetPair (mat_mul (mat_mul TZ'.2 R) (mat_H TZ'.2)) errest)).
Proof.
  intros Hdim Hb Hschur Hrsf HT Hsolver Hnorm.
  destruct (sqrtm_triu_traced_ok TZ'.1 n blocksize HT ltac:(lia) Hsolver)
    as (nb & pairs & stw & stf & _ & _ & _ & _ & Hf & _ & Hinv).
  pose proof Hinv as (Hsq & _).
  set (X := mat_mul (mat_mul TZ'.2 (arr stf)) (mat_H TZ'.2)).
  destruct (Hnorm (to_ndarray (mat_sub_array (mat_mul X X) A))) as (num & Hnum).
  destruct (Hnorm A) as (den & Hden).
  exists (arr stf), (fdiv (fpow num 2) den).
  assert (_sqrtm_triu TZ'.1 blocksize = Ok (arr stf)) as Hrun
    by (unfold _sqrtm_triu; by rewrite Hf).
  split; [done|]. split; [done|].
  unfold sqrtm, sqrtm_compute, sqrtm_check.
  rewrite bool_decide_eq_false_2 by (intros Hne; by apply Hne).
  rewrite bool_decide_eq_false_2 by lia. simpl.
  rewrite Hschur. simpl. rewrite Hrsf. simpl. rewrite Hrun. simpl.
  unfold sqrtm_errest. fold X. rewrite Hnum. simpl. rewrite Hden. done.
Qed.

Lemma eight_square : @square IntModel.int_dtype 1 IntExamples.TZ_eight.1.
Proof. split; [done|]. repeat constructor. Qed.

Lemma sqrtm_without_display_returns_witness :
  ∃ out,
    @sqrtm IntModel.int_dtype IntModel.int_lapack IntModel.int_collaborators
      IntModel.A_eight false 64 = Ok out
    ∧ printed out = [].
Proof.
  destruct (@sqrtm_without_display_returns
              IntModel.int_dtype IntModel.int_lapack IntModel.int_collaborators
              IntModel.A_eight 64 1 IntExamples.TZ_eight IntExamples.TZ_eight
              ltac:(reflexivity) ltac:(lia) ltac:(reflexivity) ltac:(reflexivity)
              eight_square diag_solver_keeps_shape
              ltac:(intros a; eexists; reflexivity))
    as (R & errest & _ & _ & H).
  eexists. split; [exact H|reflexivity].
Defined.

(** ** The entries of the diagonal blocks *)

(** The state of the engine when it works on one block. *)
Lemma unblocked_engine_state `{DT : Dtype} `{LP : !Lapack}
      (T : matrix) (n blocksize : Z) :
  square n T → blocksize < 0 ∨ n < 2 * blocksize →
  ∃ st, sqrtm_triu_traced T blocksize = Ok st
        ∧ engine_inv T n [(0, n)]
            (fun i j => i < j ∧ ∃ p, in_block [(0, n)] p i ∧ in_block [(0, n)] p j)
            (fun _ _ => False) st.
Proof.
  intros HT Hbs.
  pose proof (square_nonneg _ _ HT) as Hn.
  assert (blocksize ≠ 0) as Hb by lia.
  pose proof (block_partition_single n blocksize Hn Hb
                (div_le_one_cases n blocksize Hn Hbs)) as Hp.
  destruct (sqrtm_triu_within_ok T n blocksize HT Hb)
    as (nb & pairs & stw & Hp' & _ & _ & Hw & _ & Hinv).
  rewrite Hp in Hp'. injection Hp' as <- <-.
  exists stw. split; [|done].
  revert Hw. unfold sqrtm_triu_within, sqrtm_triu_traced.
  rewrite (square_ncols _ _ HT), Hp.
  destruct (seed_diagonal T) as [st0|e]; simpl; [|done].
  intros ->. simpl. apply between_blocks_single.
Qed.

(** The recurrence determines the entries of a diagonal block: two arrays
    that satisfy it, for partitions of which one block lies inside a block
    of the other, agree on the smaller block. *)
Lemma within_recurrence_determined `{DT : Dtype} (T : matrix) (n : Z)
      (pairs pairs' : list (Z * Z)) (R R' : matrix) (start stop start' stop' : Z) :
  within_recurrence T n pairs R → within_recurrence T n pairs' R' →
  (start, stop) ∈ pairs → (start', stop') ∈ pairs' →
  0 <= start → stop <= n → start' <= start → stop <= stop' →
  ∀ i j, start <= i → i <= j → j < stop → ent R i j = ent R' i j.
Proof.
  intros [Hd Hr] [Hd' Hr'] Hin Hin' H0 Hn Hs Hs'.
  assert (∀ (g : nat) i j, j - i = Z.of_nat g → start <= i → j < stop →
                           ent R i j = ent R' i j) as Hgap.
  { intros g. induction g as [g IH] using lt_wf_ind. intros i j Hg Hi Hj.
    destruct (decide (g = 0%nat)) as [->|Hpos].
    - assert (j = i) as -> by lia. rewrite Hd, Hd' by lia. done.
    - rewrite (Hr start stop i j) by (done || lia).
      rewrite (Hr' start' stop' i j) by (done || lia).
      assert (ent R i i = ent R' i i) as ->
        by (apply (IH 0%nat); lia).
      assert (ent R j j = ent R' j j) as ->
        by (apply (IH 0%nat); lia).
      do 2 f_equal. case_bool_decide; [|done].
      unfold row_segment, col_segment. f_equal.
      + apply list_fmap_ext. intros _ k Hk%list_elem_of_lookup_2.
        apply elem_of_seqZ in Hk. apply (IH (Z.to_nat (k - i))); lia.
      + apply list_fmap_ext. intros _ k Hk%list_elem_of_lookup_2.
        apply elem_of_seqZ in Hk. apply (IH (Z.to_nat (j - k))); lia. }
  intros i j Hi Hij Hj. apply (Hgap (Z.to_nat (j - i))); lia.
Qed.

(** X7: the entries of the diagonal blocks do not depend on the blocking:
    for a square T, blocksize >= 1 and a solver that keeps shapes, every
    entry of the result that lies in a diagonal block of the partition
    equals the entry that the engine computes on a single block (negative
    blocksize, or N < 2*blocksize), whatever the arithmetic. *)
Theorem diagonal_blocks_agree_with_unblocked `{DT : Dtype} `{LP : !Lapack}
        (T : matrix) (n blocksize blocksize' : Z) :
  square n T → 1 <= blocksize → solver_keeps_shape →
  blocksize' < 0 ∨ n < 2 * blocksize' →
  ∃ nb pairs R R',
    block_partition n blocksize = Ok (nb, pairs)
    ∧ _sqrtm_triu T blocksize = Ok R
    ∧ _sqrtm_triu T blocksize' = Ok R'
    ∧ ∀ start stop i j,
        (start, stop) ∈ pairs → start <= i → i <= j → j < stop →
        ent R i j = ent R' i j.
Proof.
  intros HT Hb Hsolver Hb'.
  destruct (sqrtm_triu_traced_ok T n blocksize HT ltac:(lia) Hsolver)
    as (nb & pairs & stw & stf & Hp & Hch & _ & _ & Hf & _ & Hinv).
  destruct (unblocked_engine_state T n blocksize' HT Hb') as (st' & Hf' & Hinv').
  exists nb, pairs, (arr stf), (arr st').
  split; [done|].
  split; [unfold _sqrtm_triu; by rewrite Hf|].
  split; [unfold _sqrtm_triu; by rewrite Hf'|].
  intros start stop i j Hin Hi Hij Hj.
  pose proof Hin as (k & Hk)%list_elem_of_lookup_1.
  destruct (chain_bounds _ _ _ _ _ Hch Hk) as (H0 & _ & Hn). simpl in H0, Hn.
  apply (within_recurrence_determined T n pairs [(0, n)] _ _ start stop 0 n);
    try done.
  - by eapply engine_inv_within_recurrence.
  - by eapply engine_inv_within_recurrence.
  - by left.
Qed.

Lemma diagonal_blocks_agree_with_unblocked_witness :
  ∃ R R',
    @_sqrtm_triu IntModel.int_dtype IntModel.int_lapack IntModel.T4 2 = Ok R
    ∧ @_sqrtm_triu IntModel.int_dtype IntModel.int_lapack IntModel.T4 64 = Ok R'
    ∧ @ent IntModel.int_dtype R 2 3 = @ent IntModel.int_dtype R' 2 3.
Proof.
  destruct (@diagonal_blocks_agree_with_unblocked
              IntModel.int_dtype IntModel.int_lapack IntModel.T4 4 2 64
              T4_square ltac:(lia) diag_solver_keeps_shape ltac:(right; lia))
    as (nb & pairs & R & R' & Hp & HR & HR' & Hagree).
  exists R, R'. split; [exact HR|]. split; [exact HR'|].
  injection Hp as <- <-.
  apply (Hagree 2 4); [right; left|lia..].
Defined.

(** X8: a diagonal input gives a diagonal result on a single block.  For a
    square T whose entries off the diagonal are zero, if 0 - 0 = 0, the dot
    product of two zero vectors is 0 and 0 / (sqrt(T[i,i]) + sqrt(T[j,j]))
    is 0 for i < j (no two roots sum to zero), then the engine returns the
    array with sqrt(T[i,i]) on the diagonal and zero elsewhere. *)
Theorem unblocked_diagonal_input `{DT : Dtype} `{LP : !Lapack}
        (T : matrix) (n blocksize : Z) :
  square n T → blocksize < 0 ∨ n < 2 * blocksize →
  (∀ i j, 0 <= i < n → 0 <= j < n → i ≠ j → ent T i j = czero) →
  csub czero czero = czero →
  (∀ u v, Forall (fun x => x = czero) u → Forall (fun x => x = czero) v →
          vdot u v = czero) →
  (∀ i j, 0 <= i → i < j → j < n →
          cdiv czero (cadd (csqrt (ent T i i)) (csqrt (ent T j j))) = czero) →
  ∃ R, _sqrtm_triu T blocksize = Ok R
       ∧ ∀ i j, 0 <= i < n → 0 <= j < n →
                ent R i j = if bool_decide (i = j) then csqrt (ent T i i)
                            else czero.
Proof.
  intros HT Hbs Hdiag Hsub Hdot Hdiv.
  destruct (unblocked_engine_state T n blocksize HT Hbs) as (st & Hf & Hinv).
  exists (arr st). split; [unfold _sqrtm_triu; by rewrite Hf|].
  destruct (engine_inv_within_recurrence _ _ _ _ _ Hinv) as [Hd Hr].
  pose proof Hinv as (_ & _ & _ & _ & _ & Hzero & _).
  assert (chain 0 [(0, n)] n) as Hch by (simpl; pose proof (square_nonneg _ _ HT); lia).
  assert (∀ (g : nat) i j, j - i = Z.of_nat (S g) → 0 <= i → j < n →
                           ent (arr st) i j = czero) as Hgap.
  { intros g. induction g as [g IH] using lt_wf_ind. intros i j Hg Hi Hj.
    rewrite (Hr 0 n i j) by (by left || lia).
    rewrite (Hdiag i j), !Hd by lia.
    assert ((if bool_decide (j - i > 1)
             then vdot (row_segment (arr st) i (i + 1) j)
                       (col_segment (arr st) (i + 1) j j)
             else czero) = czero) as ->.
    { case_bool_decide; [|done]. apply Hdot.
      - apply Forall_fmap, Forall_forall. intros k Hk%elem_of_seqZ. simpl.
        apply (IH (Z.to_nat (k - i - 1))); lia.
      - apply Forall_fmap, Forall_forall. intros k Hk%elem_of_seqZ. simpl.
        apply (IH (Z.to_nat (j - k - 1))); lia. }
    rewrite Hsub. apply Hdiv; lia. }
  intros i j Hi Hj. case_bool_decide as Heq.
  - subst j. by apply Hd.
  - destruct (decide (i < j)) as [Hlt|Hge].
    + apply (Hgap (Z.to_nat (j - i - 1))); lia.
    + apply Hzero; [lia..|]. intros Hin.
      apply (engine_inv_upper T n _ Hch _ _ _ _ _ Hinv) in Hin. lia.
Qed.

Lemma sum_products_zero (u v : list Z) :
  Forall (fun x => x = 0) u → IntModel.sum_products u v = 0.
Proof.
  intros Hu. revert v. induction Hu as [|x u -> _ IH]; intros v; [done|].
  destruct v as [|y v]; [done|]. unfold IntModel.sum_products in *. simpl.
  by rewrite IH.
Qed.

Lemma T_diagonal_square : @square IntModel.int_dtype 3 IntExamples.T_diagonal.
Proof. split; [done|]. repeat constructor. Qed.

Lemma unblocked_diagonal_input_witness :
  ∃ R, @_sqrtm_triu IntModel.int_dtype IntModel.int_lapack
         IntExamples.T_diagonal 64 = Ok R
       ∧ @ent IntModel.int_dtype R 0 2 = 0
       ∧ @ent IntModel.int_dtype R 1 1 = 3.
Proof.
  destruct (@unblocked_diagonal_input IntModel.int_dtype IntModel.int_lapack
              IntExamples.T_diagonal 3 64 T_diagonal_square ltac:(right; lia))
    as (R & HR & Hent).
  - intros i j Hi Hj Hne.
    assert (i = 0 ∨ i = 1 ∨ i = 2) as Hci by lia.
    assert (j = 0 ∨ j = 1 ∨ j = 2) as Hcj by lia.
    destruct Hci as [-> | [-> | ->]], Hcj as [-> | [-> | ->]];
      try lia; reflexivity.
  - reflexivity.
  - intros u v Hu _. by apply sum_products_zero.
  - intros i j _ _ _. exact (Zdiv_0_l _).
  - exists R. split; [exact HR|].
    split; [apply (Hent 0 2); lia|apply (Hent 1 1); lia].
Defined.

(** ** The recurrence in exact arithmetic *)

Section ExactArithmetic.
Context `{DT : Dtype} `{LP : !Lapack}.
Variable cmul : C -> C -> C.
Hypothesis cmul_comm : ∀ x y, cmul x y = cmul y x.
Hypothesis cadd_comm : ∀ x y, cadd x y = cadd y x.
Hypothesis cadd_assoc : ∀ x y z, cadd x (cadd y z) = cadd (cadd x y) z.
Hypothesis cmul_cadd_distr : ∀ x y z, cmul x (cadd y z) = cadd (cmul x y) (cmul x z).
Hypothesis csub_cadd : ∀ x y, cadd (csub x y) y = x.

Lemma recurrence_entry_identity (t s a b : C) :
  cmul (cdiv (csub t s) (cadd a b)) (cadd a b) = csub t s →
  cadd (cadd (cmul a (cdiv (csub t s) (cadd a b))) s)
       (cmul (cdiv (csub t s) (cadd a b)) b) = t.
Proof.
  set (v := cdiv (csub t s) (cadd a b)). intros Hexact.
  rewrite (cmul_comm a v), (cadd_comm (cmul v a) s), <- cadd_assoc.
  rewrite <- cmul_cadd_distr, Hexact, cadd_comm. apply csub_cadd.
Qed.

(** X9: in an arithmetic where addition and multiplication are commutative,
    associative and distributive and (x - y) + y = x, the result R of the
    engine solves the equation of the square root inside every diagonal
    block: at an entry (i, j), i < j, where the division of the recurrence
    is exact, R[i,i] R[i,j] + R[i, i+1:j] . R[i+1:j, j] + R[i,j] R[j,j]
    = T[i,j]. *)
Theorem recurrence_solves_square_root_equation (T : matrix) (n blocksize : Z) :
  square n T → 1 <= blocksize → solver_keeps_shape →
  ∃ nb pairs R,
    block_partition n blocksize = Ok (nb, pairs)
    ∧ _sqrtm_triu T blocksize = Ok R
    ∧ ∀ start stop i j,
        (start, stop) ∈ pairs → start <= i → i < j → j < stop →
        let s := if bool_decide (j - i > 1)
                 then vdot (row_segment R i (i + 1) j) (col_segment R (i + 1) j j)
                 else czero in
        let d := cadd (ent R i i) (ent R j j) in
        cmul (cdiv (csub (ent T i j) s) d) d = csub (ent T i j) s →
        cadd (cadd (cmul (ent R i i) (ent R i j)) s) (cmul (ent R i j) (ent R j j))
        = ent T i j.
Proof.
  intros HT Hb Hsolver.
  destruct (sqrtm_triu_traced_ok T n blocksize HT ltac:(lia) Hsolver)
    as (nb & pairs & stw & stf & Hp & _ & _ & _ & Hf & _ & Hinv).
  exists nb, pairs, (arr stf).
  split; [done|]. split; [unfold _sqrtm_triu; by rewrite Hf|].
  destruct (engine_inv_within_recurrence _ _ _ _ _ Hinv) as [_ Hr].
  intros start stop i j Hin Hi Hij Hj s d Hexact.
  rewrite (Hr start stop i j Hin Hi Hij Hj). fold s. fold d.
  by apply recurrence_entry_identity.
Qed.
End ExactArithmetic.

Lemma T_exact_square : @square IntModel.int_dtype 3 IntExamples.T_exact.
Proof. split; [done|]. repeat constructor. Qed.

Lemma recurrence_solves_square_root_equation_witness :
  ∃ R, @_sqrtm_triu IntModel.int_dtype IntModel.int_lapack
         IntExamples.T_exact 64 = Ok R
       ∧ @ent IntModel.int_dtype R 0 0 * @ent IntModel.int_dtype R 0 2
         + IntModel.sum_products (@row_segment IntModel.int_dtype R 0 1 2)
                                 (@col_segment IntModel.int_dtype R 1 2 2)
         + @ent IntModel.int_dtype R 0 2 * @ent IntModel.int_dtype R 2 2
         = 28.
Proof.
  destruct (@recurrence_solves_square_root_equation
              IntModel.int_dtype IntModel.int_lapack Z.mul
              Z.mul_comm Z.add_comm Z.add_assoc Z.mul_add_distr_l
              ltac:(intros x y; simpl; lia)
              IntExamples.T_exact 3 64 T_exact_square ltac:(lia)
              diag_solver_keeps_shape)
    as (nb & pairs & R & Hp & HR & Heq).
  exists R. split; [exact HR|].
  injection Hp as <- <-.
  pose proof HR as HR'. vm_compute in HR'. injection HR' as <-.
  apply (Heq 0 3 0 2); [by left|lia..|reflexivity].
Defined.

(** ** The between-block phase as one pass over the pairs of blocks *)

Lemma for_in_app {A St : Type} (xs ys : list A) (body : A -> St -> result St)
      (s : St) :
  for_in (xs ++ ys) body s = rbind (for_in xs body s) (for_in ys body).
Proof.
  revert s. induction xs as [|x xs IH]; intros s; simpl; [done|].
  destruct (body x s); simpl; [apply IH|done].
Qed.

Lemma for_in_bind {A X St : Type} (xs : list A) (f : A -> list X)
      (body : X -> St -> result St) (s : St) :
  for_in (xs ≫= f) body s = for_in xs (fun x => for_in (f x) body) s.
Proof.
  revert s. induction xs as [|x xs IH]; intros s; [done|].
  rewrite bind_cons, for_in_app. simpl.
  destruct (for_in (f x) body s); simpl; [apply IH|done].
Qed.

Lemma for_in_fmap {A X St : Type} (g : A -> X) (xs : list A)
      (body : X -> St -> result St) (s : St) :
  for_in (g <$> xs) body s = for_in xs (fun x => body (g x)) s.
Proof.
  revert s. induction xs as [|x xs IH]; intros s; [done|].
  rewrite fmap_cons. simpl. destruct (body (g x) s); [apply IH|done].
Qed.

Lemma length_between_order (nb : Z) :
  0 <= nb → 2 * Z.of_nat (length (between_order nb)) = nb * (nb - 1).
Proof.
  intros Hnb. rewrite <- (Z2Nat.id nb) by lia. generalize (Z.to_nat nb). clear.
  intros m. induction m as [|m IH]; [done|].
  rewrite between_order_S, length_app, length_fmap, length_range_down. nia.
Qed.

Lemma NoDup_between_order (nb : Z) : NoDup (between_order nb).
Proof.
  unfold between_order. apply NoDup_bind.
  - intros j1 j2 [j i] _ _ (i1 & [= -> ->] & _)%list_elem_of_fmap
           (i2 & [= -> _] & _)%list_elem_of_fmap. done.
  - intros j _. apply NoDup_fmap_2_strong.
    + by intros x y _ _ [= ->].
    + unfold range_down. rewrite reverse_Permutation. apply NoDup_seqZ.
  - unfold range_up. apply NoDup_seqZ.
Qed.

(** X10: the between-block phase is a single pass over the pairs (j, i) of
    block indices with 0 <= i < j < nblocks, each taken once, in the order
    of the two loops: nblocks*(nblocks-1)/2 steps, each one a solver call
    followed by one block assignment. *)
Theorem between_blocks_one_pass_over_pairs `{DT : Dtype} `{LP : !Lapack}
        (T : matrix) (pairs : list (Z * Z)) (nb : Z) (st : traced) :
  0 <= nb → nb <= Z.of_nat (length pairs) →
  between_blocks T pairs nb st
  = for_in (between_order nb)
      (fun ji s =>
         setblock s (block_range pairs ji.2).1 (block_range pairs ji.2).2
                    (block_range pairs ji.1).1 (block_range pairs ji.1).2
           (sylvester_block T (arr s) ji.1 ji.2
              (block_range pairs ji.2).1 (block_range pairs ji.2).2
              (block_range pairs ji.1).1 (block_range pairs ji.1).2))
      st
  ∧ NoDup (between_order nb)
  ∧ (∀ j i, (j, i) ∈ between_order nb ↔ 0 <= i ∧ i < j ∧ j < nb)
  ∧ 2 * Z.of_nat (length (between_order nb)) = nb * (nb - 1).
Proof.
  intros Hnb Hlen.
  assert (∀ k, 0 <= k < nb → list_getitem pairs k = Ok (block_range pairs k))
    as Hget.
  { intros k Hk.
    destruct (lookup_lt_is_Some_2 pairs (Z.to_nat k)) as [r Hr]; [lia|].
    rewrite (list_getitem_in_range pairs k r) by (lia || done).
    unfold block_range. by rewrite Hr. }
  split; [|split; [apply NoDup_between_order|
                   split; [intros j i; apply elem_of_between_order|
                           by apply length_between_order]]].
  unfold between_blocks, between_order. rewrite for_in_bind.
  apply for_in_ext. intros j s1 Hj%elem_of_range_up.
  rewrite (Hget j) by lia. simpl. rewrite for_in_fmap.
  apply for_in_ext. intros i s2 Hi%elem_of_range_down.
  unfold between_pair. rewrite (Hget i) by lia. done.
Qed.

Lemma between_blocks_one_pass_over_pairs_witness :
  2 * Z.of_nat (length (between_order 3)) = 3 * (3 - 1)
  ∧ between_order 3 = [(1, 0); (2, 1); (2, 0)].
Proof.
  destruct (@between_blocks_one_pass_over_pairs
              IntModel.int_dtype IntModel.int_lapack IntModel.T4
              [(0, 1); (1, 2); (2, 4)] 3 (Traced IntModel.T4 [])
              ltac:(lia) ltac:(simpl; lia)) as (_ & _ & _ & H).
  split; [exact H|reflexivity].
Defined.

(** ** Blocks of exactly blocksize positions *)

Lemma lookup_blocks_from (start size count : Z) (k : nat) :
  Z.of_nat k < count →
  blocks_from start size count !! k
  = Some (start + Z.of_nat k * size, start + (Z.of_nat k + 1) * size).
Proof.
  intros Hk. unfold blocks_from.
  rewrite list_lookup_fmap, lookup_seqZ_lt by done. simpl.
  by rewrite Z.add_0_l.
Qed.

Lemma block_partition_multiple (blocksize count : Z) :
  1 <= blocksize → 1 <= count →
  block_partition (count * blocksize) blocksize
  = Ok (count, blocks_from 0 blocksize count).
Proof.
  intros Hb Hc.
  pose proof (block_partition_spec (count * blocksize) blocksize
                ltac:(nia) ltac:(lia)) as Hspec.
  cbn zeta in Hspec.
  rewrite (Z.div_mul count blocksize) in Hspec by lia.
  rewrite (Z.max_l count 1) in Hspec by lia.
  assert (count * blocksize / count = blocksize) as Hd
    by (rewrite Z.mul_comm; apply Z.div_mul; lia).
  assert ((count * blocksize) mod count = 0) as Hm
    by (rewrite Z.mul_comm; apply Z.mod_mul; lia).
  rewrite Hd, Hm in Hspec. rewrite Z.sub_0_r in Hspec.
  rewrite Hspec. f_equal. f_equal.
  unfold blocks_from at 2. rewrite seqZ_nil by lia. apply app_nil_r.
Qed.

(** X11: when blocksize >= 1 divides N >= 1 there are N/blocksize blocks of
    exactly blocksize positions, the k-th being
    [k*blocksize, (k+1)*blocksize). *)
Theorem block_partition_divisible (blocksize count : Z) :
  1 <= blocksize → 1 <= count →
  ∃ pairs, block_partition (count * blocksize) blocksize = Ok (count, pairs)
           ∧ Z.of_nat (length pairs) = count
           ∧ ∀ k : nat, Z.of_nat k < count →
               pairs !! k
               = Some (Z.of_nat k * blocksize, (Z.of_nat k + 1) * blocksize).
Proof.
  intros Hb Hc. exists (blocks_from 0 blocksize count).
  split; [by apply block_partition_multiple|].
  split; [rewrite length_blocks_from; lia|].
  intros k Hk. rewrite lookup_blocks_from by done.
  by rewrite !Z.add_0_l.
Qed.

Lemma block_partition_divisible_witness :
  ∃ pairs, block_partition 12 4 = Ok (3, pairs)
           ∧ pairs !! 2%nat = Some (8, 12).
Proof.
  destruct (block_partition_divisible 4 3 ltac:(lia) ltac:(lia))
    as (pairs & Hp & _ & Hk).
  exists pairs. split; [exact Hp|]. apply (Hk 2%nat). lia.
Defined.

(** ** Blocks of one position *)

Lemma table_single `{DT : Dtype} (f : Z -> Z -> C) (r c : Z) :
  table f r 1 c 1 = [[f r c]].
Proof.
  unfold table. rewrite (seqZ_cons r 1), (seqZ_cons c 1) by lia.
  by rewrite !seqZ_nil by lia.
Qed.

(** X12: with blocksize 1 (the smallest that sqrtm accepts) every block has
    one position; the within-block phase assigns nothing, and in the result
    each entry above the diagonal is the 1 x 1 solution of the solver times
    its scale, for the right-hand side T[i,j], less
    R[i, i+1:j] . R[i+1:j, j] when j - i > 1. *)
Theorem blocksize_one_delegates_to_solver `{DT : Dtype} `{LP : !Lapack}
        (T : matrix) (n : Z) :
  square n T → 1 <= n → solver_keeps_shape →
  ∃ pairs R,
    block_partition n 1 = Ok (n, pairs)
    ∧ (∀ k : nat, Z.of_nat k < n → pairs !! k = Some (Z.of_nat k, Z.of_nat k + 1))
    ∧ within_trace pairs = []
    ∧ _sqrtm_triu T 1 = Ok R
    ∧ ∀ i j, 0 <= i → i < j → j < n →
        let S := if bool_decide (j - i > 1)
                 then mat_sub [[ent T i j]]
                        (mat_dot (getblock R i (i + 1) (i + 1) j)
                                 (getblock R (i + 1) j j (j + 1)))
                 else [[ent T i j]] in
        let xsi := ztrsyl [[ent R i i]] [[ent R j j]] S in
        [[ent R i j]] = mat_scale xsi.1.1 xsi.1.2.
Proof.
  intros HT Hn Hsolver.
  pose proof (block_partition_multiple 1 n ltac:(lia) Hn) as Hp0.
  rewrite Z.mul_1_r in Hp0.
  assert (∃ pairs0, pairs0 = blocks_from 0 1 n) as (pairs0 & Hpairs0) by eauto.
  rewrite <- Hpairs0 in Hp0.
  assert (Z.of_nat (length pairs0) = n) as Hlen0
    by (rewrite Hpairs0, length_blocks_from; lia).
  destruct (sqrtm_triu_traced_ok T n 1 HT ltac:(lia) Hsolver)
    as (nb & pairs & stw & stf & Hp & Hch & _ & _ & Hf & _ & Hinv).
  rewrite Hp0 in Hp. injection Hp as <- <-.
  assert (∀ k : nat, Z.of_nat k < n →
                     pairs0 !! k = Some (Z.of_nat k, Z.of_nat k + 1)) as Hk.
  { intros k Hlt. rewrite Hpairs0, lookup_blocks_from by done.
    f_equal. f_equal; lia. }
  exists pairs0, (arr stf).
  split; [done|]. split; [done|].
  split.
  { apply elem_of_nil_inv. intros [i j] Hin. unfold within_trace in Hin.
    apply list_elem_of_bind in Hin as (p & Hin & Hp).
    apply list_elem_of_bind in Hin as (j' & Hin & Hj').
    apply list_elem_of_fmap in Hin as (i' & _ & Hi').
    apply list_elem_of_lookup_1 in Hp as (k & Hpk).
    assert (Z.of_nat k < n) as Hlt.
    { apply lookup_lt_Some in Hpk. lia. }
    rewrite (Hk k Hlt) in Hpk. injection Hpk as <-.
    apply elem_of_range_up in Hj'. apply elem_of_range_down in Hi'.
    simpl in *. lia. }
  split; [unfold _sqrtm_triu; by rewrite Hf|].
  intros i j Hi Hij Hj S xsi.
  destruct (engine_inv_facts _ _ _ _ _ _ Hinv) as (_ & _ & F3).
  pose proof Hinv as (Hsq & _).
  assert (pairs0 !! Z.to_nat i = Some (i, i + 1)) as Hpi
    by (rewrite (Hk (Z.to_nat i)) by lia; f_equal; f_equal; lia).
  assert (pairs0 !! Z.to_nat j = Some (j, j + 1)) as Hpj
    by (rewrite (Hk (Z.to_nat j)) by lia; f_equal; f_equal; lia).
  specialize (F3 (Z.to_nat i) (Z.to_nat j) (i, i + 1) (j, j + 1)).
  simpl in F3. rewrite !Z2Nat.id in F3 by lia.
  unfold sylvester_block, sylvester_rhs in F3. cbn zeta in F3.
  rewrite (getblock_square n (arr stf) i (i + 1) j (j + 1)) in F3 by (done || lia).
  rewrite (getblock_square n (arr stf) i (i + 1) i (i + 1)) in F3 by (done || lia).
  rewrite (getblock_square n (arr stf) j (j + 1) j (j + 1)) in F3 by (done || lia).
  rewrite (getblock_square n T i (i + 1) j (j + 1)) in F3 by (done || lia).
  replace (i + 1 - i) with 1 in F3 by lia.
  replace (j + 1 - j) with 1 in F3 by lia.
  rewrite !table_single in F3.
  apply F3; [|done..].
  split; [lia|]. apply lookup_lt_Some in Hpj. done.
Qed.

Lemma blocksize_one_delegates_to_solver_witness :
  ∃ pairs R,
    block_partition 4 1 = Ok (4, pairs)
    ∧ within_trace pairs = []
    ∧ @_sqrtm_triu IntModel.int_dtype IntModel.int_lapack IntModel.T4 1 = Ok R.
Proof.
  destruct (@blocksize_one_delegates_to_solver
              IntModel.int_dtype IntModel.int_lapack IntModel.T4 4
              T4_square ltac:(lia) diag_solver_keeps_shape)
    as (pairs & R & Hp & _ & Hw & HR & _).
  exists pairs, R. split; [exact Hp|]. split; [exact Hw|exact HR].
Defined.


(** ** The validation of the arguments *)

(** C2: with schur validating the shape of its argument, sqrtm rejects
    with ValueError exactly the invalid arguments: an input that is not
    2-D, a 2-D input that is not square, a blocksize below 1.  The checks
    of lines 136-139 followed by that of schur raise ValueError exactly on
    these arguments; the rejection by sqrtm is the same whatever the
    solver, the factorisation, the other collaborators and disp are, so
    nothing has been computed when it is made; on any other arguments both
    checks pass and the call is the computation of lines 140-153 with the
    factorisation itself.  In particular a 2-D input that is not square
    and blocksize = 0 are rejected. *)
Theorem sqrtm_rejects_invalid_arguments `{DT : Dtype}
        (A : ndarray) (blocksize : Z) :
  ((∃ msg, (_ <- sqrtm_check (nd_shape A) blocksize ;;
            schur_shape_check (nd_shape A)) = Raise (ValueError msg))
   ↔ invalid_argument (nd_shape A) blocksize)
  ∧ (invalid_argument (nd_shape A) blocksize →
   ∃ msg, ∀ (LP : Lapack) (CO : Collaborators) (disp : bool),
     @sqrtm DT LP (with_checked_schur CO) A disp blocksize
     = Raise (ValueError msg))
  ∧ (¬ invalid_argument (nd_shape A) blocksize →
     sqrtm_check (nd_shape A) blocksize = Ok tt
     ∧ schur_shape_check (nd_shape A) = Ok tt
     ∧ ∀ (LP : Lapack) (CO : Collaborators) (disp : bool),
         @sqrtm DT LP (with_checked_schur CO) A disp blocksize
         = @sqrtm_compute DT LP CO A disp blocksize)
  ∧ (∀ r c, nd_shape A = [r; c] → r ≠ c →
     ∃ msg, ∀ (LP : Lapack) (CO : Collaborators) (disp : bool),
       @sqrtm DT LP (with_checked_schur CO) A disp blocksize
       = Raise (ValueError msg))
  ∧ (∃ msg, ∀ (LP : Lapack) (CO : Collaborators) (disp : bool),
       @sqrtm DT LP (with_checked_schur CO) A disp 0
       = Raise (ValueError msg)).
Proof.
  assert (∀ bs, invalid_argument (nd_shape A) bs →
                ∃ msg, ∀ (LP : Lapack) (CO : Collaborators) (disp : bool),
                  @sqrtm DT LP (with_checked_schur CO) A disp bs
                  = Raise (ValueError msg)) as Hrej.
  { intros bs Hbad. unfold sqrtm, sqrtm_check.
    case_bool_decide as Hdim; [by eexists|].
    case_bool_decide as Hbs; [by eexists|].
    destruct Hbad as [Hbad|[(r & c & Hshape & Hrc)|Hbad]]; [done| |lia].
    exists "expected square matrix"%string. intros LP CO disp.
    unfold sqrtm_compute. cbn [rbind schur with_checked_schur].
    unfold checked_schur, schur_shape_check. rewrite Hshape.
    by rewrite bool_decide_eq_false_2. }
  assert (¬ invalid_argument (nd_shape A) blocksize →
          sqrtm_check (nd_shape A) blocksize = Ok tt
          ∧ schur_shape_check (nd_shape A) = Ok tt) as Hpass.
  { intros Hok.
    assert (length (nd_shape A) = 2%nat) as Hdim.
    { destruct (decide (length (nd_shape A) = 2%nat)); [done|].
      exfalso. apply Hok. by left. }
    assert (1 <= blocksize) as Hbs.
    { destruct (decide (1 <= blocksize)); [done|].
      exfalso. apply Hok. right. right. lia. }
    split.
    - unfold sqrtm_check.
      rewrite bool_decide_eq_false_2 by (intros Hne; by apply Hne).
      by rewrite bool_decide_eq_false_2 by lia.
    - destruct (nd_shape A) as [|r [|c [|x l]]] eqn:Hs; try done.
      unfold schur_shape_check. case_bool_decide as Hrc; [done|].
      exfalso. apply Hok. right. left. eauto. }
  assert (Decision (invalid_argument (nd_shape A) blocksize)) as Hdec.
  { unfold invalid_argument.
    destruct (decide (blocksize < 1)); [left; by (right; right)|].
    destruct (nd_shape A) as [|r [|c [|x l]]];
      [left; by left|left; by left| |left; by left].
    destruct (decide (r = c)) as [->|Hrc].
    - right. intros [Hl|[(r' & c' & [= <- <-] & Hne)|?]]; [by apply Hl|done..].
    - left. right. left. eauto. }
  split.
  { split.
    - intros (msg & Hmsg). destruct Hdec as [Hbad|Hok]; [done|].
      destruct (Hpass Hok) as [Hc Hs]. rewrite Hc in Hmsg.
      cbn [rbind] in Hmsg. by rewrite Hs in Hmsg.
    - intros Hbad. unfold sqrtm_check.
      case_bool_decide as Hdim; [by eexists|].
      case_bool_decide as Hbs; [by eexists|]. cbn [rbind].
      destruct Hbad as [Hbad|[(r & c & Hshape & Hrc)|Hbad]]; [done| |lia].
      unfold schur_shape_check. rewrite Hshape.
      rewrite bool_decide_eq_false_2 by done. by eexists. }
  split; [apply Hrej|]. split.
  { intros Hok.
    assert (length (nd_shape A) = 2%nat) as Hdim.
    { destruct (decide (length (nd_shape A) = 2%nat)); [done|].
      exfalso. apply Hok. by left. }
    assert (1 <= blocksize) as Hbs.
    { destruct (decide (1 <= blocksize)); [done|].
      exfalso. apply Hok. right. right. lia. }
    assert (sqrtm_check (nd_shape A) blocksize = Ok tt) as Hcheck.
    { unfold sqrtm_check.
      rewrite bool_decide_eq_false_2 by (intros Hne; by apply Hne).
      by rewrite bool_decide_eq_false_2 by lia. }
    assert (schur_shape_check (nd_shape A) = Ok tt) as Hshape.
    { destruct (nd_shape A) as [|r [|c [|x l]]] eqn:Hs; try done.
      unfold schur_shape_check. case_bool_decide as Hrc; [done|].
      exfalso. apply Hok. right. left. eauto. }
    split; [done|]. split; [done|].
    intros LP CO disp. unfold sqrtm. rewrite Hcheck.
    unfold sqrtm_compute. cbn [rbind schur with_checked_schur].
    unfold checked_schur. by rewrite Hshape. }
  split.
  { intros r c Hshape Hrc. apply Hrej. right. left. eauto. }
  apply Hrej. right. right. lia.
Qed.

Lemma sqrtm_rejects_invalid_arguments_witness :
  ∃ msg, @sqrtm IntModel.int_dtype IntModel.int_lapack
           (with_checked_schur IntModel.int_collaborators)
           IntExamples.A_wide true 64 = Raise (ValueError msg).
Proof.
  destruct (@sqrtm_rejects_invalid_arguments IntModel.int_dtype
              IntExamples.A_wide 64) as (_ & _ & _ & H & _).
  destruct (H 2 3 ltac:(reflexivity) ltac:(lia)) as (msg & Hmsg).
  exists msg. apply Hmsg.
Defined.

(** ** The loop bodies that the engine runs *)

Lemma for_in_logged {A St : Type} (g : A -> list loop_body) (xs : list A)
      (body : A -> St -> result St)
      (body_l : A -> St * list loop_body -> result (St * list loop_body)) :
  (∀ x st log,
     body_l x (st, log) = rmap (fun st' => (st', log ++ g x)) (body x st)) →
  ∀ st log,
    for_in xs body_l (st, log)
    = rmap (fun st' => (st', log ++ (xs ≫= g))) (for_in xs body st).
Proof.
  intros Hbody. induction xs as [|x xs IH]; intros st log.
  - cbn. by rewrite app_nil_r.
  - cbn [for_in]. rewrite Hbody.
    destruct (body x st) as [st'|e]; cbn; [|done].
    rewrite IH. unfold rmap. destruct (for_in xs body st'); cbn; [|done].
    by rewrite <- app_assoc.
Qed.

Lemma enter_pair {St : Type} (b : loop_body) (st : St) (log : list loop_body) :
  enter b (st, log) = (st, log ++ [b]).
Proof. reflexivity. Qed.

(** The within-block phase with the record is the phase itself, and the
    bodies it runs are those of [within_bodies]. *)
Lemma within_blocks_logged_spec `{DT : Dtype} `{LP : !Lapack}
      (T : matrix) (pairs : list (Z * Z)) (st : traced) (log : list loop_body) :
  within_blocks_logged T pairs (st, log)
  = rmap (fun st' => (st', log ++ within_bodies pairs))
         (within_blocks T pairs st).
Proof.
  unfold within_blocks_logged, within_blocks, within_bodies.
  apply (for_in_logged
           (fun p => WithinBlockBody p.1 p.2
                       :: (j ← range_up p.1 p.2;
                           WithinColumnBody j
                             :: (WithinEntryBody j <$> range_down (j - 1) (p.1 - 1))))).
  intros p st0 log0. rewrite enter_pair.
  rewrite (for_in_logged
             (fun j => WithinColumnBody j
                         :: (WithinEntryBody j <$> range_down (j - 1) (p.1 - 1)))
             (range_up p.1 p.2)
             (fun j => for_in (range_down (j - 1) (p.1 - 1)) (within_entry T j))).
  - unfold rmap. destruct (for_in (range_up p.1 p.2) _ st0); cbn; [|done].
    by rewrite <- app_assoc.
  - intros j st1 log1. rewrite enter_pair.
    rewrite (for_in_logged (fun i => [WithinEntryBody j i])
               (range_down (j - 1) (p.1 - 1)) (within_entry T j)).
    + rewrite bind_singleton_fmap. unfold rmap.
      destruct (for_in (range_down (j - 1) (p.1 - 1)) _ st1); cbn; [|done].
      by rewrite <- app_assoc.
    + intros i st2 log2. unfold on_state, enter, rmap. cbn [fst snd].
      by destruct (within_entry T j i st2).
Qed.

(** The same for the between-block phase. *)
Lemma between_blocks_logged_spec `{DT : Dtype} `{LP : !Lapack}
      (T : matrix) (pairs : list (Z * Z)) (nb : Z) (st : traced)
      (log : list loop_body) :
  between_blocks_logged T pairs nb (st, log)
  = rmap (fun st' => (st', log ++ between_bodies nb))
         (between_blocks T pairs nb st).
Proof.
  unfold between_blocks_logged, between_blocks, between_bodies.
  apply (for_in_logged
           (fun j => BetweenColumnBody j
                       :: (BetweenPairBody j <$> range_down (j - 1) (-1)))).
  intros j st0 log0. rewrite enter_pair.
  destruct (list_getitem pairs j) as [jj|e]; cbn [rbind]; [|done].
  rewrite (for_in_logged (fun i => [BetweenPairBody j i])
             (range_down (j - 1) (-1)) (between_pair T pairs j jj.1 jj.2)).
  - rewrite bind_singleton_fmap. unfold rmap.
    destruct (for_in (range_down (j - 1) (-1)) _ st0); cbn; [|done].
    by rewrite <- app_assoc.
  - intros i st1 log1. unfold on_state, enter, rmap. cbn [fst snd].
    by destruct (between_pair T pairs j jj.1 jj.2 i st1).
Qed.

(** The partition with the record builds the ranges of the partition. *)
Lemma append_blocks_logged_fst (count size : Z) (acc : list (Z * Z) * Z)
      (log : list loop_body) :
  (append_blocks_logged count size (acc, log)).1 = append_blocks count size acc.
Proof.
  unfold append_blocks_logged, append_blocks, enter. cbn [fst snd].
  generalize (log ++ [SizesBody count size]). generalize (range_up 0 count).
  intros l. revert acc. induction l as [|x l IH]; intros acc log'; [done|].
  cbn [foldl fst snd]. apply IH.
Qed.

Lemma block_partition_logged_erase (n blocksize : Z) (log : list loop_body) :
  rmap fst (block_partition_logged n blocksize log) = block_partition n blocksize.
Proof.
  unfold block_partition_logged, block_partition, rmap.
  destruct (blocking_of n blocksize) as [b|e]; cbn [rbind]; [|done].
  case_bool_decide; [done|]. cbn [rbind fst snd]. unfold start_stop_pairs.
  destruct (append_blocks_logged (nsmall b) (bsmall b) ([], 0, log))
    as [acc1 log1] eqn:Hsmall.
  rewrite append_blocks_logged_fst.
  apply (f_equal fst) in Hsmall. rewrite append_blocks_logged_fst in Hsmall.
  cbn [fst] in Hsmall. by rewrite Hsmall.
Qed.

(** The engine with the record is the engine: forgetting the record gives
    [sqrtm_triu_traced]. *)
Lemma sqrtm_triu_logged_erase `{DT : Dtype} `{LP : !Lapack}
      (T : matrix) (blocksize : Z) :
  rmap fst (sqrtm_triu_logged T blocksize) = sqrtm_triu_traced T blocksize.
Proof.
  unfold sqrtm_triu_logged, sqrtm_triu_traced.
  destruct (seed_diagonal T) as [R|e]; cbn [rbind]; [|done].
  rewrite <- (block_partition_logged_erase _ blocksize []).
  destruct (block_partition_logged _ blocksize []) as [[p plog]|e];
    cbn [rmap rbind fst snd]; [|done].
  rewrite within_blocks_logged_spec.
  destruct (within_blocks T p.2 R) as [R'|e]; cbn [rmap rbind fst snd]; [|done].
  rewrite between_blocks_logged_spec.
  by destruct (between_blocks T p.2 p.1 R').
Qed.

(** The record of the partition loops when there is one block. *)
Lemma block_partition_logged_single (n blocksize : Z) :
  0 <= n → blocksize ≠ 0 → n / blocksize <= 1 →
  block_partition_logged n blocksize []
  = Ok ((1, [(0, n)]), [SizesBody 1 n; AppendBody 0 n; SizesBody 0 (n + 1)]).
Proof.
  intros Hn Hb Hdiv.
  assert (0 <= n / blocksize ∨ n / blocksize <= 0) as Hsign by lia.
  assert (Z.max (n / blocksize) 1 = 1) as Hmax by lia.
  unfold block_partition_logged, blocking_of.
  rewrite bool_decide_eq_false_2 by done. cbv zeta.
  rewrite Hmax, Z.div_1_r, Z.mod_1_r.
  cbn [rbind nsmall bsmall nlarge blarge nblocks].
  rewrite bool_decide_eq_false_2 by lia.
  reflexivity.
Qed.

(** ** A single block, and the empty input, with the loops they run *)

(** The within-block phase runs bodies of its own three loops only. *)
Lemma within_bodies_kind (pairs : list (Z * Z)) (b : loop_body) :
  b ∈ within_bodies pairs →
  (∃ start stop, b = WithinBlockBody start stop)
  ∨ (∃ j, b = WithinColumnBody j) ∨ (∃ j i, b = WithinEntryBody j i).
Proof.
  intros Hin. unfold within_bodies in Hin.
  apply list_elem_of_bind in Hin as (p & Hin & _).
  apply elem_of_cons in Hin as [->|Hin]; [eauto|].
  apply list_elem_of_bind in Hin as (j & Hin & _).
  apply elem_of_cons in Hin as [->|Hin]; [eauto|].
  apply list_elem_of_fmap in Hin as (i & -> & _). eauto.
Qed.

(** C9, as the code has it: for a square T of order N >= 1 and
    blocksize >= N there is one block, [0, N).  The loop of line 82 runs
    its body once, for j = 0, and the loop of line 84 inside it has an empty
    range: no pair of blocks is processed and the body that calls the
    solver is never run.  Whatever the solver, the engine returns the same
    array; its assignments are those of the diagonal seeding and of the
    within-block loop, it satisfies the seeding equation and the scalar
    recurrence on [0, N) and is zero below the diagonal, and these
    equations fix every entry on and above the diagonal. *)
Theorem single_block_skips_solver `{DT : Dtype} `{LP0 : !Lapack}
        (T : matrix) (n blocksize : Z) :
  square n T → 1 <= n → n <= blocksize →
  block_partition n blocksize = Ok (1, [(0, n)])
  ∧ ∃ st log,
      (∀ LP : Lapack,
         @sqrtm_triu_logged DT LP T blocksize = Ok (st, log)
         ∧ @sqrtm_triu_traced DT LP T blocksize = Ok st
         ∧ @_sqrtm_triu DT LP T blocksize = Ok (arr st))
      ∧ log = [SizesBody 1 n; AppendBody 0 n; SizesBody 0 (n + 1)]
              ++ within_bodies [(0, n)] ++ [BetweenColumnBody 0]
      ∧ (∀ j, BetweenColumnBody j ∈ log ↔ j = 0)
      ∧ (∀ j i, BetweenPairBody j i ∉ log)
      ∧ writes st = diag_trace n ++ within_trace [(0, n)]
      ∧ square n (arr st)
      ∧ within_recurrence T n [(0, n)] (arr st)
      ∧ (∀ i j, 0 <= j → j < i → i < n → ent (arr st) i j = czero)
      ∧ (∀ R' : matrix,
           within_recurrence T n [(0, n)] R' →
           ∀ i j, 0 <= i → i <= j → j < n → ent R' i j = ent (arr st) i j).
Proof.
  intros HT Hn Hbs.
  assert (blocksize ≠ 0) as Hb by lia.
  assert (n / blocksize <= 1) as Hdiv
    by (apply div_le_one_cases; [lia|right; lia]).
  pose proof (block_partition_single n blocksize ltac:(lia) Hb Hdiv) as Hp.
  split; [done|].
  destruct (sqrtm_triu_within_ok T n blocksize HT Hb)
    as (nb & pairs & stw & Hp' & Hch & _ & Hw & Hww & Hinv).
  rewrite Hp in Hp'. injection Hp' as <- <-.
  assert (∃ st0, seed_diagonal T = Ok st0
                 ∧ within_blocks T [(0, n)] st0 = Ok stw) as (st0 & Hseed & Hwithin).
  { revert Hw. unfold sqrtm_triu_within. rewrite (square_ncols _ _ HT), Hp.
    destruct (seed_diagonal T) as [st0|e]; cbn [rbind]; [|done].
    intros Hw. by exists st0. }
  exists stw. eexists. split; [|split; [reflexivity|]].
  { intros LP.
    assert (@sqrtm_triu_traced DT LP T blocksize = Ok stw) as Hrun.
    { unfold sqrtm_triu_traced. rewrite (square_ncols _ _ HT), Hp, Hseed.
      cbn [rbind fst snd]. rewrite Hwithin. cbn [rbind].
      apply between_blocks_single. }
    split; [|split; [done|unfold _sqrtm_triu; by rewrite Hrun]].
    unfold sqrtm_triu_logged.
    rewrite (square_ncols _ _ HT), Hseed.
    rewrite (block_partition_logged_single n blocksize ltac:(lia) Hb Hdiv).
    cbn [rbind fst snd]. rewrite within_blocks_logged_spec, Hwithin.
    cbn [rmap rbind]. rewrite between_blocks_logged_spec.
    rewrite between_blocks_single. cbn [rmap rbind].
    by rewrite <- app_assoc. }
  split.
  { intros j. rewrite !elem_of_app, !elem_of_cons, elem_of_nil. split.
    - intros [[?|[?|[?|?]]]|[Hin|[Hin|[]]]]; try done.
      + apply within_bodies_kind in Hin
          as [(? & ? & ?)|[(? & ?)|(? & ? & ?)]]; done.
      + by injection Hin.
    - intros ->. right. right. by left. }
  split.
  { intros j i. rewrite !elem_of_app, !elem_of_cons, elem_of_nil.
    intros [[?|[?|[?|?]]]|[Hin|[?|[]]]]; try done.
    apply within_bodies_kind in Hin
      as [(? & ? & ?)|[(? & ?)|(? & ? & ?)]]; done. }
  split; [done|].
  pose proof Hinv as (Hsq & _ & _ & _ & _ & Hzero & _).
  pose proof (engine_inv_within_recurrence _ _ _ _ _ Hinv) as Hrec.
  split; [done|]. split; [done|]. split.
  { intros i j Hj Hji Hi. apply Hzero; [lia..|].
    intros Hin. apply (engine_inv_upper T n _ Hch _ _ _ _ _ Hinv) in Hin. lia. }
  intros R' HR' i j Hi Hij Hj.
  apply (within_recurrence_determined T n [(0, n)] [(0, n)] R' (arr stw)
           0 n 0 n HR' Hrec); try lia; by apply list_elem_of_singleton.
Qed.

Lemma single_block_skips_solver_witness :
  ∃ st log,
    @sqrtm_triu_logged IntModel.int_dtype IntModel.int_lapack IntModel.T4 64
    = Ok (st, log)
    ∧ (∀ j i, BetweenPairBody j i ∉ log)
    ∧ @_sqrtm_triu IntModel.int_dtype IntExamples.failing_info_lapack
        IntModel.T4 64 = Ok (arr st).
Proof.
  destruct (@single_block_skips_solver IntModel.int_dtype IntModel.int_lapack
              IntModel.T4 4 64 T4_square ltac:(lia) ltac:(lia))
    as (_ & st & log & Hrun & _ & _ & Hpair & _).
  exists st, log. split; [apply (Hrun IntModel.int_lapack)|].
  split; [exact Hpair|apply (Hrun IntExamples.failing_info_lapack)].
Defined.

(** C9, as stated, fails on the 1 x 1 input [[9]] with blocksize 1: the
    between-block phase does not perform zero iterations, the loop of line
    82 runs its body once, for j = 0. *)
Lemma single_block_between_loop_runs_once :
  ∃ st log,
    @sqrtm_triu_logged IntModel.int_dtype IntModel.int_lapack
       IntExamples.T_single 1 = Ok (st, log)
    ∧ log = [SizesBody 1 1; AppendBody 0 1; SizesBody 0 2;
             WithinBlockBody 0 1; WithinColumnBody 0; BetweenColumnBody 0]
    ∧ BetweenColumnBody 0 ∈ log
    ∧ ¬ (∀ j, BetweenColumnBody j ∉ log).
Proof.
  eexists _, _. split; [vm_compute; reflexivity|].
  split; [reflexivity|].
  assert (BetweenColumnBody 0
          ∈ [SizesBody 1 1; AppendBody 0 1; SizesBody 0 2;
             WithinBlockBody 0 1; WithinColumnBody 0; BetweenColumnBody 0])
    as Hin by (rewrite !elem_of_cons; auto 10).
  split; [exact Hin|]. intros Hnone. exact (Hnone 0 Hin).
Qed.

(** C10, as the code has it: on the empty 0 x 0 input with blocksize >= 1
    the consistency check passes with the single empty block [0, 0) and
    the engine returns the 0 x 0 array; no entry is assigned and the body
    that calls the solver is never run.  The bodies that are run are those
    of the partition loops (line 67 twice, line 68 once, appending the
    block), of the loop of line 73 once and of the loop of line 82 once;
    the loops of lines 74, 75 and 84 have empty ranges. *)
Theorem empty_input_runs `{DT : Dtype} `{LP : !Lapack} (blocksize : Z) :
  1 <= blocksize →
  block_partition 0 blocksize = Ok (1, [(0, 0)])
  ∧ sqrtm_triu_logged [] blocksize
    = Ok (Traced [] [],
          [SizesBody 1 0; AppendBody 0 0; SizesBody 0 1;
           WithinBlockBody 0 0; BetweenColumnBody 0])
  ∧ sqrtm_triu_traced [] blocksize = Ok (Traced [] [])
  ∧ _sqrtm_triu [] blocksize = Ok [].
Proof.
  intros Hb.
  assert (0 / blocksize <= 1) as Hdiv by (rewrite Z.div_0_l; lia).
  pose proof (block_partition_single 0 blocksize ltac:(lia) ltac:(lia) Hdiv)
    as Hp.
  split; [done|].
  assert (sqrtm_triu_traced [] blocksize = Ok (Traced [] [])) as Hrun.
  { unfold sqrtm_triu_traced. change (Z.of_nat (ncols [])) with 0.
    rewrite Hp. reflexivity. }
  split; [|split; [done|unfold _sqrtm_triu; by rewrite Hrun]].
  unfold sqrtm_triu_logged. change (Z.of_nat (ncols [])) with 0.
  rewrite (block_partition_logged_single 0 blocksize ltac:(lia) ltac:(lia) Hdiv).
  reflexivity.
Qed.

Lemma empty_input_runs_witness :
  @sqrtm_triu_logged IntModel.int_dtype IntModel.int_lapack [] 64
  = Ok (Traced [] [],
        [SizesBody 1 0; AppendBody 0 0; SizesBody 0 1;
         WithinBlockBody 0 0; BetweenColumnBody 0])
  ∧ @_sqrtm_triu IntModel.int_dtype IntModel.int_lapack [] 64 = Ok [].
Proof.
  destruct (@empty_input_runs IntModel.int_dtype IntModel.int_lapack 64
              ltac:(lia)) as (_ & Hlog & _ & H).
  split; [exact Hlog|exact H].
Defined.

(** C10, as stated, fails on the 0 x 0 input with blocksize 64: loop
    bodies do run, among them those of the loops of lines 73 and 82. *)
Lemma empty_input_runs_loop_bodies :
  ∃ st log,
    @sqrtm_triu_logged IntModel.int_dtype IntModel.int_lapack [] 64
    = Ok (st, log)
    ∧ log = [SizesBody 1 0; AppendBody 0 0; SizesBody 0 1;
             WithinBlockBody 0 0; BetweenColumnBody 0]
    ∧ WithinBlockBody 0 0 ∈ log
    ∧ BetweenColumnBody 0 ∈ log
    ∧ log ≠ [].
Proof.
  exists (Traced [] []),
         [SizesBody 1 0; AppendBody 0 0; SizesBody 0 1;
          WithinBlockBody 0 0; BetweenColumnBody 0].
  split; [reflexivity|]. split; [reflexivity|].
  split; [rewrite !elem_of_cons; auto 10|].
  split; [rewrite !elem_of_cons; auto 10|done].
Qed.
